(** * Titan: the key codec, the object layer and the expiration reaper

    A shallow embedding of [db/expire.go], [db/string.go], [db/zset.go] and
    the weight balancing of [db/limitersMgr.go].

    Conventions of the embedding:
    - a Go [[]byte] is a [string] (a sequence of 8-bit characters); where the
      code tests a slice against [nil] the value is an [option string];
    - [int64] values are [Z], with the wrap-around written out by [wrap64];
    - a [float64] score is its IEEE-754 bit pattern, a [Z] below [2^64];
    - the transaction of the KV store is a finite map together with the trace
      of the operations performed on it and the failures the store raises;
    - code that returns [(value, error)] returns a [result];
    - the [float64] weights and rates of the limiter are exact rationals:
      rounding, infinities and NaN are outside the model. *)

From Stdlib Require Import ZArith NArith QArith Lia Lqa List Ascii String.
From stdpp Require Import base option list gmap strings sorting.

Local Open Scope Z_scope.

(** ** Bytes *)

Module Bytes.

Definition byte_of_Z (z : Z) : ascii := ascii_of_N (Z.to_N (z mod 256)).
Definition Z_of_byte (c : ascii) : Z := Z.of_N (N_of_ascii c).

Fixpoint take (n : nat) (s : string) : string :=
  match n, s with
  | S n', String c s' => String c (take n' s')
  | _, _ => EmptyString
  end.

Fixpoint drop (n : nat) (s : string) : string :=
  match n, s with
  | S n', String _ s' => drop n' s'
  | _, _ => s
  end.

(** [len] is Go's [len] on a byte slice, as an [int]. *)
Definition len (s : string) : Z := Z.of_nat (String.length s).

(** [s[lo:hi]] of Go; [None] is the run-time panic of a slice expression out
    of range (the capacity of the slice is taken to be its length). *)
Definition slice (s : string) (lo hi : Z) : option string :=
  if (0 <=? lo) && (lo <=? hi) && (hi <=? len s)
  then Some (take (Z.to_nat (hi - lo)) (drop (Z.to_nat lo) s))
  else None.

(** [s[lo:]] of Go. *)
Definition slice_from (s : string) (lo : Z) : option string :=
  slice s lo (len s).

(** [bytes.Index(s, []byte{c})]: the position of the first [c], or [-1]. *)
Fixpoint index_byte (c : ascii) (s : string) : Z :=
  match s with
  | EmptyString => -1
  | String a s' =>
      if Ascii.eqb a c then 0
      else let r := index_byte c s' in if r <? 0 then -1 else r + 1
  end.

(** [bytes.HasPrefix(s, p)]. *)
Definition has_prefix (s p : string) : bool := String.prefix p s.

(** Big-endian encoding of the low [8 * n] bits of [z] on [n] bytes. *)
Fixpoint be_bytes (n : nat) (z : Z) : string :=
  match n with
  | O => EmptyString
  | S n' => String (byte_of_Z (z / 256 ^ Z.of_nat n')) (be_bytes n' z)
  end.

Fixpoint be_value_acc (acc : Z) (s : string) : Z :=
  match s with
  | EmptyString => acc
  | String c s' => be_value_acc (acc * 256 + Z_of_byte c) s'
  end.

(** The unsigned integer a byte string denotes, big-endian. *)
Definition be_value (s : string) : Z := be_value_acc 0 s.

(** [n] zero bytes: a fresh [make([]byte, n)]. *)
Fixpoint zeros (n : nat) : string :=
  match n with
  | O => EmptyString
  | S n' => String zero (zeros n')
  end.

(** [fmt.Sprintf("%04d", n)] for [0 <= n < 10000]. *)
Definition digit (d : Z) : ascii := byte_of_Z (48 + d mod 10).
Definition sprintf_04d (n : Z) : string :=
  String (digit (n / 1000)) (String (digit (n / 100))
    (String (digit (n / 10)) (String (digit n) EmptyString))).

End Bytes.

(** ** Machine integers *)

Definition two63 : Z := 2 ^ 63.
Definition two64 : Z := 2 ^ 64.

(** The value of an [int64] after an arithmetic operation whose exact result
    is [z]. *)
Definition wrap64 (z : Z) : Z := (z + two63) mod two64 - two63.

Definition in_int64 (z : Z) : Prop := - two63 <= z < two63.

(** [uint64(v)] of an [int64]. *)
Definition to_uint64 (z : Z) : Z := z mod two64.

(** [int64(u)] of a [uint64]. *)
Definition to_int64 (u : Z) : Z := if u <? two63 then u else u - two64.

(** ** [hash/crc32]: [crc32.ChecksumIEEE] *)

Module Crc32.

Definition poly : Z := 0xEDB88320.

Definition shift1 (crc : Z) : Z :=
  if Z.testbit crc 0 then Z.lxor (Z.shiftr crc 1) poly else Z.shiftr crc 1.

Definition update_byte (crc : Z) (c : ascii) : Z :=
  let x := Z.lxor crc (Bytes.Z_of_byte c) in
  shift1 (shift1 (shift1 (shift1 (shift1 (shift1 (shift1 (shift1 x))))))).

Fixpoint update (crc : Z) (s : string) : Z :=
  match s with
  | EmptyString => crc
  | String c s' => update (update_byte crc c) s'
  end.

Definition ChecksumIEEE (s : string) : Z :=
  Z.lxor (update 0xFFFFFFFF s) 0xFFFFFFFF.

End Crc32.


(** ** Errors and results *)

Inductive error : Type :=
  | ErrKeyNotFound
  | ErrTypeMismatch
  | ErrInvalidLength
  | ErrInteger
  | ErrStore      (* any other error the KV store returns *)
  | ErrPanic.     (* a Go run-time panic: index or slice out of range *)

Inductive result (A : Type) : Type :=
  | Ok (a : A)
  | Err (e : error).
Arguments Ok {A} a.
Arguments Err {A} e.

Definition is_ok {A} (r : result A) : bool :=
  match r with Ok _ => true | Err _ => false end.

(** ** The codec

    [db/codec.go] and [db/object.go] are missing; their functions follow the
    layout the specification gives. *)

(** Modelled from the spec: [EncodeInt64] is missing; "all timestamps are
    nanoseconds since UNIX epoch, stored 8-byte big-endian". *)
Definition EncodeInt64 (v : Z) : string := Bytes.be_bytes 8 (to_uint64 v).

(** Modelled from the spec: [DecodeInt64] is missing; it inverts
    [EncodeInt64] on the first eight bytes. *)
Definition DecodeInt64 (b : string) : Z :=
  to_int64 (Bytes.be_value (Bytes.take 8 b)).

(** A [float64] as its IEEE-754 bit pattern: sign (bit 63), exponent (bits
    62..52), fraction (bits 51..0). *)
Definition float64 : Type := Z.

Module Float64.
Definition magnitude (x : float64) : Z := x mod two63.
Definition inf_bits : Z := 0x7FF0000000000000.
Definition is_nan (x : float64) : bool := inf_bits <? magnitude x.
Definition is_finite (x : float64) : bool := magnitude x <? inf_bits.
Definition is_zero (x : float64) : bool := magnitude x =? 0.
(** Go's [==] on [float64]: a NaN equals nothing, the two zeros are equal,
    and otherwise two floats are equal when their bits are. *)
Definition eqb (x y : float64) : bool :=
  if is_nan x || is_nan y then false
  else (x =? y) || (is_zero x && is_zero y).
End Float64.

(** Modelled from the spec: [EncodeFloat64] is missing; "if the sign bit is 0,
    flip the sign bit; if the sign bit is 1, flip all 64 bits; store
    big-endian". *)
Definition EncodeFloat64 (x : float64) : string :=
  Bytes.be_bytes 8
    (if Z.testbit x 63 then Z.lxor x (Z.ones 64) else Z.lxor x two63).

(** Modelled from the spec: [DecodeFloat64] is missing; "decoding inverts".
    Fewer than eight bytes make the big-endian read panic. *)
Definition DecodeFloat64 (b : string) : option float64 :=
  if Bytes.len b <? 8 then None
  else
    let u := Bytes.be_value (Bytes.take 8 b) in
    Some (if Z.testbit u 63 then Z.lxor u two63 else Z.lxor u (Z.ones 64)).

(** [type ObjectType byte] and [type ObjectEncoding byte]. *)
Definition ObjectType : Type := Z.
Definition ObjectEncoding : Type := Z.

(** Modelled from the spec: the constants are declared in [db/object.go],
    which is missing; the types are enumerated from zero in the order of
    §3.1 (String, List, Hash, Set, ZSet), so [ObjectString] is the zero value
    of [ObjectType]. *)
Definition ObjectString : ObjectType := 0.
Definition ObjectList : ObjectType := 1.
Definition ObjectHash : ObjectType := 2.
Definition ObjectSet : ObjectType := 3.
Definition ObjectZSet : ObjectType := 4.

(** Modelled from the spec: the encoding hints are declared in [db/object.go],
    which is missing; they are numbered as Redis numbers its object
    encodings, raw first, so [ObjectEncodingRaw] is the zero value. *)
Definition ObjectEncodingRaw : ObjectEncoding := 0.
Definition ObjectEncodingInt : ObjectEncoding := 1.
Definition ObjectEncodingHT : ObjectEncoding := 2.

(** [type Object struct]: the header common to all objects. *)
Record Object : Type := mkObject {
  ID : string;
  Type_ : ObjectType;
  Encoding : ObjectEncoding;
  CreatedAt : Z;
  UpdatedAt : Z;
  ExpireAt : Z
}.

(** The zero value of the struct, what [&String{...}] starts from. *)
Definition zero_Object : Object :=
  {| ID := ""; Type_ := 0; Encoding := 0;
     CreatedAt := 0; UpdatedAt := 0; ExpireAt := 0 |}.

Definition ObjectEncodingLength : Z := 42.

(** Modelled from the spec: [EncodeObject] is missing; §4.2.3 gives the layout
    [type(1)][encoding(1)][created_at(8)][updated_at(8)][expire_at(8)][id(16)].
    The id is copied into its 16-byte field. *)
Definition EncodeObject (obj : Object) : string :=
  Bytes.be_bytes 1 (Type_ obj) +:+ Bytes.be_bytes 1 (Encoding obj)
  +:+ Bytes.be_bytes 8 (to_uint64 (CreatedAt obj))
  +:+ Bytes.be_bytes 8 (to_uint64 (UpdatedAt obj))
  +:+ Bytes.be_bytes 8 (to_uint64 (ExpireAt obj))
  +:+ Bytes.take 16 (ID obj +:+ Bytes.zeros 16).

(** Modelled from the spec: [DecodeObject] is missing; it reads the layout of
    §4.2.3 back and rejects a truncated header with [invalid_length]. *)
Definition DecodeObject (b : string) : result Object :=
  if Bytes.len b <? ObjectEncodingLength then Err ErrInvalidLength
  else Ok {|
    ID := Bytes.take 16 (Bytes.drop 26 b);
    Type_ := Bytes.be_value (Bytes.take 1 b);
    Encoding := Bytes.be_value (Bytes.take 1 (Bytes.drop 1 b));
    CreatedAt := to_int64 (Bytes.be_value (Bytes.take 8 (Bytes.drop 2 b)));
    UpdatedAt := to_int64 (Bytes.be_value (Bytes.take 8 (Bytes.drop 10 b)));
    ExpireAt := to_int64 (Bytes.be_value (Bytes.take 8 (Bytes.drop 18 b)))
  |}.

(** ** Databases and keys *)

(** [type DBID byte]-like identifier of a database inside a namespace. *)
Definition DBID : Type := Z.

(** Modelled from the spec: [DBID.Bytes] is missing; "D = db id (3 bytes,
    big-endian)". *)
Definition DBID_Bytes (id : DBID) : string := Bytes.be_bytes 3 id.

(** Modelled from the spec: [toDBID] is missing; it reads the three bytes of
    the db id back. *)
Definition toDBID (v : string) : DBID := Bytes.be_value v.

Record DB : Type := mkDB {
  Namespace : string;
  DB_ID : DBID
}.

(** Modelled from the spec: [MetaKey] is missing; the meta key is [NS:D:M:K]. *)
Definition MetaKey (db : DB) (key : string) : string :=
  Namespace db +:+ ":" +:+ DBID_Bytes (DB_ID db) +:+ ":M:" +:+ key.

(** db/expire.go: [toTikvDataKey]. *)
Definition toTikvDataKey (namespace : string) (id : DBID) (key : string)
  : string :=
  namespace +:+ ":" +:+ DBID_Bytes id +:+ ":D:" +:+ key.

(** db/expire.go: [toTikvScorePrefix]. *)
Definition toTikvScorePrefix (namespace : string) (id : DBID) (key : string)
  : string :=
  namespace +:+ ":" +:+ DBID_Bytes id +:+ ":S:" +:+ key.

(** Modelled from the spec: [DataKey] is missing; the data key prefix is
    [NS:D:D:ID], which is what [toTikvDataKey] builds for the reaper. *)
Definition DataKey (db : DB) (key : string) : string :=
  toTikvDataKey (Namespace db) (DB_ID db) key.

(** db/zset.go: [ZSetScorePrefix] builds [NS:D:S:] followed by its argument. *)
Definition ZSetScorePrefix (db : DB) (key : string) : string :=
  Namespace db +:+ ":" +:+ DBID_Bytes (DB_ID db) +:+ ":S:" +:+ key.

(** db/zset.go: [zsetMemberKey]. *)
Definition zsetMemberKey (dkey member : string) : string :=
  dkey +:+ ":" +:+ member.

(** db/zset.go: [zsetScoreKey]. *)
Definition zsetScoreKey (scorePrefix score member : string) : string :=
  scorePrefix +:+ ":" +:+ score +:+ ":" +:+ member.

(** db/expire.go: the prefixes of the expire index. *)
Definition expireKeyPrefix : string := "$sys:0:at:".
Definition hashExpireKeyPrefix : string := "$sys:0:at".
Definition EXPIRE_HASH_NUM : Z := 256.

(** db/expire.go: [expireKey]. *)
Definition expireKey (key : string) (ts : Z) : string :=
  let hashnum := Crc32.ChecksumIEEE key in
  let hashPrefix := Bytes.sprintf_04d (hashnum mod EXPIRE_HASH_NUM) in
  hashExpireKeyPrefix +:+ hashPrefix +:+ ":" +:+ EncodeInt64 ts +:+ ":" +:+ key.

(** db/expire.go: [IsExpired]. *)
Definition IsExpired (obj : Object) (now : Z) : bool :=
  if (ExpireAt obj =? 0) || (now <? ExpireAt obj) then false else true.

(** db/expire.go: [splitMetaKey]; [None] is the panic of a slice expression
    out of range. *)
Definition splitMetaKey (key : string) : option (string * DBID * string) :=
  let idx := Bytes.index_byte ":" key in
  match Bytes.slice key 0 idx,
        Bytes.slice key (idx + 1) (idx + 4),
        Bytes.slice_from key (idx + 6) with
  | Some namespace, Some id, Some rawkey => Some (namespace, toDBID id, rawkey)
  | _, _, _ => None
  end.


(** ** The transaction of the KV store

    [store.Transaction] is an interface of the external KV store: [Get],
    [Set], [Delete], [Iter]. A transaction reads its own writes, so its view
    is one finite map. Every operation can fail; which ones do is a property
    of the handle ([fault]). *)

Inductive KvOp : Type :=
  | OpGet (k : string)
  | OpBatchGet (ks : list string)
  | OpSet (k v : string)
  | OpDelete (k : string)
  | OpIter (start : string) (upper : option string)
  | OpNext (k : string)
  | OpGc (prefix : string).

Record Transaction : Type := mkTxn {
  db : DB;
  kv : gmap string string;
  trace : list KvOp;
  fault : KvOp → bool
}.

Definition no_fault : KvOp → bool := λ _, false.

Definition record (op : KvOp) (m : gmap string string) (txn : Transaction)
  : Transaction :=
  {| db := db txn; kv := m; trace := trace txn ++ [op]; fault := fault txn |}.

(** Computations in a transaction: the state is threaded, and an error leaves
    the state as it was when the error was raised. *)
Definition M (A : Type) : Type := Transaction → result A * Transaction.

Definition ret {A} (a : A) : M A := λ txn, (Ok a, txn).
Definition fail {A} (e : error) : M A := λ txn, (Err e, txn).
Definition bind {A B} (c : M A) (k : A → M B) : M B :=
  λ txn, match c txn with
         | (Ok a, txn') => k a txn'
         | (Err e, txn') => (Err e, txn')
         end.

Declare Scope txn_scope.
Delimit Scope txn_scope with txn.
Notation "x <~ c ;; k" := (bind c (λ x, k))
  (at level 100, c at next level, right associativity) : txn_scope.
Notation "c ;;; k" := (bind c (λ _, k))
  (at level 100, right associativity) : txn_scope.
Local Open Scope txn_scope.

(** The result of a call whose error the caller drops. *)
Definition ignore_error {A} (c : M A) : M unit :=
  λ txn, (Ok tt, snd (c txn)).

Definition get_db : M DB := λ txn, (Ok (db txn), txn).

(** [txn.t.Get(k)]: [Ok None] is the store's not-found error. *)
Definition txn_Get (k : string) : M (option string) :=
  λ txn, if fault txn (OpGet k) then (Err ErrStore, txn)
         else (Ok (kv txn !! k), record (OpGet k) (kv txn) txn).

(** [txn.t.Set(k, v)]. *)
Definition txn_Set (k v : string) : M unit :=
  λ txn, if fault txn (OpSet k v) then (Err ErrStore, txn)
         else (Ok tt, record (OpSet k v) (<[k := v]> (kv txn)) txn).

(** [txn.t.Delete(k)]. *)
Definition txn_Delete (k : string) : M unit :=
  λ txn, if fault txn (OpDelete k) then (Err ErrStore, txn)
         else (Ok tt, record (OpDelete k) (delete k (kv txn)) txn).

(** Modelled from the spec: [BatchGetValues] is missing; "batch reads via a
    single multi-get": one value per key, [nil] for an absent key. *)
Definition BatchGetValues (keys : list string) : M (list (option string)) :=
  λ txn, if fault txn (OpBatchGet keys) then (Err ErrStore, txn)
         else (Ok (map (λ k, kv txn !! k) keys),
               record (OpBatchGet keys) (kv txn) txn).

(** Modelled from the spec: [gc] is missing; it hands a key prefix over to the
    cluster-wide collection of orphan data ranges, which is out of scope here:
    the hand-over is an entry of the trace. *)
Definition gc (prefix : string) : M unit :=
  λ txn, if fault txn (OpGc prefix) then (Err ErrStore, txn)
         else (Ok tt, record (OpGc prefix) (kv txn) txn).

(** Modelled from the spec: what the collection of a handed-over prefix does
    once it runs: every entry under the prefix is removed. *)
Definition gc_sweep (prefix : string) (m : gmap string string)
  : gmap string string :=
  filter (λ e, Bytes.has_prefix e.1 prefix = false) m.

(** The entries of the store in the byte order of their keys. *)
Definition entry_le (a b : string * string) : Prop := String.le a.1 b.1.
Global Instance entry_le_dec : RelDecision entry_le.
Proof. intros a b. unfold entry_le. apply _. Defined.

Definition sorted_entries (m : gmap string string) : list (string * string) :=
  merge_sort entry_le (map_to_list m).

Definition in_range (start : string) (upper : option string) (k : string)
  : bool :=
  bool_decide (String.le start k)
  && match upper with
     | Some u => negb (bool_decide (String.le u k))
     | None => true
     end.

(** An iterator is the list of the entries still ahead of it: [Valid] is
    non-emptiness, [Key] and [Value] read the head, [Next] drops it. *)
Definition Iterator : Type := list (string * string).

(** [txn.t.Iter(start, upper)]: the entries with [start <= key < upper] in key
    order; [upper = nil] is unbounded. *)
Definition txn_Iter (start : string) (upper : option string) : M Iterator :=
  λ txn, if fault txn (OpIter start upper) then (Err ErrStore, txn)
         else (Ok (filter (λ e, in_range start upper e.1 = true)
                     (sorted_entries (kv txn))),
               record (OpIter start upper) (kv txn) txn).

Definition iter_Valid (it : Iterator) : bool :=
  match it with [] => false | _ => true end.

(** [iter.Next()]. *)
Definition iter_Next (it : Iterator) : M Iterator :=
  match it with
  | [] => ret []
  | e :: rest =>
      λ txn, if fault txn (OpNext e.1) then (Err ErrStore, txn)
             else (Ok rest, record (OpNext e.1) (kv txn) txn)
  end.

Definition new_txn (d : DB) (m : gmap string string) : Transaction :=
  {| db := d; kv := m; trace := []; fault := no_fault |}.

(** ** The expire index ([db/expire.go]) *)

(** db/expire.go: [expireAt]. [objType] is a parameter of the function that
    its body does not use; the metrics counter is left out. *)
Definition expireAt (mkey objID : string) (objType : ObjectType)
    (oldAt newAt : Z) : M unit :=
  let oldKey := expireKey mkey oldAt in
  let newKey := expireKey mkey newAt in
  (if 0 <? oldAt then txn_Delete oldKey else ret tt) ;;;
  (if 0 <? newAt then txn_Set newKey objID else ret tt).

(** db/expire.go: [unExpireAt]. *)
Definition unExpireAt (mkey : string) (expireAt : Z) : M unit :=
  if expireAt =? 0 then ret tt
  else txn_Delete (expireKey mkey expireAt).

(** ** Strings ([db/string.go]) *)

(** [type StringMeta struct { Object; Value []byte }]. *)
Record StringMeta : Type := mkStringMeta {
  Obj : Object;
  Value : option string
}.

(** [type String struct]; the transaction it is bound to is the state of [M]. *)
Record String_ : Type := mkString {
  Meta : StringMeta;
  key : string
}.

Definition set_Obj (f : Object → Object) (s : String_) : String_ :=
  {| Meta := {| Obj := f (Obj (Meta s)); Value := Value (Meta s) |};
     key := key s |}.
Definition set_Value (v : option string) (s : String_) : String_ :=
  {| Meta := {| Obj := Obj (Meta s); Value := v |}; key := key s |}.
Definition with_ExpireAt (e : Z) (o : Object) : Object :=
  {| ID := ID o; Type_ := Type_ o; Encoding := Encoding o;
     CreatedAt := CreatedAt o; UpdatedAt := UpdatedAt o; ExpireAt := e |}.
Definition with_UpdatedAt (u : Z) (o : Object) : Object :=
  {| ID := ID o; Type_ := Type_ o; Encoding := Encoding o;
     CreatedAt := CreatedAt o; UpdatedAt := u; ExpireAt := ExpireAt o |}.

(** The bytes of a slice that may be [nil]. *)
Definition bytes_of (v : option string) : string := default "" v.

(** [append(v, value...)]: appending nothing to [nil] yields [nil]. *)
Definition go_append (v : option string) (value : string) : option string :=
  match v with
  | None => if String.length value is O then None else Some value
  | Some b => Some (b +:+ value)
  end.

(** db/string.go: [encode]. *)
Definition encode (s : String_) : string :=
  EncodeObject (Obj (Meta s)) +:+ bytes_of (Value (Meta s)).

(** db/string.go: [decode]; [timestamp] is the reading of [Now()] the function
    takes. *)
Definition decode (s : String_) (b : string) (timestamp : Z)
  : result String_ :=
  match DecodeObject b with
  | Err e => Err e
  | Ok obj =>
      if negb (ExpireAt obj =? 0) && (ExpireAt obj <? timestamp) then Ok s
      else
        let s := set_Obj (λ _, obj) s in
        if ObjectEncodingLength <? Bytes.len b
        then Ok (set_Value
                   (Some (Bytes.drop (Z.to_nat ObjectEncodingLength) b)) s)
        else Ok s
  end.

(** db/string.go: [GetString]. [now] is the clock reading of the function
    itself, [timestamp] the later one of [decode]. *)
Definition GetString (key : string) (now timestamp : Z) : M String_ :=
  let str := {| Meta := {| Obj := zero_Object; Value := None |};
                key := key |} in
  d <~ get_db ;;
  let mkey := MetaKey d key in
  r <~ txn_Get mkey ;;
  match r with
  | None => ret str
  | Some meta =>
      match decode str meta timestamp with
      | Err e => fail e
      | Ok str =>
          if negb (Type_ (Obj (Meta str)) =? ObjectString)
          then fail ErrTypeMismatch
          else if negb (Encoding (Obj (Meta str)) =? ObjectEncodingRaw)
          then fail ErrTypeMismatch
          else ret (set_Obj (with_UpdatedAt now) str)
      end
  end.

(** db/string.go: [NewString]; [uuid] is the value [UUID()] returns. *)
Definition NewString (key : string) (now : Z) (uuid : string) : String_ :=
  {| Meta := {| Obj := {| ID := uuid; Type_ := ObjectString;
                          Encoding := ObjectEncodingRaw; CreatedAt := now;
                          UpdatedAt := now; ExpireAt := 0 |};
                Value := None |};
     key := key |}.

(** db/string.go: [Exist]. *)
Definition Exist (s : String_) : bool :=
  match Value (Meta s) with None => false | Some _ => true end.

(** db/string.go: [Get]. *)
Definition Get (s : String_) : result (option string) :=
  if negb (Exist s) then Err ErrKeyNotFound else Ok (Value (Meta s)).

(** db/string.go: [Set]; [expire] is the variadic argument and [timestamp] the
    reading of [Now()]. The call of [expireAt] in the source passes no object
    type; the parameter is unused, the type of the object stands in. The
    result is the object after the call. *)
Definition Set_ (s : String_) (val : option string) (expire : list Z)
    (timestamp : Z) : M String_ :=
  d <~ get_db ;;
  let mkey := MetaKey d (key s) in
  s <~ match expire with
       | e0 :: _ =>
           if 0 <? e0 then
             let old := ExpireAt (Obj (Meta s)) in
             let s := set_Obj (with_ExpireAt (wrap64 (timestamp + e0))) s in
             expireAt mkey (ID (Obj (Meta s))) (Type_ (Obj (Meta s))) old
               (ExpireAt (Obj (Meta s))) ;;;
             ret s
           else
             ignore_error (unExpireAt mkey (ExpireAt (Obj (Meta s)))) ;;;
             ret (set_Obj (with_ExpireAt 0) s)
       | [] =>
           ignore_error (unExpireAt mkey (ExpireAt (Obj (Meta s)))) ;;;
           ret (set_Obj (with_ExpireAt 0) s)
       end ;;
  let s := set_Value val s in
  txn_Set mkey (encode s) ;;;
  ret s.

(** db/string.go: [Len]. *)
Definition Len_ (s : String_) : Z := Bytes.len (bytes_of (Value (Meta s))).

(** db/string.go: [Append]: the object after the call and the new length. *)
Definition Append (s : String_) (value : string) : M (String_ * Z) :=
  let s := set_Value (go_append (Value (Meta s)) value) s in
  let s := set_Obj (with_ExpireAt 0) s in
  d <~ get_db ;;
  txn_Set (MetaKey d (key s)) (encode s) ;;;
  ret (s, Bytes.len (bytes_of (Value (Meta s)))).

(** db/string.go: [GetRange]. [spare] holds the bytes of the backing array
    between the length and the capacity of [Value]: Go lets [x[:n]] reach
    up to the capacity and panics beyond it. [Ok None] is the [nil] result.
    No sum overflows: a negative operand is added to a length. *)
Definition GetRange (s : String_) (spare : string) (start end_ : Z)
  : result (option string) :=
  let v := bytes_of (Value (Meta s)) in
  let vlen := Bytes.len v in
  let end_ := if end_ <? 0 then vlen + end_ else end_ in
  let start := if start <? 0 then vlen + start else start in
  if (end_ <? start) || (vlen <? start) || (end_ <? 0) then Ok None
  else
    let end_ := if vlen <? end_ then vlen else end_ in
    let start := if start <? 0 then 0 else start in
    (* Value[start:] keeps the backing array; [:end+1] re-slices it *)
    let tail := Bytes.drop (Z.to_nat start) v in
    if end_ + 1 <=? Bytes.len tail + Bytes.len spare
    then Ok (Some (Bytes.take (Z.to_nat (end_ + 1)) (tail +:+ spare)))
    else Err ErrPanic.

(** What GETRANGE is specified to return: the bytes of [v] from the resolved
    start to the resolved end inclusive, clamped to [v]; empty when the range
    lies outside. *)
Definition getrange_spec (v : string) (start end_ : Z) : string :=
  let vlen := Bytes.len v in
  let end_ := if end_ <? 0 then vlen + end_ else end_ in
  let start := if start <? 0 then vlen + start else start in
  let start := Z.max 0 start in
  let end_ := Z.min (vlen - 1) end_ in
  if end_ <? start then ""
  else Bytes.take (Z.to_nat (end_ - start + 1)) (Bytes.drop (Z.to_nat start) v).

(** ** Sorted sets ([db/zset.go]) *)

(** [type ZSetMeta struct { Object; Len int64 }]. *)
Record ZSetMeta : Type := mkZSetMeta {
  ZObj : Object;
  Len : Z
}.

(** [type ZSet struct]; the transaction it is bound to is the state of [M]. *)
Record ZSet : Type := mkZSet {
  meta : ZSetMeta;
  zkey : string
}.

Definition with_Len (n : Z) (zset : ZSet) : ZSet :=
  {| meta := {| ZObj := ZObj (meta zset); Len := n |}; zkey := zkey zset |}.

(** Modelled from the spec: the declaration of [NilValue] is missing; a
    score-index entry maps to "empty". *)
Definition NilValue : string := "".

(** db/zset.go: [encodeMeta]. *)
Definition encodeMeta (m : ZSetMeta) : string :=
  EncodeObject (ZObj m) +:+ Bytes.be_bytes 8 (to_uint64 (Len m)).

(** db/zset.go: [decodeMeta]. *)
Definition decodeMeta (zset : ZSet) (b : string) : result ZSet :=
  match DecodeObject b with
  | Err e => Err e
  | Ok obj =>
      if negb (Type_ obj =? ObjectZSet) then Err ErrTypeMismatch
      else
        let m := Bytes.drop (Z.to_nat ObjectEncodingLength) b in
        if negb (Bytes.len m =? 8) then Err ErrInvalidLength
        else Ok {| meta := {| ZObj := obj;
                              Len := to_int64 (Bytes.be_value m) |};
                   zkey := zkey zset |}
  end.

(** db/zset.go: [GetZSet]; [now] and [uuid] are what [Now()] and [UUID()]
    return when the set does not exist yet. *)
Definition GetZSet (key : string) (now : Z) (uuid : string) : M ZSet :=
  d <~ get_db ;;
  r <~ txn_Get (MetaKey d key) ;;
  match r with
  | None =>
      ret {| meta := {| ZObj := {| ID := uuid; Type_ := ObjectZSet;
                                   Encoding := ObjectEncodingHT;
                                   CreatedAt := now; UpdatedAt := now;
                                   ExpireAt := 0 |};
                        Len := 0 |};
             zkey := key |}
  | Some b =>
      match decodeMeta {| meta := {| ZObj := zero_Object; Len := 0 |};
                          zkey := key |} b with
      | Err e => fail e
      | Ok zset => ret zset
      end
  end.

(** db/zset.go: [MGet]. *)
Definition MGet (zset : ZSet) (members : list string)
  : M (list (option string)) :=
  d <~ get_db ;;
  let dkey := DataKey d (ID (ZObj (meta zset))) in
  BatchGetValues (map (zsetMemberKey dkey) members).

(** db/zset.go: [updateMeta]. *)
Definition updateMeta (zset : ZSet) : M unit :=
  d <~ get_db ;;
  txn_Set (MetaKey d (zkey zset)) (encodeMeta (meta zset)).

(** The loop of [ZAdd] over [members], with [scores] and [oldValues] read at
    the same index; a missing score is an index out of range. *)
Fixpoint ZAdd_loop (dkey scorePrefix : string) (members : list string)
    (scores : list float64) (oldValues : list (option string)) (added : Z)
  : M Z :=
  match members with
  | [] => ret added
  | member :: members' =>
      match scores, oldValues with
      | score :: scores', old :: oldValues' =>
          let bytesScore := EncodeFloat64 score in
          match old with
          | Some oldv =>
              match DecodeFloat64 oldv with
              | None => fail ErrPanic
              | Some oldScore =>
                  if Float64.eqb score oldScore
                  then ZAdd_loop dkey scorePrefix members' scores' oldValues'
                         added
                  else
                    txn_Delete (zsetScoreKey scorePrefix oldv member) ;;;
                    txn_Set (zsetMemberKey dkey member) bytesScore ;;;
                    txn_Set (zsetScoreKey scorePrefix bytesScore member)
                      NilValue ;;;
                    ZAdd_loop dkey scorePrefix members' scores' oldValues'
                      added
              end
          | None =>
              txn_Set (zsetMemberKey dkey member) bytesScore ;;;
              txn_Set (zsetScoreKey scorePrefix bytesScore member)
                NilValue ;;;
              ZAdd_loop dkey scorePrefix members' scores' oldValues'
                (wrap64 (added + 1))
          end
      | _, _ => fail ErrPanic
      end
  end.

(** db/zset.go: [ZAdd]: the number of members added and the object after the
    call. On an error the count is dropped. *)
Definition ZAdd (zset : ZSet) (members : list string) (scores : list float64)
  : M (Z * ZSet) :=
  oldValues <~ (if 0 <? Len (meta zset) then MGet zset members
                else ret (map (λ _, None) members)) ;;
  d <~ get_db ;;
  let dkey := DataKey d (ID (ZObj (meta zset))) in
  let scorePrefix := ZSetScorePrefix d (ID (ZObj (meta zset))) in
  added <~ ZAdd_loop dkey scorePrefix members scores oldValues 0 ;;
  let zset := with_Len (wrap64 (Len (meta zset) + added)) zset in
  updateMeta zset ;;;
  ret (added, zset).

(** db/zset.go: [Exist]. *)
Definition ZExist (zset : ZSet) : bool :=
  if Len (meta zset) =? 0 then false else true.

(** The loop of [ZRem] over [members] and the scores [MGet] found. *)
Fixpoint ZRem_loop (dkey scorePrefix : string) (members : list string)
    (scores : list (option string)) (deleted : Z) : M Z :=
  match members with
  | [] => ret deleted
  | member :: members' =>
      match scores with
      | [] => fail ErrPanic
      | None :: scores' =>
          ZRem_loop dkey scorePrefix members' scores' deleted
      | Some score :: scores' =>
          txn_Delete (zsetScoreKey scorePrefix score member) ;;;
          txn_Delete (zsetMemberKey dkey member) ;;;
          ZRem_loop dkey scorePrefix members' scores' (wrap64 (deleted + 1))
      end
  end.

(** db/zset.go: [ZRem]: the number of members deleted and the object after the
    call. On an error the count is dropped. *)
Definition ZRem (zset : ZSet) (members : list string) : M (Z * ZSet) :=
  scores <~ MGet zset members ;;
  d <~ get_db ;;
  let dkey := DataKey d (ID (ZObj (meta zset))) in
  let scorePrefix := ZSetScorePrefix d (ID (ZObj (meta zset))) in
  deleted <~ ZRem_loop dkey scorePrefix members scores 0 ;;
  let zset := with_Len (wrap64 (Len (meta zset) - deleted)) zset in
  if Len (meta zset) =? 0 then
    let mkey := MetaKey d (zkey zset) in
    txn_Delete mkey ;;;
    (if 0 <? ExpireAt (ZObj (meta zset))
     then unExpireAt mkey (ExpireAt (ZObj (meta zset)))
     else ret tt) ;;;
    ret (deleted, zset)
  else
    updateMeta zset ;;;
    ret (deleted, zset).

(** db/zset.go: [ZCard]. *)
Definition ZCard (zset : ZSet) : Z := Len (meta zset).

Section Formatting.

(** [strconv.FormatFloat(f, 'f', -1, 64)] of Go's library: the shortest
    decimal that reads back as [f]. *)
Variable FormatFloat : float64 → string.

(** db/zset.go: [ZScore]; [Ok None] is the [nil, nil] of an absent member. *)
Definition ZScore (zset : ZSet) (member : string) : M (option string) :=
  d <~ get_db ;;
  let dkey := DataKey d (ID (ZObj (meta zset))) in
  let memberKey := zsetMemberKey dkey member in
  r <~ txn_Get memberKey ;;
  match r with
  | None => ret None
  | Some bytesScore =>
      match DecodeFloat64 bytesScore with
      | None => fail ErrPanic
      | Some fscore => ret (Some (FormatFloat fscore))
      end
  end.

(** The variables of the scan loop of [ZAnyOrderRange]. *)
Record RangeState : Type := mkRangeState {
  rs_i : Z;
  rs_iter : Iterator;
  rs_items : list string
}.

Inductive LoopStep : Type :=
  | Again (s : RangeState)     (* back to the loop condition *)
  | Exit (items : list string). (* the loop is left *)

(** [items[len-1], items[len-2] = items[len-2], items[len-1]]. *)
Definition swap_last_two (items : list string) : list string :=
  match rev items with
  | a :: b :: r => rev r ++ [a; b]
  | _ => items
  end.

(** One evaluation of the loop condition of [ZAnyOrderRange] followed, when
    it holds, by the loop body. The [for] clause has no post statement, so
    [continue] leads back to the condition with [i] and the iterator as they
    are. An error of [iter.Next] breaks out of the loop. *)
Definition range_step (start stop : Z) (withScore positiveOrder : bool)
    (scorePrefix : string) (s : RangeState) : M LoopStep :=
  match rs_iter s with
  | [] => ret (Exit (rs_items s))
  | (k, _) :: _ =>
      if negb ((rs_i s <=? stop) && Bytes.has_prefix k scorePrefix)
      then ret (Exit (rs_items s))
      else
        let after (items : list string) : M LoopStep :=
          λ txn, match iter_Next (rs_iter s) txn with
                 | (Ok it, txn') =>
                     (Ok (Again {| rs_i := wrap64 (rs_i s + 1);
                                   rs_iter := it;
                                   rs_items := items |}), txn')
                 | (Err _, txn') => (Ok (Exit items), txn')
                 end in
        if start <=? rs_i s then
          if Bytes.len k <? Bytes.len scorePrefix + 1 + 8 + 1
          then ret (Again s)
          else
            let scoreAndMember :=
              Bytes.drop (Z.to_nat (Bytes.len scorePrefix + 1)) k in
            let score := Bytes.take 8 scoreAndMember in
            let member := Bytes.drop 9 scoreAndMember in
            let items := rs_items s ++ [member] in
            if withScore then
              match DecodeFloat64 score with
              | None => fail ErrPanic
              | Some f =>
                  let items := items ++ [FormatFloat f] in
                  after (if negb positiveOrder then swap_last_two items
                         else items)
              end
            else after items
        else after (rs_items s)
  end.

(** The loop itself: [None] when [fuel] evaluations of the condition did not
    leave it. *)
Fixpoint range_loop (fuel : nat) (step : RangeState → M LoopStep)
    (s : RangeState) (txn : Transaction)
  : option (result (list string) * Transaction) :=
  match fuel with
  | O => None
  | S fuel' =>
      match step s txn with
      | (Ok (Again s'), txn') => range_loop fuel' step s' txn'
      | (Ok (Exit items), txn') => Some (Ok items, txn')
      | (Err e, txn') => Some (Err e, txn')
      end
  end.

(** db/zset.go: [ZAnyOrderRange]; [None] when the scan loop is still running
    after [fuel] evaluations of its condition. *)
Definition ZAnyOrderRange (fuel : nat) (zset : ZSet) (start stop : Z)
    (withScore positiveOrder : bool) (txn : Transaction)
  : option (result (list string) * Transaction) :=
  let len := Len (meta zset) in
  let stop1 := if stop <? 0 then wrap64 (len + stop)
               else if len <=? stop then wrap64 (len - 1) else stop in
  if (stop <? 0) && (stop1 <? 0) then Some (Ok [], txn)
  else
    let start1 := if start <? 0
                  then (if wrap64 (len + start) <? 0 then 0
                        else wrap64 (len + start))
                  else start in
    if (stop1 <? start1) || (len <=? start1) then Some (Ok [], txn)
    else
      let scorePrefix := ZSetScorePrefix (db txn) (ID (ZObj (meta zset))) in
      match txn_Iter scorePrefix None txn with
      | (Err e, txn') => Some (Err e, txn')
      | (Ok iter, txn') =>
          let start2 := if positiveOrder then start1
                        else wrap64 (wrap64 (len - 1) - stop1) in
          let stop2 := if positiveOrder then stop1
                       else wrap64 (wrap64 (len - 1) - start1) in
          match range_loop fuel
                  (range_step start2 stop2 withScore positiveOrder
                     scorePrefix)
                  {| rs_i := 0; rs_iter := iter; rs_items := [] |} txn' with
          | None => None
          | Some (Err e, txn'') => Some (Err e, txn'')
          | Some (Ok items, txn'') =>
              Some (Ok (if positiveOrder then items else rev items), txn'')
          end
      end.

End Formatting.

(** ** The reaper ([db/expire.go]) *)

(** Modelled from the spec: [getObject] is missing; it loads the target meta
    key and decodes the header; a missing key is [not_found]. *)
Definition getObject (metaKey : string) : M Object :=
  r <~ txn_Get metaKey ;;
  match r with
  | None => fail ErrKeyNotFound
  | Some b =>
      match DecodeObject b with
      | Err e => fail e
      | Ok obj => ret obj
      end
  end.

(** db/expire.go: [gcDataKey]; [key] only feeds the log. *)
Definition gcDataKey (namespace : string) (dbid : DBID) (key id : string)
  : M unit :=
  gc (toTikvDataKey namespace dbid id).

(** db/expire.go: [doExpire]. *)
Definition doExpire (mkey id : string) (expireAt : Z) : M unit :=
  match splitMetaKey mkey with
  | None => fail ErrPanic
  | Some (namespace, dbid, key) =>
      λ txn,
        match getObject mkey txn with
        | (Err ErrKeyNotFound, txn') =>
            gcDataKey namespace dbid key id txn'
        | (Err e, txn') => (Err e, txn')
        | (Ok obj, txn') =>
            let idLen := String.length (ID obj) in
            let id := if (idLen <? String.length id)%nat
                      then Bytes.take idLen id else id in
            (if negb (String.eqb (ID obj) id)
             then gcDataKey namespace dbid key id
             else if negb (ExpireAt obj =? expireAt) then ret tt
             else
               txn_Delete mkey ;;;
               if Type_ obj =? ObjectString then ret tt
               else gcDataKey namespace dbid key id) txn'
        end
  end.

(** db/expire.go: the offsets into an expire key. *)
Definition expireTimestampOffset : Z := Bytes.len expireKeyPrefix.
Definition expireMetakeyOffset : Z := expireTimestampOffset + 8 + Bytes.len ":".

(** The variables of the loop of [runExpire]. *)
Record ExpireLoop : Type := mkExpireLoop {
  el_limit : Z;
  el_thisExpireEndTs : Z;
  el_ts : Z
}.

(** The loop of [runExpire] over the entries of the iterator: every path
    through the body that stays in the loop calls [iter.Next]. An error is
    the [Rollback] and [return 0] of the source. *)
Fixpoint runExpire_loop (curExpireKeyPrefix : string)
    (curExpireTimestampOffset curExpireMetakeyOffset now : Z)
    (iter : Iterator) (st : ExpireLoop) : M ExpireLoop :=
  match iter with
  | [] => ret st
  | (rawKey, value) :: rest =>
      if negb (Bytes.has_prefix rawKey curExpireKeyPrefix
               && (0 <? el_limit st))
      then ret st
      else
        match Bytes.slice rawKey curExpireTimestampOffset
                (curExpireTimestampOffset + 8) with
        | None => fail ErrPanic
        | Some b =>
            let ts := DecodeInt64 b in
            if now <? ts
            then ret {| el_limit := el_limit st;
                        el_thisExpireEndTs := el_thisExpireEndTs st;
                        el_ts := ts |}
            else
              match Bytes.slice_from rawKey curExpireMetakeyOffset with
              | None => fail ErrPanic
              | Some mkey =>
                  doExpire mkey value ts ;;;
                  txn_Delete rawKey ;;;
                  iter_Next iter ;;;
                  runExpire_loop curExpireKeyPrefix curExpireTimestampOffset
                    curExpireMetakeyOffset now rest
                    {| el_limit := wrap64 (el_limit st - 1);
                       el_thisExpireEndTs := ts;
                       el_ts := ts |}
              end
        end
  end.

(** db/expire.go: [runExpire] inside the transaction it began, up to the
    commit; [now] is the clock reading taken after [Begin]. The result is the
    timestamp the next tick resumes from. *)
Definition runExpire (batchLimit : Z) (expireHash : string)
    (lastExpireEndTs now : Z) : M Z :=
  let hashed := negb (String.eqb expireHash "") in
  let curExpireKeyPrefix :=
    if hashed then hashExpireKeyPrefix +:+ expireHash +:+ ":"
    else expireKeyPrefix in
  let curExpireTimestampOffset :=
    if hashed then expireTimestampOffset + Bytes.len expireHash
    else expireTimestampOffset in
  let curExpireMetakeyOffset :=
    if hashed then expireMetakeyOffset + Bytes.len expireHash
    else expireMetakeyOffset in
  let endPrefix := curExpireKeyPrefix +:+ EncodeInt64 (wrap64 (now + 1)) in
  let startPrefix :=
    if 0 <? lastExpireEndTs
    then curExpireKeyPrefix +:+ EncodeInt64 lastExpireEndTs +:+ ":"
    else curExpireKeyPrefix in
  iter <~ txn_Iter startPrefix (Some endPrefix) ;;
  st <~ runExpire_loop curExpireKeyPrefix curExpireTimestampOffset
          curExpireMetakeyOffset now iter
          {| el_limit := batchLimit; el_thisExpireEndTs := 0;
             el_ts := now |} ;;
  ret (if el_limit st =? batchLimit then now else el_thisExpireEndTs st).

(** ** The balancing of the rate limiter ([db/limitersMgr.go]) *)

Module Limiter.

Local Open Scope Q_scope.

Definition MAXIMUM_WEIGHT : Q := 1.
Definition MINIMUM_WEIGHT : Q := 1 # 10.

(** [a < b] and [a >= b] on [float64]. *)
Definition ltb (a b : Q) : bool := negb (Qle_bool b a).
Definition geb (a b : Q) : bool := Qle_bool b a.

(** [rate.Limiter] of [golang.org/x/time/rate], as far as this file sets it
    up: its limit and its burst. *)
Record RateLimiter : Type := mkRateLimiter {
  rl_limit : Q;
  rl_burst : Z
}.

Record LimiterWrapper : Type := mkLimiterWrapper {
  limiter : option RateLimiter;
  globalLimit : Z;
  localPercent : Q
}.

Record CommandLimiter : Type := mkCommandLimiter {
  qpsLw : LimiterWrapper;
  rateLw : LimiterWrapper;
  weight : Q;
  skipBalance : bool
}.

Definition with_weight (w : Q) (cl : CommandLimiter) : CommandLimiter :=
  {| qpsLw := qpsLw cl; rateLw := rateLw cl; weight := w;
     skipBalance := skipBalance cl |}.

(** [setSkipBalance]. *)
Definition setSkipBalance (b : bool) (cl : CommandLimiter)
  : CommandLimiter :=
  {| qpsLw := qpsLw cl; rateLw := rateLw cl; weight := weight cl;
     skipBalance := b |}.

(** [LimiterWrapper.updateLimit]: the wrapper after the call and whether the
    limit changed. *)
Definition lw_updateLimit (lw : LimiterWrapper) (newLimit newBurst : Z)
  : LimiterWrapper * bool :=
  let burst := match limiter lw with
               | Some l => rl_burst l
               | None => 0%Z
               end in
  let changed := negb (globalLimit lw =? newLimit)%Z
                 || negb (burst =? newBurst)%Z in
  let lim :=
    if ((0 <? newLimit) && (0 <? newBurst))%Z then
      let localLimit := inject_Z newLimit * localPercent lw in
      match limiter lw with
      | Some l =>
          if negb (rl_burst l =? newBurst)%Z
          then Some (mkRateLimiter localLimit newBurst)
          else if negb (globalLimit lw =? newLimit)%Z
          then Some (mkRateLimiter localLimit (rl_burst l))
          else Some l
      | None => Some (mkRateLimiter localLimit newBurst)
      end
    else None in
  ({| limiter := lim; globalLimit := newLimit;
      localPercent := localPercent lw |}, changed).

(** [LimiterWrapper.updatePercent]. *)
Definition lw_updatePercent (lw : LimiterWrapper) (newPercent : Q)
  : LimiterWrapper :=
  if negb (Qeq_bool (localPercent lw) newPercent)
     && ltb 0 (localPercent lw) && ltb 0 newPercent
  then {| limiter := match limiter lw with
                     | Some l =>
                         Some (mkRateLimiter
                                 (inject_Z (globalLimit lw) * newPercent)
                                 (rl_burst l))
                     | None => None
                     end;
          globalLimit := globalLimit lw;
          localPercent := newPercent |}
  else lw.

(** [NewCommandLimiter]; [None] is the [nil] result. *)
Definition NewCommandLimiter (qpsLimit qpsBurst rateLimit rateBurst : Z)
    (initialPercent : Q) : option CommandLimiter :=
  if (negb ((0 <? qpsLimit) && (0 <? qpsBurst))
      && negb ((0 <? rateLimit) && (0 <? rateBurst)))%Z
  then None
  else if Qle_bool initialPercent 0 then None
  else
    let lw0 := {| limiter := None; globalLimit := 0%Z;
                  localPercent := initialPercent |} in
    Some {| qpsLw := fst (lw_updateLimit lw0 qpsLimit qpsBurst);
            rateLw := fst (lw_updateLimit lw0 rateLimit rateBurst);
            weight := MAXIMUM_WEIGHT;
            skipBalance := true |}.

(** [totalWeight := cl.weight; for i := range weights { totalWeight +=
    weights[i] }]. A peer is the pair of the entries that
    [scanStatusInOtherTitan] appends to [weights] and to [qpss]. *)
Definition total_weight (w : Q) (peers : list (Q * Q)) : Q :=
  fold_left (λ acc p, acc + fst p) peers w.

(** The loop of [balanceLimit] over the peers: [(otherHaveHigh,
    otherAllLow)], with the [break] at the first peer found high. *)
Fixpoint scan_others (qpsGlobalLimit totalWeight devideUsage
    multiplyUsage : Q) (peers : list (Q * Q)) (otherAllLow : bool)
  : bool * bool :=
  match peers with
  | [] => (false, otherAllLow)
  | (w, q) :: peers' =>
      let otherLimitInTarget := qpsGlobalLimit * (w / totalWeight) in
      if geb q (otherLimitInTarget * multiplyUsage) then (true, false)
      else if geb q (otherLimitInTarget * devideUsage)
      then scan_others qpsGlobalLimit totalWeight devideUsage multiplyUsage
             peers' false
      else scan_others qpsGlobalLimit totalWeight devideUsage multiplyUsage
             peers' otherAllLow
  end.

Definition divide_weight (w factor : Q) : Q :=
  let w := w / factor in
  if ltb w MINIMUM_WEIGHT then MINIMUM_WEIGHT else w.

Definition multiply_weight (w factor : Q) : Q :=
  let w := w * factor in
  if ltb MAXIMUM_WEIGHT w then MAXIMUM_WEIGHT else w.

(** The weight adjustment of [balanceLimit], from the computation of
    [totalWeight] to the end of the [if]/[else if]. *)
Definition adjust_weight (w averageQps qpsGlobalLimit devideUsage
    multiplyUsage weightChangeFactor : Q) (peers : list (Q * Q)) : Q :=
  let totalWeight := total_weight w peers in
  let selfLimitInTarget := qpsGlobalLimit * (w / totalWeight) in
  if ltb averageQps (selfLimitInTarget * devideUsage) then
    let '(otherHaveHigh, otherAllLow) :=
      scan_others qpsGlobalLimit totalWeight devideUsage multiplyUsage
        peers true in
    if otherHaveHigh then divide_weight w weightChangeFactor
    else if otherAllLow then multiply_weight w weightChangeFactor
    else w
  else if geb averageQps (selfLimitInTarget * multiplyUsage)
  then multiply_weight w weightChangeFactor
  else w.

(** What the KV store does during one run of [balanceLimit]. *)
Inductive StoreOutcome : Type :=
  | BeginFailed
  | ScanFailed
  | Scanned (peers : list (Q * Q)) (written : bool).

(** [balanceLimit]: the limiter after the run. [written] tells whether the
    status record was set and committed. *)
Definition balanceLimit (cl : CommandLimiter) (averageQps : Q)
    (store : StoreOutcome)
    (devideUsage multiplyUsage weightChangeFactor : Q) : CommandLimiter :=
  let qpsGlobalLimit := inject_Z (globalLimit (qpsLw cl)) in
  if Qle_bool qpsGlobalLimit 0 then cl
  else if skipBalance cl then setSkipBalance false cl
  else
    match store with
    | BeginFailed => cl
    | ScanFailed => cl
    | Scanned peers written =>
        let cl := with_weight
                    (adjust_weight (weight cl) averageQps qpsGlobalLimit
                       devideUsage multiplyUsage weightChangeFactor peers)
                    cl in
        let totalWeight := total_weight (weight cl) peers in
        let newPercent := weight cl / totalWeight in
        if written then
          {| qpsLw := lw_updatePercent (qpsLw cl) newPercent;
             rateLw := lw_updatePercent (rateLw cl) newPercent;
             weight := weight cl;
             skipBalance := skipBalance cl |}
        else cl
    end.

(** One tick of the balance loop for one limiter: what [balanceLimit] is
    called with. *)
Record Tick : Type := mkTick {
  tk_qps : Q;
  tk_store : StoreOutcome
}.

(** The limiter after a sequence of ticks under one configuration. *)
Definition run_ticks (devideUsage multiplyUsage weightChangeFactor : Q)
    (ticks : list Tick) (cl : CommandLimiter) : CommandLimiter :=
  fold_left (λ c tk, balanceLimit c (tk_qps tk) (tk_store tk) devideUsage
                       multiplyUsage weightChangeFactor) ticks cl.

(** A peer is high when its qps reached its multiply threshold, low when it
    is below both thresholds. *)
Definition peer_high (qpsGlobalLimit totalWeight multiplyUsage : Q)
    (p : Q * Q) : bool :=
  geb (snd p) (qpsGlobalLimit * (fst p / totalWeight) * multiplyUsage).
Definition peer_low (qpsGlobalLimit totalWeight devideUsage
    multiplyUsage : Q) (p : Q * Q) : bool :=
  negb (peer_high qpsGlobalLimit totalWeight multiplyUsage p)
  && ltb (snd p) (qpsGlobalLimit * (fst p / totalWeight) * devideUsage).

(** The weight is within [[0.1, 1.0]]. *)
Definition weight_ok (w : Q) : Prop :=
  MINIMUM_WEIGHT <= w ∧ w <= MAXIMUM_WEIGHT.

(** One run of [balanceLimit] that reaches the adjustment, as an observer
    sees it: the four conditions and the weight before and after. *)
Record RunView : Type := mkRunView {
  rv_self_low : bool;    (* self qps under its divide threshold *)
  rv_self_high : bool;   (* self qps at or above its multiply threshold *)
  rv_some_high : bool;   (* some peer at or above its multiply threshold *)
  rv_all_low : bool;     (* every peer below its thresholds *)
  rv_before : Q;
  rv_after : Q
}.

Definition run_view (cl : CommandLimiter) (averageQps : Q)
    (peers : list (Q * Q)) (written : bool)
    (devideUsage multiplyUsage weightChangeFactor : Q) : RunView :=
  let G := inject_Z (globalLimit (qpsLw cl)) in
  let W := total_weight (weight cl) peers in
  {| rv_self_low := ltb averageQps (G * (weight cl / W) * devideUsage);
     rv_self_high := geb averageQps (G * (weight cl / W) * multiplyUsage);
     rv_some_high := existsb (peer_high G W multiplyUsage) peers;
     rv_all_low := forallb (peer_low G W devideUsage multiplyUsage) peers;
     rv_before := weight cl;
     rv_after := weight (balanceLimit cl averageQps (Scanned peers written)
                           devideUsage multiplyUsage weightChangeFactor) |}.

(** The configuration shipped in [conf/titan.toml]. *)
Definition usage_to_divide : Q := 6 # 10.
Definition usage_to_multiply : Q := 9 # 10.
Definition weight_change_factor : Q := 15 # 10.

(** A limiter of 100 qps that went through a skipped tick and through a
    tick in which it was idle while its one peer was saturated. *)
Definition sample0 : option CommandLimiter :=
  NewCommandLimiter 100 10 0 0 (33 # 100).
Definition sample_ticks : list Tick :=
  [ {| tk_qps := 0; tk_store := Scanned [] true |};
    {| tk_qps := 0; tk_store := Scanned [(1, 100)] true |} ].
Definition sample1 : option CommandLimiter :=
  option_map (run_ticks usage_to_divide usage_to_multiply
                weight_change_factor sample_ticks) sample0.

End Limiter.

(** ** Well-formed values *)

(** The bit pattern of a [float64]. *)
Definition is_float64 (x : float64) : Prop := 0 <= x < two64.

(** A namespace without a colon. *)
Definition no_colon (ns : string) : Prop := Bytes.index_byte ":" ns = -1.

(** A database: its namespace has no colon and its id fits the three bytes of
    the key layout. *)
Definition wf_DB (d : DB) : Prop :=
  no_colon (Namespace d) ∧ 0 <= DB_ID d < 2 ^ 24.

(** ** Concrete states for the examples *)

Module Sample.

Definition db0 : DB := mkDB "ns" 1.
Definition id0 : string := "0123456789abcdef".
Definition id1 : string := "fedcba9876543210".

(** The bit patterns of [1.0], [2.0], [5.0], [+0] and [-0]. *)
Definition f_one : float64 := 0x3FF0000000000000.
Definition f_two : float64 := 0x4000000000000000.
Definition f_five : float64 := 0x4014000000000000.
Definition f_pos_zero : float64 := 0.
Definition f_neg_zero : float64 := 0x8000000000000000.

(** A stand-in for [strconv.FormatFloat] that knows the scores above. *)
Definition fmt (x : float64) : string :=
  if x =? f_one then "1" else if x =? f_two then "2"
  else if x =? f_five then "5" else if x =? f_pos_zero then "0"
  else if x =? f_neg_zero then "-0" else "?".

(** A sorted set bound to the user key ["k"], with object id [id0]. *)
Definition zset0 (len expire : Z) : ZSet :=
  {| meta := {| ZObj := {| ID := id0; Type_ := ObjectZSet;
                           Encoding := ObjectEncodingHT; CreatedAt := 5;
                           UpdatedAt := 5; ExpireAt := expire |};
                Len := len |};
     zkey := "k" |}.

(** A store whose only entry lies under the score prefix of [zset0] and is
    too short to hold a score and a member. *)
Definition short_key : string := ZSetScorePrefix db0 id0 +:+ ":x".
Definition short_key_txn : Transaction :=
  new_txn db0 {[ short_key := "" ]}.

(** The store after [ZADD k 1 a] on a fresh set that expires at 100, and
    the set object that goes with it. *)
Definition zset1 : ZSet := zset0 1 100.
Definition zset1_txn : Transaction :=
  snd (ZAdd (zset0 0 100) ["a"] [f_one]
         (new_txn db0 {[ expireKey (MetaKey db0 "k") 100 := id0 ]})).

(** A re-created sorted set: the meta under ["k"] carries the new id [id1],
    its member lives under the data key of [id1], and a member of the
    deleted object with id [id0] is still there. *)
Definition recreated_obj : Object :=
  {| ID := id1; Type_ := ObjectZSet; Encoding := ObjectEncodingHT;
     CreatedAt := 200; UpdatedAt := 200; ExpireAt := 0 |}.
Definition recreated_meta : string :=
  encodeMeta {| ZObj := recreated_obj; Len := 1 |}.
Definition recreated_txn : Transaction :=
  new_txn db0
    (<[ MetaKey db0 "k" := recreated_meta ]>
       (<[ zsetMemberKey (DataKey db0 id1) "a" := EncodeFloat64 f_two ]>
          {[ zsetMemberKey (DataKey db0 id0) "a" := EncodeFloat64 f_one ]})).

(** The same store with the entry of the expire index that the deleted
    object left behind, and the bucket of the index that entry lies in. *)
Definition stale_entry : string := expireKey (MetaKey db0 "k") 100.
Definition stale_bucket : string :=
  Bytes.take 4 (Bytes.drop 9 stale_entry).
Definition tick_txn : Transaction :=
  new_txn db0 (<[ stale_entry := id0 ]> (kv recreated_txn)).

(** A string object whose value is ["hello"]. *)
Definition hello : String_ :=
  set_Value (Some "hello") (NewString "s" 0 "").

(** A string stored under the user key ["s"] with value ["v"] that expires
    at time 100, and the store that holds it. *)
Definition expiring_obj : Object :=
  {| ID := id0; Type_ := ObjectString; Encoding := ObjectEncodingRaw;
     CreatedAt := 50; UpdatedAt := 50; ExpireAt := 100 |}.
Definition expiring_meta : string := EncodeObject expiring_obj +:+ "v".
Definition expiring_txn : Transaction :=
  new_txn db0 {[ MetaKey db0 "s" := expiring_meta ]}.

End Sample.

(** ** What a computation does to the transaction *)

(** [performs d P c]: run in a transaction on database [d], the computation
    [c] keeps the database and the failures of the handle, and extends the
    trace by operations that all satisfy [P]. *)
Definition performs {A} (d : DB) (P : KvOp → Prop) (c : M A) : Prop :=
  ∀ txn, db txn = d →
    db (snd (c txn)) = d
    ∧ fault (snd (c txn)) = fault txn
    ∧ ∃ ops, trace (snd (c txn)) = trace txn ++ ops ∧ Forall P ops.

(** Any operation at all: used where only the database matters. *)
Definition any_op : KvOp → Prop := λ _, True.

(** ** The layout of the operations of a sorted set *)

(** The trace of [txn'] extends that of [txn] by operations satisfying [P]. *)
Definition trace_ext (P : KvOp → Prop) (txn txn' : Transaction) : Prop :=
  ∃ ops, trace txn' = trace txn ++ ops ∧ Forall P ops.

(** An operation of a sorted set whose score index is keyed under
    [scorePrefix]: reads and writes touch the meta key, the member keys under
    the data key of the object id, the expire index of the meta key, or the
    score keys built from [scorePrefix]; the scan starts at [scorePrefix] and
    advances over keys that carry it. *)
Definition zset_op_layout (d : DB) (zset : ZSet) (scorePrefix : string)
    (op : KvOp) : Prop :=
  let mkey := MetaKey d (zkey zset) in
  let dkey := DataKey d (ID (ZObj (meta zset))) in
  let touches (k : string) : Prop :=
    k = mkey
    ∨ (∃ m, k = zsetMemberKey dkey m)
    ∨ (∃ ts, k = expireKey mkey ts)
    ∨ (∃ sc m, k = zsetScoreKey scorePrefix sc m) in
  match op with
  | OpGet k => touches k
  | OpBatchGet ks => ∀ k, k ∈ ks → ∃ m, k = zsetMemberKey dkey m
  | OpSet k _ => touches k
  | OpDelete k => touches k
  | OpIter start upper => start = scorePrefix ∧ upper = None
  | OpNext k => Bytes.has_prefix k scorePrefix = true
  | OpGc _ => False
  end.

(** * Further parts of the code

    The rest of [db/string.go], the callers of [db/zset.go] in the command
    layer, the limit bookkeeping of [db/limitersMgr.go] and the command loop
    of [client.go], over the definitions above. *)

From Stdlib Require DecimalString DecimalZ DecimalPos.

(** ** Decimal integers ([strconv]) *)

(** The value of a decimal digit, [None] for any other byte. *)
Definition digit_value (c : ascii) : option Z :=
  let n := Bytes.Z_of_byte c in
  if (48 <=? n) && (n <=? 57) then Some (n - 48) else None.

(** The digits of [s] read from the left onto [acc]. *)
Fixpoint parse_digits (acc : Z) (s : string) : option Z :=
  match s with
  | EmptyString => Some acc
  | String c s' =>
      match digit_value c with
      | None => None
      | Some d => parse_digits (acc * 10 + d) s'
      end
  end.

(** [strconv.ParseUint(s, 10, 64)] as far as [ParseInt] uses it: a syntax
    error for the empty string and for any byte that is not a digit; the
    range of the value is checked by the caller's cutoff. *)
Definition ParseUint (s : string) : option Z :=
  match s with
  | EmptyString => None
  | _ => parse_digits 0 s
  end.

(** [strconv.ParseInt(s, 10, 64)]: an optional sign, then digits; [None] is
    any error (syntax or range). *)
Definition ParseInt (s : string) : option Z :=
  match s with
  | EmptyString => None
  | String c rest =>
      let neg := Ascii.eqb c "-" in
      let digits := if Ascii.eqb c "+" || neg then rest else s in
      match ParseUint digits with
      | None => None
      | Some un =>
          if negb neg && (two63 <=? un) then None
          else if neg && (two63 <? un) then None
          else Some (if neg then - un else un)
      end
  end.

(** [strconv.FormatInt(n, 10)]: the decimal digits without leading zeros,
    after a minus sign for a negative number. *)
Definition FormatInt (n : Z) : string :=
  DecimalString.NilEmpty.string_of_int (Z.to_int n).

(** ** Strings, continued ([db/string.go]) *)

(** db/string.go: [GetSet]: the old value and the object after the call. *)
Definition GetSet (s : String_) (value : option string) (timestamp : Z)
  : M (option string * String_) :=
  let v := Value (Meta s) in
  s' <~ Set_ s value [] timestamp ;;
  ret (v, s').

(** db/string.go: [SetRange]; the body that would use [offset] is commented
    out in the source. *)
Definition SetRange (s : String_) (offset : Z) (value : option string)
    (timestamp : Z) : M String_ :=
  Set_ s value [] timestamp.

(** db/string.go: [Incr]: the new number and the object after the call.
    The sum wraps as [int64] addition does. *)
Definition Incr (s : String_) (delta : Z) (timestamp : Z)
  : M (Z * String_) :=
  let value := Value (Meta s) in
  match (match value with
         | Some v =>
             match ParseInt v with
             | None => Err ErrInteger
             | Some v => Ok (wrap64 (v + delta))
             end
         | None => Ok delta
         end) with
  | Err e => fail e
  | Ok delta =>
      let vs := FormatInt delta in
      s' <~ Set_ s (Some vs) [] timestamp ;;
      ret (delta, s')
  end.

(** A header whose fields fit the layout of the encoded object: a 16-byte
    id, one byte each for type and encoding, [int64] timestamps. *)
Definition wf_Object (o : Object) : Prop :=
  String.length (ID o) = 16%nat
  ∧ 0 <= Type_ o < 256 ∧ 0 <= Encoding o < 256
  ∧ in_int64 (CreatedAt o) ∧ in_int64 (UpdatedAt o) ∧ in_int64 (ExpireAt o).

(** The number a string object counts as for [Incr]: an absent value counts
    as zero. *)
Definition int_value (s : String_) : option Z :=
  match Value (Meta s) with
  | None => Some 0
  | Some v => ParseInt v
  end.

(** The expire index holds, for the meta key [mkey], the entry of the
    expiry of [obj] and no other: the entry at a positive [ExpireAt] maps to
    the id of the object. *)
Definition expire_index_ok (m : gmap string string) (mkey : string)
    (obj : Object) : Prop :=
  ∀ ts, in_int64 ts →
    m !! expireKey mkey ts
    = if (0 <? ExpireAt obj) && (ts =? ExpireAt obj) then Some (ID obj)
      else None.

(** The expiry that [Set] leaves in the header, from its variadic argument
    and its clock reading. *)
Definition Set_expiry (expire : list Z) (timestamp : Z) : Z :=
  match expire with
  | e0 :: _ => if 0 <? e0 then wrap64 (timestamp + e0) else 0
  | [] => 0
  end.

(** ** The reaper, continued ([db/expire.go]) *)

(** The bucket of the expire index a meta key hashes to, as [expireKey]
    prints it: the worker started with this [expireHash] owns the key. *)
Definition expireHashOf (mkey : string) : string :=
  Bytes.sprintf_04d (Crc32.ChecksumIEEE mkey mod EXPIRE_HASH_NUM).

(** The number of times a sequence of operations advances an iterator. *)
Fixpoint advanced (ops : list KvOp) : Z :=
  match ops with
  | [] => 0
  | OpNext _ :: ops' => 1 + advanced ops'
  | _ :: ops' => advanced ops'
  end.

Definition is_OpNext (op : KvOp) : bool :=
  match op with OpNext _ => true | _ => false end.

Definition is_OpSet (op : KvOp) : bool :=
  match op with OpSet _ _ => true | _ => false end.

(** [keeps R c]: whatever its outcome, the computation [c] leaves a
    transaction that is related by [R] to the one it started from. *)
Definition keeps {A} (R : Transaction → Transaction → Prop) (c : M A)
  : Prop :=
  ∀ txn, R txn (snd (c txn)).

(** The view of [txn'] holds no entry that the view of [txn] did not hold
    with the same value. *)
Definition no_new_entry (txn txn' : Transaction) : Prop :=
  kv txn' ⊆ kv txn.

(** ** Sorted sets, continued ([db/zset.go]) *)

(** The score and the member that a key of the score index carries, as the
    loop of [ZAnyOrderRange] cuts them out of the key. *)
Definition score_key_score (scorePrefix k : string) : string :=
  Bytes.take 8 (Bytes.drop (Z.to_nat (Bytes.len scorePrefix + 1)) k).
Definition score_key_member (scorePrefix k : string) : string :=
  Bytes.drop 9 (Bytes.drop (Z.to_nat (Bytes.len scorePrefix + 1)) k).

(** The entries at the head of an iterator whose keys carry the prefix: the
    score index of one sorted set, in the order of the scores. *)
Fixpoint under_prefix (p : string) (it : Iterator) : Iterator :=
  match it with
  | [] => []
  | e :: rest =>
      if Bytes.has_prefix e.1 p then e :: under_prefix p rest else []
  end.

(** The elements of a list at the positions [lo] to [hi], both included. *)
Definition ranks {A} (lo hi : Z) (l : list A) : list A :=
  take (Z.to_nat (hi - lo + 1)) (drop (Z.to_nat lo) l).

Section Replies.

Variable FormatFloat : float64 → string.

(** What an entry of the score index contributes to the reply of ZRANGE and
    ZREVRANGE: the member, followed by its score under WITHSCORES. *)
Definition entry_items (withScore : bool) (scorePrefix : string)
    (e : string * string) : list string :=
  score_key_member scorePrefix e.1
  :: (if withScore
      then [FormatFloat
              (default 0 (DecodeFloat64 (score_key_score scorePrefix e.1)))]
      else []).

(** The same items in the order the scan loop appends them: under
    WITHSCORES the reverse scan puts the score first, for the final
    reversal of the whole reply. *)
Definition scan_items (withScore positiveOrder : bool) (scorePrefix : string)
    (e : string * string) : list string :=
  if positiveOrder then entry_items withScore scorePrefix e
  else rev (entry_items withScore scorePrefix e).

End Replies.

(** ** The life of a command limiter ([db/limitersMgr.go]) *)

Module LimiterLife.

Import Limiter.
Local Open Scope Q_scope.

(** [strings.Split(s, sep)] for a separator of one byte. *)
Fixpoint split_on (sep : ascii) (s : string) : list string :=
  match s with
  | EmptyString => [EmptyString]
  | String c s' =>
      if Ascii.eqb c sep then EmptyString :: split_on sep s'
      else match split_on sep s' with
           | [] => [String c EmptyString]
           | w :: ws => String c w :: ws
           end
  end.

Definition ALL_NAMESPACE : string := "*".
Definition NAMESPACE_COMMAND_TOKEN : ascii := "@".

(** The name [CheckLimit] builds for the limiter of a command in a
    namespace. *)
Definition limiterName (namespace cmdName : string) : string :=
  namespace +:+ String NAMESPACE_COMMAND_TOKEN cmdName.

(** [getAllmatchLimiterName]. *)
Definition getAllmatchLimiterName (limiterName : string) : string :=
  match split_on NAMESPACE_COMMAND_TOKEN limiterName with
  | _ :: cmd :: _ => ALL_NAMESPACE +:+ String NAMESPACE_COMMAND_TOKEN cmd
  | _ => ""
  end.

(** [getNamespaceAndCmd]; [None] is the [nil] result. *)
Definition getNamespaceAndCmd (limiterName : string) : option (list string) :=
  match split_on NAMESPACE_COMMAND_TOKEN limiterName with
  | a :: b :: rest => Some (a :: b :: rest)
  | _ => None
  end.

(** [CommandLimiter.updateLimit]. *)
Definition updateLimit (cl : CommandLimiter)
    (newQpsLimit newQpsBurst newRateLimit newRateBurst : Z)
  : CommandLimiter :=
  let '(qps, qpsLimitChanged) :=
    lw_updateLimit (qpsLw cl) newQpsLimit newQpsBurst in
  let '(rate, rateLimitChanged) :=
    lw_updateLimit (rateLw cl) newRateLimit newRateBurst in
  let cl := {| qpsLw := qps; rateLw := rate; weight := weight cl;
               skipBalance := skipBalance cl |} in
  if qpsLimitChanged || rateLimitChanged then setSkipBalance true cl else cl.

(** A limit and its burst, as [getLimit] returns them and as [LimitData]
    keeps them. *)
Definition positive (ld : Z * Z) : bool := ((0 <? ld.1) && (0 <? ld.2))%Z.

(** The limit [runSyncNewLimit] settles on for a limiter: its own when that
    is set, otherwise the one stored for all namespaces, if any. *)
Definition resolveLimit (own : Z * Z) (allmatch : option (Z * Z)) : Z * Z :=
  if negb (positive own)
  then match allmatch with
       | Some limitData => limitData
       | None => own
       end
  else own.

(** The body of the second loop of [runSyncNewLimit] for one entry of
    [limiters], from the resolved limits on: the entry after the call. *)
Definition syncLimiter (initialPercent : Q)
    (commandLimiter : option CommandLimiter) (qps rate : Z * Z)
  : option CommandLimiter :=
  if positive qps || positive rate then
    match commandLimiter with
    | None => NewCommandLimiter qps.1 qps.2 rate.1 rate.2 initialPercent
    | Some cl => Some (updateLimit cl qps.1 qps.2 rate.1 rate.2)
    end
  else None.

(** What happens to one entry of [limiters]: a tick of the sync loop, with
    what [getLimit] returns for the limiter and what the maps of the limits
    for all namespaces hold, or a tick of the balance loop. *)
Inductive LimiterEvent : Type :=
  | Sync (qps rate : Z * Z) (qpsAllmatch rateAllmatch : option (Z * Z))
  | Balance (averageQps : Q) (store : StoreOutcome).

(** [runSyncNewLimit] and [runReportAndBalance] on one entry; a [nil] entry
    is skipped by the balance loop. *)
Definition limiter_step (initialPercent devideUsage multiplyUsage
    weightChangeFactor : Q) (entry : option CommandLimiter)
    (ev : LimiterEvent) : option CommandLimiter :=
  match ev with
  | Sync qps rate qpsAllmatch rateAllmatch =>
      syncLimiter initialPercent entry (resolveLimit qps qpsAllmatch)
        (resolveLimit rate rateAllmatch)
  | Balance averageQps store =>
      match entry with
      | Some cl => Some (balanceLimit cl averageQps store devideUsage
                           multiplyUsage weightChangeFactor)
      | None => None
      end
  end.

Definition limiter_run (initialPercent devideUsage multiplyUsage
    weightChangeFactor : Q) (events : list LimiterEvent)
    (entry : option CommandLimiter) : option CommandLimiter :=
  fold_left (limiter_step initialPercent devideUsage multiplyUsage
               weightChangeFactor) events entry.

(** The rate of the local limiter is the local share of the global limit,
    for a positive limit, burst and share. *)
Definition lw_ok (lw : LimiterWrapper) : Prop :=
  0 < localPercent lw
  ∧ match limiter lw with
    | Some l => rl_limit l = inject_Z (globalLimit lw) * localPercent lw
                ∧ (0 < globalLimit lw)%Z ∧ (0 < rl_burst l)%Z
    | None => True
    end.

(** Both wrappers are in step with their limits, and one of them limits. *)
Definition cl_ok (cl : CommandLimiter) : Prop :=
  lw_ok (qpsLw cl) ∧ lw_ok (rateLw cl)
  ∧ (is_Some (limiter (qpsLw cl)) ∨ is_Some (limiter (rateLw cl))).

End LimiterLife.

(** ** The commands of the sorted sets ([command] package, in [client.go]) *)

Module Command.

(** What a command hands over for the reply: [Integer], [NullBulkString],
    [BulkString]. *)
Inductive Reply : Type :=
  | Integer (n : Z)
  | NullBulkString
  | BulkString (s : string).

(** The errors of a command. *)
Inductive CommandError : Type :=
  | ErrWrongNumber   (* ERR wrong number of arguments for 'zadd' command *)
  | ErrFloat
  | ErrWrongType     (* [ErrTypeMismatch] of the package *)
  | ErrDB (e : error).  (* errors.New("ERR " + err.Error()) *)

(** A command in a transaction: its error or its reply, and the transaction
    after it. *)
Definition Cmd : Type := Transaction → (CommandError + Reply) * Transaction.

(** Modelled from the spec: [txn.ZSet] is missing from the sources; the
    typed accessor of the transaction handle materializes the object, which
    is what [GetZSet] does. *)
Definition txn_ZSet (key : string) (now : Z) (uuid : string) : M ZSet :=
  GetZSet key now uuid.

(** [zset, err := txn.ZSet(key)] and the handling of [err] that every
    command repeats. *)
Definition with_ZSet (key : string) (now : Z) (uuid : string)
    (k : ZSet → Cmd) : Cmd :=
  λ txn, match txn_ZSet key now uuid txn with
         | (Ok zset, txn') => k zset txn'
         | (Err ErrTypeMismatch, txn') => (inl ErrWrongType, txn')
         | (Err e, txn') => (inl (ErrDB e), txn')
         end.

(** The loop of [ZRem] over [ctx.Args[1:]]. *)
Fixpoint unique_members (args : list string) (uniqueMembers : gset string)
    (members : list string) : list string :=
  match args with
  | [] => members
  | member :: args' =>
      if decide (member ∈ uniqueMembers)
      then unique_members args' uniqueMembers members
      else unique_members args' ({[member]} ∪ uniqueMembers)
             (members ++ [member])
  end.

(** The pairs of a score and a member in the arguments of ZADD, and the
    score that comes with the first occurrence of a member. *)
Fixpoint pairs (kvs : list string) : list (string * string) :=
  match kvs with
  | score :: member :: kvs' => (score, member) :: pairs kvs'
  | _ => []
  end.

Fixpoint first_score (member : string) (ps : list (string * string))
  : option string :=
  match ps with
  | [] => None
  | (score, member') :: ps' =>
      if decide (member' = member) then Some score
      else first_score member ps'
  end.

Section Commands.

(** [strconv.ParseFloat(s, 64)] and [strconv.FormatFloat(f, 'f', -1, 64)]
    of Go's library; [None] is the error of [ParseFloat]. *)
Variable ParseFloat : string → option float64.
Variable FormatFloat : float64 → string.

(** The loop of [ZAdd] over [kvs]: [None] is the return of [ErrFloat]. *)
Fixpoint zadd_pairs (kvs : list string) (uniqueMembers : gset string)
    (members : list string) (scores : list float64)
  : option (list string * list float64) :=
  match kvs with
  | kv_score :: member :: kvs' =>
      if decide (member ∈ uniqueMembers)
      then zadd_pairs kvs' uniqueMembers members scores
      else
        match ParseFloat kv_score with
        | None => None
        | Some score =>
            if Float64.is_nan score then None
            else zadd_pairs kvs' ({[member]} ∪ uniqueMembers)
                   (members ++ [member]) (scores ++ [score])
        end
  | _ => Some (members, scores)
  end.

(** [ZAdd]; [key] is [ctx.Args[0]] and [kvs] is [ctx.Args[1:]]. The line
    the function prints is left out. *)
Definition ZAdd (key : string) (kvs : list string) (now : Z) (uuid : string)
  : Cmd :=
  λ txn,
    if negb (length kvs mod 2 =? 0)%nat then (inl ErrWrongNumber, txn)
    else
      match zadd_pairs kvs ∅ [] [] with
      | None => (inl ErrFloat, txn)
      | Some (members, scores) =>
          with_ZSet key now uuid
            (λ zset txn',
               match ZAdd zset members scores txn' with
               | (Ok (added, _), txn'') => (inr (Integer added), txn'')
               | (Err e, txn'') => (inl (ErrDB e), txn'')
               end) txn
      end.

(** [ZRem]; [key] is [ctx.Args[0]] and [args] is [ctx.Args[1:]]. *)
Definition ZRem (key : string) (args : list string) (now : Z) (uuid : string)
  : Cmd :=
  let members := unique_members args ∅ [] in
  with_ZSet key now uuid
    (λ zset txn',
       if negb (ZExist zset) then (inr (Integer 0), txn')
       else
         match ZRem zset members txn' with
         | (Ok (deleted, _), txn'') => (inr (Integer deleted), txn'')
         | (Err e, txn'') => (inl (ErrDB e), txn'')
         end).

(** [ZCard]. *)
Definition ZCard (key : string) (now : Z) (uuid : string) : Cmd :=
  with_ZSet key now uuid
    (λ zset txn',
       if negb (ZExist zset) then (inr (Integer 0), txn')
       else (inr (Integer (ZCard zset)), txn')).

(** [ZScore]; [key] is [ctx.Args[0]] and [member] is [ctx.Args[1]]. *)
Definition ZScore (key member : string) (now : Z) (uuid : string) : Cmd :=
  with_ZSet key now uuid
    (λ zset txn',
       if negb (ZExist zset) then (inr NullBulkString, txn')
       else
         match ZScore FormatFloat zset member txn' with
         | (Err e, txn'') => (inl (ErrDB e), txn'')
         | (Ok None, txn'') => (inr NullBulkString, txn'')
         | (Ok (Some score), txn'') => (inr (BulkString score), txn'')
         end).

End Commands.

End Command.

(** * Properties *)

(** ** Sanity checks of the byte-level helpers *)

Example crc32_check : Crc32.ChecksumIEEE "123456789" = 0xCBF43926.
Proof. vm_compute. reflexivity. Qed.

Example splitMetaKey_sample :
  splitMetaKey ("ns:" +:+ DBID_Bytes 1 +:+ ":M:a:b") = Some ("ns", 1, ":a:b").
Proof. vm_compute. reflexivity. Qed.

(** ** Byte strings *)

Local Arguments String.append : simpl nomatch.

(** The codec and the key builders stay folded under [simpl] and [cbn]. *)
Local Arguments EncodeObject : simpl never.
Local Arguments DecodeObject : simpl never.
Local Arguments EncodeInt64 : simpl never.
Local Arguments EncodeFloat64 : simpl never.
Local Arguments DecodeFloat64 : simpl never.
Local Arguments encode : simpl never.
Local Arguments encodeMeta : simpl never.
Local Arguments MetaKey : simpl never.
Local Arguments DataKey : simpl never.
Local Arguments toTikvDataKey : simpl never.
Local Arguments ZSetScorePrefix : simpl never.
Local Arguments zsetMemberKey : simpl never.
Local Arguments zsetScoreKey : simpl never.
Local Arguments expireKey : simpl never.
Local Arguments wrap64 : simpl never.
Local Arguments Float64.eqb : simpl never.

Lemma length_app (a b : string) :
  String.length (a +:+ b) = (String.length a + String.length b)%nat.
Proof. induction a as [|c a IH]; simpl; [reflexivity | now rewrite IH]. Qed.

Lemma app_assoc' (a b c : string) : (a +:+ b) +:+ c = a +:+ (b +:+ c).
Proof. induction a as [|x a IH]; simpl; [reflexivity | now rewrite IH]. Qed.

Lemma app_nil_r' (a : string) : a +:+ "" = a.
Proof. induction a as [|x a IH]; simpl; [reflexivity | now rewrite IH]. Qed.

Lemma len_app (a b : string) : Bytes.len (a +:+ b) = Bytes.len a + Bytes.len b.
Proof. unfold Bytes.len. rewrite length_app. lia. Qed.

Lemma len_nonneg (a : string) : 0 <= Bytes.len a.
Proof. unfold Bytes.len. lia. Qed.

Lemma take_app_length (a b : string) :
  Bytes.take (String.length a) (a +:+ b) = a.
Proof. induction a as [|c a IH]; simpl; [now destruct b | now rewrite IH]. Qed.

Lemma drop_app_length (a b : string) :
  Bytes.drop (String.length a) (a +:+ b) = b.
Proof. induction a as [|c a IH]; simpl; [reflexivity | exact IH]. Qed.

Lemma take_all (a : string) : Bytes.take (String.length a) a = a.
Proof. induction a as [|c a IH]; simpl; [reflexivity | now rewrite IH]. Qed.

Lemma length_take (n : nat) (a : string) :
  String.length (Bytes.take n a) = Nat.min n (String.length a).
Proof.
  revert a; induction n as [|n IH]; intros [|c a]; simpl; try reflexivity.
  now rewrite IH.
Qed.

Lemma prefix_app (a b c : string) :
  String.prefix (a +:+ b) (a +:+ c) = String.prefix b c.
Proof.
  induction a as [|x a IH]; simpl; [reflexivity|].
  destruct (ascii_dec x x) as [_|Hn]; [exact IH | congruence].
Qed.

Lemma prefix_app_r (a b : string) : String.prefix a (a +:+ b) = true.
Proof.
  induction a as [|x a IH]; simpl; [now destruct b|].
  destruct (ascii_dec x x) as [_|Hn]; [exact IH | congruence].
Qed.

Lemma prefix_same_length (a b c : string) :
  String.length a = String.length b →
  String.prefix a (b +:+ c) = true → a = b.
Proof.
  revert b; induction a as [|x a IH]; intros [|y b] Hlen Hp;
    simpl in *; try discriminate; [reflexivity|].
  destruct (ascii_dec x y) as [->|]; [|discriminate].
  f_equal. apply IH; [lia | exact Hp].
Qed.

(** ** Big-endian integers *)

Lemma Z_of_byte_of_Z (z : Z) : Bytes.Z_of_byte (Bytes.byte_of_Z z) = z mod 256.
Proof.
  unfold Bytes.Z_of_byte, Bytes.byte_of_Z.
  assert (H : 0 <= z mod 256 < 256) by (apply Z.mod_pos_bound; lia).
  rewrite N_ascii_embedding; [lia|].
  change 256%N with (Z.to_N 256). lia.
Qed.

Lemma length_be_bytes (n : nat) (z : Z) : String.length (Bytes.be_bytes n z) = n.
Proof. induction n as [|n IH]; simpl; [reflexivity | now rewrite IH]. Qed.

Lemma be_value_acc_be_bytes (n : nat) (z acc : Z) :
  Bytes.be_value_acc acc (Bytes.be_bytes n z)
  = acc * 256 ^ Z.of_nat n + z mod 256 ^ Z.of_nat n.
Proof.
  revert acc; induction n as [|n IH]; intros acc.
  - simpl. rewrite Z.mod_1_r. lia.
  - cbn [Bytes.be_bytes Bytes.be_value_acc]. rewrite IH, Z_of_byte_of_Z.
    rewrite Nat2Z.inj_succ, Z.pow_succ_r by lia.
    assert (Hp : 0 < 256 ^ Z.of_nat n) by (apply Z.pow_pos_nonneg; lia).
    rewrite (Z.mul_comm 256 (256 ^ Z.of_nat n)).
    rewrite (Z.rem_mul_r z (256 ^ Z.of_nat n) 256) by lia.
    lia.
Qed.

Lemma be_value_be_bytes (n : nat) (z : Z) :
  Bytes.be_value (Bytes.be_bytes n z) = z mod 256 ^ Z.of_nat n.
Proof. unfold Bytes.be_value. rewrite be_value_acc_be_bytes. lia. Qed.

Lemma to_int64_to_uint64 (z : Z) : in_int64 z → to_int64 (to_uint64 z) = z.
Proof.
  unfold in_int64, to_int64, to_uint64, two63, two64. intros H.
  destruct (Z.ltb_spec (z mod 2 ^ 64) (2 ^ 63)) as [Hlt|Hge].
  - destruct (Z.lt_ge_cases z 0) as [Hneg|Hpos].
    + rewrite <- (Z.mod_add z 1 (2 ^ 64)) in Hlt by lia.
      rewrite Z.mod_small in Hlt by lia. lia.
    + apply Z.mod_small. lia.
  - destruct (Z.lt_ge_cases z 0) as [Hneg|Hpos].
    + rewrite <- (Z.mod_add z 1 (2 ^ 64)) by lia.
      rewrite Z.mod_small by lia. lia.
    + rewrite Z.mod_small in Hge by lia. lia.
Qed.

Lemma wrap64_id (z : Z) : in_int64 z → wrap64 z = z.
Proof.
  unfold in_int64, wrap64, two63, two64. intros H.
  rewrite Z.mod_small by lia. lia.
Qed.

Lemma wrap64_range (z : Z) : in_int64 (wrap64 z).
Proof.
  unfold in_int64, wrap64, two63, two64.
  pose proof (Z.mod_pos_bound (z + 2 ^ 63) (2 ^ 64)). lia.
Qed.

(** ** The score codec *)

Lemma flip_sign_range (x : Z) :
  0 <= x < two64 → 0 <= Z.lxor x two63 < two64.
Proof.
  unfold two63, two64. intros H. split.
  - apply Z.lxor_nonneg. lia.
  - destruct (Z.eq_dec (Z.lxor x (2 ^ 63)) 0) as [->|Hne]; [lia|].
    apply Z.log2_lt_pow2.
    + assert (0 <= Z.lxor x (2 ^ 63)) by (apply Z.lxor_nonneg; lia). lia.
    + eapply Z.le_lt_trans; [apply Z.log2_lxor; lia|].
      apply Z.max_lub_lt.
      * destruct (Z.eq_dec x 0) as [->|]; [reflexivity|].
        apply Z.log2_lt_pow2; lia.
      * rewrite Z.log2_pow2; lia.
Qed.

Lemma flip_all_range (x : Z) :
  0 <= x < two64 → 0 <= Z.lxor x (Z.ones 64) < two64.
Proof.
  unfold two64. intros H. split.
  - apply Z.lxor_nonneg. rewrite Z.ones_equiv. lia.
  - destruct (Z.eq_dec (Z.lxor x (Z.ones 64)) 0) as [->|Hne]; [lia|].
    apply Z.log2_lt_pow2.
    + assert (0 <= Z.lxor x (Z.ones 64))
        by (apply Z.lxor_nonneg; rewrite Z.ones_equiv; lia). lia.
    + eapply Z.le_lt_trans;
        [apply Z.log2_lxor; rewrite ?Z.ones_equiv; lia|].
      apply Z.max_lub_lt.
      * destruct (Z.eq_dec x 0) as [->|]; [reflexivity|].
        apply Z.log2_lt_pow2; lia.
      * reflexivity.
Qed.

Lemma lxor_cancel (x c : Z) : Z.lxor (Z.lxor x c) c = x.
Proof. now rewrite Z.lxor_assoc, Z.lxor_nilpotent, Z.lxor_0_r. Qed.

Lemma length_EncodeFloat64 (x : float64) :
  String.length (EncodeFloat64 x) = 8%nat.
Proof. apply length_be_bytes. Qed.

Lemma take_be_bytes (n : nat) (z : Z) :
  Bytes.take n (Bytes.be_bytes n z) = Bytes.be_bytes n z.
Proof.
  pose proof (take_all (Bytes.be_bytes n z)) as H.
  now rewrite length_be_bytes in H.
Qed.

(** Decoding an encoded score gives the score back, bit for bit. *)
Lemma DecodeFloat64_EncodeFloat64 (x : float64) :
  is_float64 x → DecodeFloat64 (EncodeFloat64 x) = Some x.
Proof.
  intros Hx. unfold DecodeFloat64, EncodeFloat64.
  set (u := if Z.testbit x 63 then Z.lxor x (Z.ones 64) else Z.lxor x two63).
  assert (Hu : 0 <= u < two64).
  { subst u. destruct (Z.testbit x 63);
      [apply flip_all_range | apply flip_sign_range]; exact Hx. }
  unfold Bytes.len. rewrite length_be_bytes.
  change (Z.of_nat 8 <? 8) with false. cbv iota.
  rewrite take_be_bytes, be_value_be_bytes.
  change (256 ^ Z.of_nat 8) with two64.
  rewrite Z.mod_small by exact Hu.
  subst u. destruct (Z.testbit x 63) eqn:Hs.
  - rewrite Z.lxor_spec, Hs. change (Z.testbit (Z.ones 64) 63) with true.
    simpl xorb. cbv iota. now rewrite lxor_cancel.
  - rewrite Z.lxor_spec, Hs. change (Z.testbit two63 63) with true.
    simpl xorb. cbv iota. now rewrite lxor_cancel.
Qed.

(** ** Slices *)

Lemma take_ge (n : nat) (s : string) :
  (String.length s <= n)%nat → Bytes.take n s = s.
Proof.
  revert s; induction n as [|n IH]; intros [|c s] H; simpl in *;
    try reflexivity; [lia|].
  f_equal. apply IH. lia.
Qed.

Lemma slice_middle (a b c : string) :
  Bytes.slice (a +:+ b +:+ c) (Bytes.len a) (Bytes.len a + Bytes.len b)
  = Some b.
Proof.
  unfold Bytes.slice. rewrite !len_app.
  pose proof (len_nonneg a). pose proof (len_nonneg b).
  pose proof (len_nonneg c).
  replace ((0 <=? Bytes.len a) && (Bytes.len a <=? Bytes.len a + Bytes.len b)
           && (Bytes.len a + Bytes.len b
               <=? Bytes.len a + (Bytes.len b + Bytes.len c)))
    with true by (symmetry; rewrite !andb_true_iff, !Z.leb_le; lia).
  f_equal. unfold Bytes.len.
  replace (Z.to_nat _) with (String.length b) by lia.
  rewrite Nat2Z.id, drop_app_length. apply take_app_length.
Qed.

Lemma slice_from_app (a b : string) :
  Bytes.slice_from (a +:+ b) (Bytes.len a) = Some b.
Proof.
  unfold Bytes.slice_from. rewrite len_app.
  rewrite <- (app_nil_r' b) at 1. rewrite slice_middle. reflexivity.
Qed.

Lemma index_byte_app (c : ascii) (a b : string) :
  Bytes.index_byte c a = -1 →
  Bytes.index_byte c (a +:+ String c b) = Bytes.len a.
Proof.
  induction a as [|x a IH]; simpl; intros H.
  - now rewrite Ascii.eqb_refl.
  - destruct (Ascii.eqb x c); [discriminate|].
    destruct (Z.ltb_spec (Bytes.index_byte c a) 0) as [Hneg|Hpos].
    + assert (Ha : Bytes.index_byte c a = -1).
      { clear -Hneg. induction a as [|y a IHa]; simpl in *; [reflexivity|].
        destruct (Ascii.eqb y c); [lia|].
        destruct (Bytes.index_byte c a <? 0); [reflexivity|].
        destruct (Z.ltb_spec (Bytes.index_byte c a) 0); lia. }
      rewrite (IH Ha). pose proof (len_nonneg a).
      destruct (Z.ltb_spec (Bytes.len a) 0); [lia|].
      unfold Bytes.len. simpl String.length. lia.
    + lia.
Qed.

Lemma toDBID_Bytes (id : DBID) : 0 <= id < 2 ^ 24 → toDBID (DBID_Bytes id) = id.
Proof.
  intros H. unfold toDBID, DBID_Bytes. rewrite be_value_be_bytes.
  apply Z.mod_small. exact H.
Qed.

Lemma len_DBID_Bytes (id : DBID) : Bytes.len (DBID_Bytes id) = 3.
Proof. unfold Bytes.len, DBID_Bytes. now rewrite length_be_bytes. Qed.

(** What [splitMetaKey] returns on every well-formed meta key: the namespace,
    the db id, and the user key with the colon in front of it. *)
Lemma splitMetaKey_MetaKey (d : DB) (K : string) :
  wf_DB d →
  splitMetaKey (MetaKey d K) = Some (Namespace d, DB_ID d, ":" +:+ K).
Proof.
  intros [Hns Hid]. unfold splitMetaKey, MetaKey.
  set (ns := Namespace d) in *. set (B := DBID_Bytes (DB_ID d)).
  assert (HB : Bytes.len B = 3) by apply len_DBID_Bytes.
  assert (Hidx : Bytes.index_byte ":" (ns +:+ ":" +:+ B +:+ ":M:" +:+ K)
                 = Bytes.len ns).
  { change (":" +:+ B +:+ ":M:" +:+ K)
      with (String ":" (B +:+ ":M:" +:+ K)).
    now apply index_byte_app. }
  rewrite Hidx.
  assert (H1 : Bytes.slice (ns +:+ ":" +:+ B +:+ ":M:" +:+ K) 0 (Bytes.len ns)
               = Some ns).
  { exact (slice_middle "" ns (":" +:+ B +:+ ":M:" +:+ K)). }
  assert (H2 : Bytes.slice (ns +:+ ":" +:+ B +:+ ":M:" +:+ K)
                 (Bytes.len ns + 1) (Bytes.len ns + 4) = Some B).
  { pose proof (slice_middle (ns +:+ ":") B (":M:" +:+ K)) as H.
    rewrite len_app, HB, app_assoc' in H.
    change (Bytes.len ":") with 1 in H.
    replace (Bytes.len ns + 1 + 3) with (Bytes.len ns + 4) in H by lia.
    exact H. }
  assert (H3 : Bytes.slice_from (ns +:+ ":" +:+ B +:+ ":M:" +:+ K)
                 (Bytes.len ns + 6) = Some (":" +:+ K)).
  { pose proof (slice_from_app (ns +:+ ":" +:+ B +:+ ":M") (":" +:+ K)) as H.
    rewrite !len_app, HB in H. rewrite !app_assoc' in H.
    change (Bytes.len ":") with 1 in H. change (Bytes.len ":M") with 2 in H.
    replace (Bytes.len ns + (1 + (3 + 2))) with (Bytes.len ns + 6) in H by lia.
    exact H. }
  rewrite H1, H2, H3. unfold B. now rewrite toDBID_Bytes.
Qed.

(** C7. On the well-formed meta key [ns:D:M:key], with a namespace without
    colon and a 3-byte db id, [splitMetaKey] returns the namespace and the db
    id, but its third result is [":key"], not the user key [key]: the
    remainder is taken at [idx+6], the colon that ends [:M:]. *)
Theorem splitMetaKey_keeps_separator :
  splitMetaKey (MetaKey (mkDB "ns" 1) "key") = Some ("ns", 1, ":key")
  ∧ splitMetaKey (MetaKey (mkDB "ns" 1) "key") ≠ Some ("ns", 1, "key").
Proof. split; [vm_compute; reflexivity | vm_compute; discriminate]. Qed.

(** ** GETRANGE *)

(** C6. On the stored value ["hello"], [GetRange 1 3] returns ["ello"], the
    first [end+1] bytes of the tail from [start], where the bytes from index 1
    to index 3 inclusive are ["ell"]. With no spare capacity, [GetRange 0 10]
    panics where the clamped range is the whole value. *)
Theorem GetRange_takes_end_plus_one_bytes :
  GetRange Sample.hello "" 1 3 = Ok (Some "ello")
  ∧ getrange_spec "hello" 1 3 = "ell"
  ∧ GetRange Sample.hello "" 0 10 = Err ErrPanic
  ∧ getrange_spec "hello" 0 10 = "hello".
Proof. repeat split; vm_compute; reflexivity. Qed.

(** With [start = 0] and an end inside the value the two agree. *)
Lemma GetRange_from_zero (v spare : string) (e : Z) :
  0 <= e < Bytes.len v →
  GetRange (set_Value (Some v) (NewString "s" 0 "")) spare 0 e
  = Ok (Some (getrange_spec v 0 e)).
Proof.
  intros He. unfold GetRange, getrange_spec. simpl bytes_of.
  set (n := Bytes.len v) in *. pose proof (len_nonneg spare).
  replace (e <? 0) with false by (symmetry; apply Z.ltb_ge; lia).
  change (0 <? 0) with false. cbv iota.
  replace (e <? 0) with false by (symmetry; apply Z.ltb_ge; lia).
  replace (n <? 0) with false by (symmetry; apply Z.ltb_ge; lia).
  simpl orb. cbv iota.
  replace (n <? e) with false by (symmetry; apply Z.ltb_ge; lia).
  rewrite Z.max_id. rewrite Z.min_r by lia.
  replace (e <? 0) with false by (symmetry; apply Z.ltb_ge; lia).
  simpl Z.to_nat. simpl Bytes.drop. fold n.
  replace (e + 1 <=? n + Bytes.len spare) with true
    by (symmetry; apply Z.leb_le; lia).
  rewrite Z.sub_0_r. do 2 f_equal.
  clear -He. subst n. unfold Bytes.len in He.
  assert (Hn : (Z.to_nat (e + 1) <= String.length v)%nat) by lia.
  generalize dependent (Z.to_nat (e + 1)). clear He. intros k.
  revert v. induction k as [|k IH]; intros [|c v] Hk; simpl in *;
    try reflexivity; [lia|].
  f_equal. apply IH. lia.
Qed.

(** ** The scan loop of ZRANGE and ZREVRANGE *)

(** A loop state that a step maps to itself is never left. *)
Lemma range_loop_stuck (step : RangeState → M LoopStep) (s : RangeState)
    (txn : Transaction) :
  step s txn = (Ok (Again s), txn) →
  ∀ fuel, range_loop fuel step s txn = None.
Proof.
  intros Hstep fuel. induction fuel as [|fuel IH]; simpl; [reflexivity|].
  rewrite Hstep. exact IH.
Qed.

Lemma short_key_iter :
  txn_Iter (ZSetScorePrefix Sample.db0 Sample.id0) None Sample.short_key_txn
  = (Ok [(Sample.short_key, "")],
     record (OpIter (ZSetScorePrefix Sample.db0 Sample.id0) None)
       (kv Sample.short_key_txn) Sample.short_key_txn).
Proof. vm_compute. reflexivity. Qed.

Lemma range_step_short_key (FormatFloat : float64 → string) (start stop : Z)
    (withScore positiveOrder : bool) (items : list string)
    (txn : Transaction) :
  start <= 0 → 0 <= stop →
  let s := {| rs_i := 0; rs_iter := [(Sample.short_key, "")];
              rs_items := items |} in
  range_step FormatFloat start stop withScore positiveOrder
    (ZSetScorePrefix Sample.db0 Sample.id0) s txn = (Ok (Again s), txn).
Proof.
  intros Hstart Hstop s. unfold range_step. cbn [rs_iter rs_i s].
  replace (0 <=? stop) with true by (symmetry; apply Z.leb_le; lia).
  replace (start <=? 0) with true by (symmetry; apply Z.leb_le; lia).
  replace (Bytes.has_prefix Sample.short_key
             (ZSetScorePrefix Sample.db0 Sample.id0)) with true
    by (vm_compute; reflexivity).
  replace (Bytes.len Sample.short_key
           <? Bytes.len (ZSetScorePrefix Sample.db0 Sample.id0) + 1 + 8 + 1)
    with true by (vm_compute; reflexivity).
  reflexivity.
Qed.

(** C10. With one entry under the score prefix that is too short to decode,
    the scan loop of [ZAnyOrderRange] does not terminate: the [continue] of
    the length check returns to the loop condition without advancing [i] or
    the iterator, so no amount of fuel lets the call return. *)
Theorem ZAnyOrderRange_spins_on_short_key :
  ∀ (FormatFloat : float64 → string) (withScore positiveOrder : bool)
    (fuel : nat),
    ZAnyOrderRange FormatFloat fuel (Sample.zset0 1 0) 0 0 withScore
      positiveOrder Sample.short_key_txn = None.
Proof.
  intros FormatFloat withScore positiveOrder fuel.
  unfold ZAnyOrderRange.
  change (db Sample.short_key_txn) with Sample.db0.
  change (ID (ZObj (meta (Sample.zset0 1 0)))) with Sample.id0.
  change (Len (meta (Sample.zset0 1 0))) with 1.
  rewrite short_key_iter. cbv beta zeta.
  change (0 <? 0) with false. change (1 <=? 0) with false.
  cbv beta iota zeta delta [andb orb].
  rewrite range_loop_stuck; [reflexivity|].
  apply range_step_short_key; destruct positiveOrder; vm_compute; congruence.
Qed.
Lemma length_drop (n : nat) (s : string) :
  String.length (Bytes.drop n s) = (String.length s - n)%nat.
Proof.
  revert s; induction n as [|n IH]; intros [|c s]; simpl; try reflexivity.
  apply IH.
Qed.

(** When every entry under the score prefix is long enough to hold a score and
    a member, the scan loop is left after at most one evaluation of its
    condition per entry, and one more. *)
Lemma range_loop_terminates (FormatFloat : float64 → string) (start stop : Z)
    (withScore positiveOrder : bool) (scorePrefix : string) (it : Iterator) :
  (∀ e, e ∈ it → Bytes.has_prefix e.1 scorePrefix = true →
        Bytes.len scorePrefix + 1 + 8 + 1 <= Bytes.len e.1) →
  ∀ i items txn,
    is_Some (range_loop (S (length it))
               (range_step FormatFloat start stop withScore positiveOrder
                  scorePrefix)
               {| rs_i := i; rs_iter := it; rs_items := items |} txn).
Proof.
  induction it as [|[k v] rest IH]; intros Hlong i items txn.
  - simpl. eauto.
  - assert (Hrest : ∀ e, e ∈ rest → Bytes.has_prefix e.1 scorePrefix = true →
                         Bytes.len scorePrefix + 1 + 8 + 1 <= Bytes.len e.1).
    { intros e He. apply Hlong. now right. }
    specialize (IH Hrest).
    cbn [length range_loop]. unfold range_step at 1. cbn [rs_iter rs_i rs_items].
    destruct ((i <=? stop) && Bytes.has_prefix k scorePrefix) eqn:Hc;
      cbn [negb]; [|unfold ret; eauto].
    apply andb_true_iff in Hc as [_ Hp].
    pose proof (Hlong (k, v) ltac:(left) Hp) as Hk. cbn [fst] in Hk.
    assert (Hafter : ∀ its txn0,
      is_Some (match
        (let (r, txn') := iter_Next ((k, v) :: rest) txn0 in
         match r with
         | Ok it' => (Ok (Again {| rs_i := wrap64 (i + 1); rs_iter := it';
                                  rs_items := its |}), txn')
         | Err _ => (Ok (Exit its), txn')
         end) with
        | (Ok (Again s'), txn') =>
            range_loop (S (length rest))
              (range_step FormatFloat start stop withScore positiveOrder
                 scorePrefix) s' txn'
        | (Ok (Exit its'), txn') => Some (Ok its', txn')
        | (Err e, txn') => Some (Err e, txn')
        end)).
    { intros its txn0. unfold iter_Next. cbn [fst].
      destruct (fault txn0 (OpNext k)); [eauto | apply IH]. }
    destruct (start <=? i).
    + replace (Bytes.len k <? Bytes.len scorePrefix + 1 + 8 + 1) with false
        by (symmetry; apply Z.ltb_ge; lia).
      destruct withScore.
      * destruct (DecodeFloat64 _) as [f|] eqn:Hd.
        -- apply Hafter.
        -- exfalso. unfold DecodeFloat64 in Hd.
           destruct (Z.ltb_spec (Bytes.len (Bytes.take 8
             (Bytes.drop (Z.to_nat (Bytes.len scorePrefix + 1)) k))) 8)
             as [Hl|Hl]; [|discriminate].
           unfold Bytes.len in Hl, Hk. rewrite length_take, length_drop in Hl.
           lia.
      * apply Hafter.
    + apply Hafter.
Qed.

(** ** Strings *)

(** C9. When the stored meta of a string has [0 < expire_at < now] at the
    time [decode] reads the clock, [GetString] succeeds with an object that
    has no value: [Exist] is false, [Get] returns the key-not-found error, and
    the transaction has performed the one read and no write. *)
Theorem GetString_expired_is_absent (txn : Transaction) (key b : string)
    (obj : Object) (now timestamp : Z) :
  fault txn (OpGet (MetaKey (db txn) key)) = false →
  kv txn !! MetaKey (db txn) key = Some b →
  DecodeObject b = Ok obj →
  0 < ExpireAt obj < timestamp →
  ∃ str txn',
    GetString key now timestamp txn = (Ok str, txn')
    ∧ Value (Meta str) = None
    ∧ Exist str = false
    ∧ Get str = Err ErrKeyNotFound
    ∧ kv txn' = kv txn
    ∧ trace txn' = trace txn ++ [OpGet (MetaKey (db txn) key)].
Proof.
  intros Hf Hkv Hdec [Hpos Hlt].
  unfold GetString, bind, get_db, txn_Get. rewrite Hf, Hkv.
  unfold decode. rewrite Hdec.
  replace (ExpireAt obj =? 0) with false by (symmetry; apply Z.eqb_neq; lia).
  replace (ExpireAt obj <? timestamp) with true
    by (symmetry; apply Z.ltb_lt; lia).
  cbn. eexists _, _. repeat split.
Qed.

Lemma GetString_expired_is_absent_witness :
  ∃ str txn',
    GetString "s" 150 200 Sample.expiring_txn = (Ok str, txn')
    ∧ Value (Meta str) = None
    ∧ Exist str = false
    ∧ Get str = Err ErrKeyNotFound
    ∧ kv txn' = kv Sample.expiring_txn
    ∧ trace txn' = trace Sample.expiring_txn
                   ++ [OpGet (MetaKey (db Sample.expiring_txn) "s")].
Proof.
  apply (GetString_expired_is_absent Sample.expiring_txn "s"
           Sample.expiring_meta Sample.expiring_obj 150 200).
  - reflexivity.
  - vm_compute. reflexivity.
  - vm_compute. reflexivity.
  - vm_compute. split; reflexivity.
Defined.

(** Before the expiry the same read yields the value. *)
Example GetString_live :
  ∃ str txn', GetString "s" 60 70 Sample.expiring_txn = (Ok str, txn')
              ∧ Get str = Ok (Some "v").
Proof. eexists _, _. split; vm_compute; reflexivity. Qed.

(** An expire key is longer than the meta key it indexes. *)
Lemma expireKey_neq_mkey (mkey : string) (ts : Z) : expireKey mkey ts ≠ mkey.
Proof.
  intros H. apply (f_equal String.length) in H. revert H.
  unfold expireKey, EncodeInt64, Bytes.sprintf_04d.
  rewrite !length_app, length_be_bytes. simpl. lia.
Qed.

(** [Set] without an expiry, the sibling of [Append] that clears [expire_at]:
    the entry of the expire index that belonged to the old expiry is deleted
    in the same transaction. *)
Lemma Set_clears_expire_entry (s : String_) (val : option string)
    (timestamp : Z) (txn : Transaction) :
  fault txn = no_fault →
  ∃ s' txn',
    Set_ s val [] timestamp txn = (Ok s', txn')
    ∧ ExpireAt (Obj (Meta s')) = 0
    ∧ (ExpireAt (Obj (Meta s)) ≠ 0 →
       kv txn' !! expireKey (MetaKey (db txn) (key s))
                    (ExpireAt (Obj (Meta s))) = None).
Proof.
  intros Hf. unfold Set_, bind, get_db, ignore_error, unExpireAt, ret.
  destruct (Z.eqb_spec (ExpireAt (Obj (Meta s))) 0) as [Hz|Hnz].
  - unfold txn_Set. cbn. rewrite ?Hf. cbn. eexists _, _.
    split; [reflexivity|]. split; [reflexivity|]. intros Hn. contradiction.
  - unfold txn_Delete, txn_Set. cbn. rewrite ?Hf. cbn. rewrite ?Hf. cbn.
    eexists _, _. split; [reflexivity|]. split; [reflexivity|]. intros _.
    cbn [kv record].
    rewrite lookup_insert_ne by (apply not_eq_sym, expireKey_neq_mkey).
    apply lookup_delete_eq.
Qed.

(** [Append] writes the meta key and nothing else. *)
Lemma Append_only_sets_meta (s : String_) (value : string)
    (txn : Transaction) :
  fault txn = no_fault →
  ∃ s' n,
    Append s value txn
    = (Ok (s', n),
       record (OpSet (MetaKey (db txn) (key s)) (encode s'))
         (<[MetaKey (db txn) (key s) := encode s']> (kv txn)) txn)
    ∧ ExpireAt (Obj (Meta s')) = 0.
Proof.
  intros Hf. unfold Append, bind, get_db, txn_Set, ret. rewrite Hf. cbn.
  eexists _, _. split; reflexivity.
Qed.

(** C4. A string that expires at 100 is stored by [Set] with its entry in the
    expire index. [Append] then clears [expire_at] in the meta and leaves that
    entry in the store: the only operation it performs is the write of the
    meta key. *)
Theorem Append_leaves_expire_entry :
  let mkey := MetaKey Sample.db0 "s" in
  ∃ s1 txn1 s2 n txn2,
    Set_ (NewString "s" 50 Sample.id0) (Some "v") [50] 50
      (new_txn Sample.db0 ∅) = (Ok s1, txn1)
    ∧ ExpireAt (Obj (Meta s1)) = 100
    ∧ kv txn1 !! expireKey mkey 100 = Some Sample.id0
    ∧ Append s1 "x" txn1 = (Ok (s2, n), txn2)
    ∧ ExpireAt (Obj (Meta s2)) = 0
    ∧ kv txn2 !! mkey = Some (encode s2)
    ∧ kv txn2 !! expireKey mkey 100 = Some Sample.id0
    ∧ trace txn2 = trace txn1 ++ [OpSet mkey (encode s2)].
Proof.
  eexists _, _, _, _, _.
  split; [vm_compute; reflexivity|].
  split; [vm_compute; reflexivity|].
  split; [vm_compute; reflexivity|].
  split; [vm_compute; reflexivity|].
  split; [vm_compute; reflexivity|].
  split; [vm_compute; reflexivity|].
  split; [vm_compute; reflexivity|].
  vm_compute. reflexivity.
Qed.

(** ** A small logic of traces *)

Section Performs.

Context {A B : Type} (d : DB) (P : KvOp → Prop).

Lemma performs_ret (a : A) : performs d P (ret a).
Proof.
  intros txn Hd. cbn. repeat split; [exact Hd|].
  exists []. now rewrite app_nil_r.
Qed.

Lemma performs_fail (e : error) : performs d P (@fail A e).
Proof.
  intros txn Hd. cbn. repeat split; [exact Hd|].
  exists []. now rewrite app_nil_r.
Qed.

Lemma performs_bind (c : M A) (k : A → M B) :
  performs d P c → (∀ a, performs d P (k a)) → performs d P (bind c k).
Proof.
  intros Hc Hk txn Hd. unfold bind.
  destruct (Hc txn Hd) as (Hd1 & Hf1 & ops1 & Ht1 & HP1).
  destruct (c txn) as [[a|e] txn1]; cbn in *.
  - destruct (Hk a txn1 Hd1) as (Hd2 & Hf2 & ops2 & Ht2 & HP2).
    repeat split; [exact Hd2 | congruence |].
    exists (ops1 ++ ops2). split.
    + now rewrite Ht2, Ht1, app_assoc.
    + now apply Forall_app.
  - repeat split; [exact Hd1 | exact Hf1 |]. now exists ops1.
Qed.

Lemma performs_get_db (k : DB → M B) :
  performs d P (k d) → performs d P (bind get_db k).
Proof. intros Hk txn Hd. unfold bind, get_db. rewrite Hd. now apply Hk. Qed.

Lemma performs_ignore_error (c : M A) :
  performs d P c → performs d P (ignore_error c).
Proof. intros Hc txn Hd. exact (Hc txn Hd). Qed.

End Performs.

Section PerformsOps.

Context (d : DB) (P : KvOp → Prop).

Local Ltac one_op op :=
  let txn := fresh "txn" in
  let Hd := fresh "Hd" in
  intros txn Hd;
  match goal with
  | |- context [fault txn ?o] => destruct (fault txn o)
  end; cbn;
  (repeat split; [exact Hd|]);
  [ exists []; now rewrite app_nil_r
  | exists [op]; split; [reflexivity | now constructor] ].

Lemma performs_Get (k : string) : P (OpGet k) → performs d P (txn_Get k).
Proof. intros HP. unfold txn_Get. one_op (OpGet k). Qed.

Lemma performs_Set (k v : string) :
  P (OpSet k v) → performs d P (txn_Set k v).
Proof. intros HP. unfold txn_Set. one_op (OpSet k v). Qed.

Lemma performs_Delete (k : string) :
  P (OpDelete k) → performs d P (txn_Delete k).
Proof. intros HP. unfold txn_Delete. one_op (OpDelete k). Qed.

Lemma performs_BatchGet (ks : list string) :
  P (OpBatchGet ks) → performs d P (BatchGetValues ks).
Proof. intros HP. unfold BatchGetValues. one_op (OpBatchGet ks). Qed.

Lemma performs_gc (p : string) : P (OpGc p) → performs d P (gc p).
Proof. intros HP. unfold gc. one_op (OpGc p). Qed.

Lemma performs_Iter (start : string) (upper : option string) :
  P (OpIter start upper) → performs d P (txn_Iter start upper).
Proof. intros HP. unfold txn_Iter. one_op (OpIter start upper). Qed.

Lemma performs_Next (it : Iterator) :
  (∀ e, e ∈ it → P (OpNext e.1)) → performs d P (iter_Next it).
Proof.
  intros HP. destruct it as [|e rest]; [apply performs_ret|].
  assert (He : P (OpNext e.1)) by (apply HP; now left).
  unfold iter_Next. one_op (OpNext e.1).
Qed.

End PerformsOps.

Lemma performs_mono {A} (d : DB) (P Q : KvOp → Prop) (c : M A) :
  (∀ op, P op → Q op) → performs d P c → performs d Q c.
Proof.
  intros HPQ Hc txn Hd.
  destruct (Hc txn Hd) as (Hd1 & Hf1 & ops & Ht & HP).
  repeat split; [exact Hd1 | exact Hf1 |].
  exists ops. split; [exact Ht|]. eapply Forall_impl; eauto.
Qed.

Lemma performs_ZRem_loop (d : DB) (dkey scorePrefix : string)
    (members : list string) :
  ∀ scores deleted,
    performs d any_op (ZRem_loop dkey scorePrefix members scores deleted).
Proof.
  induction members as [|m members IH]; intros scores deleted; cbn.
  - apply performs_ret.
  - destruct scores as [|[sc|] scores].
    + apply performs_fail.
    + apply performs_bind; [now apply performs_Delete|]. intros _.
      apply performs_bind; [now apply performs_Delete|]. intros _.
      apply IH.
    + apply IH.
Qed.

Lemma performs_MGet (d : DB) (zset : ZSet) (members : list string) :
  performs d any_op (MGet zset members).
Proof.
  unfold MGet. apply performs_get_db. now apply performs_BatchGet.
Qed.

(** ** ZREM *)

(** C3. When [ZRem] returns without error and leaves [meta.len = 0], the
    transaction has deleted the meta key, and, if [expire_at > 0], the entry
    of the expire index as well: neither is in the view of the transaction
    afterwards, and both deletions are in its trace. *)
Theorem ZRem_empty_deletes_meta (zset zset' : ZSet) (members : list string)
    (deleted : Z) (txn txn' : Transaction) :
  ZRem zset members txn = (Ok (deleted, zset'), txn') →
  Len (meta zset') = 0 →
  let mkey := MetaKey (db txn) (zkey zset) in
  let at_ := ExpireAt (ZObj (meta zset)) in
  kv txn' !! mkey = None
  ∧ OpDelete mkey ∈ trace txn'
  ∧ (0 < at_ →
     kv txn' !! expireKey mkey at_ = None
     ∧ OpDelete (expireKey mkey at_) ∈ trace txn').
Proof.
  intros Hrem Hlen mkey at_. unfold ZRem in Hrem.
  unfold bind at 1 in Hrem.
  destruct (performs_MGet (db txn) zset members txn eq_refl)
    as (Hd1 & _ & _).
  destruct (MGet zset members txn) as [[scores|e] txn1]; [|discriminate].
  cbn [snd] in Hd1.
  unfold bind at 1, get_db at 1 in Hrem. unfold bind at 1 in Hrem.
  rewrite Hd1 in Hrem.
  destruct (performs_ZRem_loop (db txn)
              (DataKey (db txn) (ID (ZObj (meta zset))))
              (ZSetScorePrefix (db txn) (ID (ZObj (meta zset))))
              members scores 0 txn1 Hd1) as (Hd2 & _ & _).
  destruct (ZRem_loop _ _ members scores 0 txn1) as [[n|e] txn2];
    [|discriminate].
  cbn [snd] in Hd2. cbn [with_Len meta Len ZObj zkey] in Hrem.
  destruct (Z.eqb_spec (wrap64 (Len (meta zset) - n)) 0) as [Hz|Hnz].
  - fold mkey in Hrem. fold at_ in Hrem.
    unfold bind, txn_Delete in Hrem.
    destruct (fault txn2 (OpDelete mkey)); [discriminate|].
    destruct (Z.ltb_spec 0 at_) as [Hpos|Hnpos].
    + unfold unExpireAt in Hrem.
      replace (at_ =? 0) with false in Hrem
        by (symmetry; apply Z.eqb_neq; lia).
      unfold txn_Delete in Hrem. cbn [fault record] in Hrem.
      destruct (fault txn2 (OpDelete (expireKey mkey at_)));
        [discriminate|].
      cbn in Hrem. injection Hrem as _ _ <-. cbn [kv trace record].
      split; [|split; [|intros _; split]].
      * rewrite lookup_delete_ne by apply expireKey_neq_mkey.
        apply lookup_delete_eq.
      * rewrite !elem_of_app, !list_elem_of_singleton. auto.
      * apply lookup_delete_eq.
      * rewrite !elem_of_app, !list_elem_of_singleton. auto.
    + cbn in Hrem. injection Hrem as _ _ <-. cbn [kv trace record].
      split; [|split; [|intros H; lia]].
      * apply lookup_delete_eq.
      * rewrite !elem_of_app, !list_elem_of_singleton. auto.
  - unfold bind, updateMeta, get_db, txn_Set in Hrem. cbn in Hrem.
    destruct (fault txn2 _); [discriminate|].
    cbn in Hrem. injection Hrem as _ <- _. cbn in Hlen. contradiction.
Qed.

Lemma ZRem_empty_deletes_meta_witness :
  let txn := Sample.zset1_txn in
  let txn' := snd (ZRem Sample.zset1 ["a"] txn) in
  let mkey := MetaKey (db txn) (zkey Sample.zset1) in
  kv txn !! mkey = Some (encodeMeta (meta Sample.zset1))
  ∧ kv txn' !! mkey = None
  ∧ OpDelete mkey ∈ trace txn'
  ∧ (0 < 100 →
     kv txn' !! expireKey mkey 100 = None
     ∧ OpDelete (expireKey mkey 100) ∈ trace txn').
Proof.
  split; [vm_compute; reflexivity|].
  apply (ZRem_empty_deletes_meta Sample.zset1 (Sample.zset0 0 100) ["a"] 1
           Sample.zset1_txn (snd (ZRem Sample.zset1 ["a"] Sample.zset1_txn))).
  - vm_compute. reflexivity.
  - reflexivity.
Defined.

(** ** The three keyspaces of a database do not overlap *)

Lemma tagged_neq (d : DB) (c1 c2 : ascii) (x y : string) :
  c1 ≠ c2 →
  Namespace d +:+ ":" +:+ DBID_Bytes (DB_ID d) +:+ String ":" (String c1 x)
  ≠ Namespace d +:+ ":" +:+ DBID_Bytes (DB_ID d) +:+ String ":" (String c2 y).
Proof.
  intros Hne H. apply String.app_inj in H. simpl in H.
  injection H as H. congruence.
Qed.

Lemma memberKey_neq_MetaKey (d : DB) (id m K : string) :
  zsetMemberKey (DataKey d id) m ≠ MetaKey d K.
Proof.
  unfold zsetMemberKey, DataKey, toTikvDataKey, MetaKey.
  rewrite !app_assoc'. apply tagged_neq. discriminate.
Qed.

Lemma memberKey_neq_scoreKey (d : DB) (id m id' sc m' : string) :
  zsetMemberKey (DataKey d id) m ≠ zsetScoreKey (ZSetScorePrefix d id') sc m'.
Proof.
  unfold zsetMemberKey, DataKey, toTikvDataKey, zsetScoreKey, ZSetScorePrefix.
  rewrite !app_assoc'. apply tagged_neq. discriminate.
Qed.

Lemma scoreKey_neq_MetaKey (d : DB) (id sc m K : string) :
  zsetScoreKey (ZSetScorePrefix d id) sc m ≠ MetaKey d K.
Proof.
  unfold zsetScoreKey, ZSetScorePrefix, MetaKey.
  rewrite !app_assoc'. apply tagged_neq. discriminate.
Qed.

(** ** ZADD of one member *)

Lemma Float64_eqb_refl (x : float64) :
  Float64.is_nan x = false → Float64.eqb x x = true.
Proof.
  intros Hn. unfold Float64.eqb. rewrite Hn. simpl. now rewrite Z.eqb_refl.
Qed.

Lemma finite_not_nan (x : float64) :
  Float64.is_finite x = true → Float64.is_nan x = false.
Proof.
  unfold Float64.is_finite, Float64.is_nan. rewrite Z.ltb_lt, Z.ltb_ge. lia.
Qed.

(** Run a computation on a transaction that raises no error. *)
Ltac run_txn Hf :=
  repeat (progress (unfold bind, get_db, txn_Set, txn_Delete, txn_Get,
                      BatchGetValues, updateMeta, MGet, ret, fail;
                    cbn; rewrite ?Hf));
  change (wrap64 1) with 1 in *.

Section ZAddOne.

Variables (zset : ZSet) (m : string) (s : float64) (txn : Transaction).
Hypothesis Hfault : fault txn = no_fault.

Let d := db txn.
Let oid := ID (ZObj (meta zset)).
Let mk := zsetMemberKey (DataKey d oid) m.
Let mkey := MetaKey d (zkey zset).
Let sk (score : string) := zsetScoreKey (ZSetScorePrefix d oid) score m.

(** The member is not seen: the set is recorded as empty, or the member key
    is absent. Both keys are written and the length grows by one. *)
Lemma ZAdd_one_absent :
  Len (meta zset) <= 0 ∨ kv txn !! mk = None →
  ∃ txn',
    let z' := with_Len (wrap64 (Len (meta zset) + 1)) zset in
    ZAdd zset [m] [s] txn = (Ok (1, z'), txn')
    ∧ db txn' = d ∧ fault txn' = no_fault
    ∧ kv txn' = <[mkey := encodeMeta (meta z')]>
                  (<[sk (EncodeFloat64 s) := NilValue]>
                     (<[mk := EncodeFloat64 s]> (kv txn))).
Proof.
  intros Habs. unfold ZAdd.
  destruct (Z.ltb_spec 0 (Len (meta zset))) as [Hpos|Hnpos].
  - destruct Habs as [Hle|Hnone]; [lia|].
    unfold MGet, BatchGetValues, bind at 1 2, get_db at 1.
    rewrite Hfault. cbn. fold d oid mk. rewrite Hnone.
    run_txn Hfault.
    eexists. repeat split; try reflexivity. exact Hfault.
  - run_txn Hfault.
    eexists. repeat split; try reflexivity. exact Hfault.
Qed.

Variables (v : string) (x : float64).
Hypothesis Hlen : 0 < Len (meta zset).
Hypothesis Hold : kv txn !! mk = Some v.
Hypothesis Hdec : DecodeFloat64 v = Some x.

(** The member is there with an equal score: only the meta is rewritten. *)
Lemma ZAdd_one_same :
  Float64.eqb s x = true →
  ∃ txn',
    let z' := with_Len (wrap64 (Len (meta zset) + 0)) zset in
    ZAdd zset [m] [s] txn = (Ok (0, z'), txn')
    ∧ db txn' = d ∧ fault txn' = no_fault
    ∧ kv txn' = <[mkey := encodeMeta (meta z')]> (kv txn).
Proof.
  intros Heq. unfold ZAdd.
  replace (0 <? Len (meta zset)) with true by (symmetry; now apply Z.ltb_lt).
  unfold MGet, BatchGetValues, bind at 1 2, get_db at 1.
  rewrite Hfault. cbn. fold d oid mk. rewrite Hold. cbn.
  rewrite Hdec, Heq. run_txn Hfault.
  eexists. repeat split; try reflexivity. exact Hfault.
Qed.

(** The member is there with a different score: the old score key is
    deleted, the member key and the new score key are written, and nothing
    is counted as added. *)
Lemma ZAdd_one_changed :
  Float64.eqb s x = false →
  ∃ txn',
    let z' := with_Len (wrap64 (Len (meta zset) + 0)) zset in
    ZAdd zset [m] [s] txn = (Ok (0, z'), txn')
    ∧ db txn' = d ∧ fault txn' = no_fault
    ∧ kv txn' = <[mkey := encodeMeta (meta z')]>
                  (<[sk (EncodeFloat64 s) := NilValue]>
                     (<[mk := EncodeFloat64 s]> (delete (sk v) (kv txn))))
    ∧ trace txn' = trace txn
                   ++ [OpBatchGet [mk]; OpDelete (sk v);
                       OpSet mk (EncodeFloat64 s);
                       OpSet (sk (EncodeFloat64 s)) NilValue;
                       OpSet mkey (encodeMeta (meta z'))].
Proof.
  intros Hneq. unfold ZAdd.
  replace (0 <? Len (meta zset)) with true by (symmetry; now apply Z.ltb_lt).
  unfold MGet, BatchGetValues, bind at 1 2, get_db at 1.
  rewrite Hfault. cbn. fold d oid mk. rewrite Hold. cbn.
  rewrite Hdec, Hneq. run_txn Hfault.
  eexists. repeat split; try reflexivity; try exact Hfault.
  cbn [trace record]. rewrite <- !app_assoc. reflexivity.
Qed.

End ZAddOne.

(** After [ZADD] of one member the member key holds a score equal to the one
    given, and the set is recorded as non-empty. *)
Lemma ZAdd_one_stores (zset : ZSet) (m : string) (s : float64)
    (txn : Transaction) :
  let mk := zsetMemberKey (DataKey (db txn) (ID (ZObj (meta zset)))) m in
  fault txn = no_fault →
  0 <= Len (meta zset) < two63 - 1 →
  is_float64 s → Float64.is_finite s = true →
  (∀ v, kv txn !! mk = Some v → is_Some (DecodeFloat64 v)) →
  ∃ n z' txn' v x,
    ZAdd zset [m] [s] txn = (Ok (n, z'), txn')
    ∧ db txn' = db txn ∧ fault txn' = no_fault
    ∧ ZObj (meta z') = ZObj (meta zset) ∧ zkey z' = zkey zset
    ∧ 0 < Len (meta z')
    ∧ kv txn' !! mk = Some v ∧ DecodeFloat64 v = Some x
    ∧ Float64.eqb s x = true.
Proof.
  intros mk Hf Hlen Hs Hfin Hwf.
  assert (Hrange : in_int64 (Len (meta zset) + 1)
                   ∧ in_int64 (Len (meta zset) + 0)).
  { unfold in_int64, two63 in *. lia. }
  destruct Hrange as [Hr1 Hr0].
  assert (Habsent :
    Len (meta zset) <= 0 ∨ kv txn !! mk = None →
    ∃ n z' txn' v x,
      ZAdd zset [m] [s] txn = (Ok (n, z'), txn')
      ∧ db txn' = db txn ∧ fault txn' = no_fault
      ∧ ZObj (meta z') = ZObj (meta zset) ∧ zkey z' = zkey zset
      ∧ 0 < Len (meta z')
      ∧ kv txn' !! mk = Some v ∧ DecodeFloat64 v = Some x
      ∧ Float64.eqb s x = true).
  { intros Habs.
    destruct (ZAdd_one_absent zset m s txn Hf Habs)
      as (txn' & Hrun & Hd & Hf' & Hkv).
    exists 1, (with_Len (wrap64 (Len (meta zset) + 1)) zset), txn',
      (EncodeFloat64 s), s.
    repeat split; try assumption; try reflexivity.
    - cbn. rewrite wrap64_id by exact Hr1. lia.
    - rewrite Hkv.
      rewrite lookup_insert_ne
        by (apply not_eq_sym, memberKey_neq_MetaKey).
      rewrite lookup_insert_ne
        by (apply not_eq_sym, memberKey_neq_scoreKey).
      apply lookup_insert_eq.
    - now apply DecodeFloat64_EncodeFloat64.
    - now apply Float64_eqb_refl, finite_not_nan. }
  destruct (Z.le_gt_cases (Len (meta zset)) 0) as [Hle|Hpos];
    [apply Habsent; now left|].
  destruct (kv txn !! mk) as [v|] eqn:Hold; [|apply Habsent; now right].
  destruct (Hwf v eq_refl) as [x Hdec].
  destruct (Float64.eqb s x) eqn:Heq.
  - destruct (ZAdd_one_same zset m s txn Hf v x ltac:(lia) Hold Hdec Heq)
      as (txn' & Hrun & Hd & Hf' & Hkv).
    exists 0, (with_Len (wrap64 (Len (meta zset) + 0)) zset), txn', v, x.
    repeat split; try assumption; try reflexivity.
    + cbn. rewrite wrap64_id by exact Hr0. lia.
    + rewrite Hkv.
      rewrite lookup_insert_ne
        by (apply not_eq_sym, memberKey_neq_MetaKey).
      exact Hold.
  - destruct (ZAdd_one_changed zset m s txn Hf v x ltac:(lia) Hold Hdec Heq)
      as (txn' & Hrun & Hd & Hf' & Hkv & _).
    exists 0, (with_Len (wrap64 (Len (meta zset) + 0)) zset), txn',
      (EncodeFloat64 s), s.
    repeat split; try assumption; try reflexivity.
    + cbn. rewrite wrap64_id by exact Hr0. lia.
    + rewrite Hkv.
      rewrite lookup_insert_ne
        by (apply not_eq_sym, memberKey_neq_MetaKey).
      rewrite lookup_insert_ne
        by (apply not_eq_sym, memberKey_neq_scoreKey).
      apply lookup_insert_eq.
    + now apply DecodeFloat64_EncodeFloat64.
    + now apply Float64_eqb_refl, finite_not_nan.
Qed.

Lemma ZScore_reads_member (FormatFloat : float64 → string) (zset : ZSet)
    (m v : string) (x : float64) (txn : Transaction) :
  fault txn = no_fault →
  kv txn !! zsetMemberKey (DataKey (db txn) (ID (ZObj (meta zset)))) m
    = Some v →
  DecodeFloat64 v = Some x →
  fst (ZScore FormatFloat zset m txn) = Ok (Some (FormatFloat x)).
Proof.
  intros Hf Hkv Hdec. unfold ZScore, bind, get_db, txn_Get.
  rewrite Hf. cbn. rewrite Hkv, Hdec. reflexivity.
Qed.

(** ** ZADD, ZADD, ZSCORE *)

(** C5. For finite scores [s] and [s'], [ZADD k s m] followed by
    [ZADD k s' m] succeeds; the second call adds nothing and leaves
    [meta.len] as it is; when the score then stored differs from [s'], the
    second call deletes the old score key and writes the member key and the
    new score key; and [ZSCORE k m] then formats a score that is equal to
    [s'] as a float (the stored bits are those of [s'] unless the two scores
    are the two zeros, which compare equal). *)
Theorem ZAdd_ZAdd_ZScore (FormatFloat : float64 → string) (zset : ZSet)
    (m : string) (s s' : float64) (txn : Transaction) :
  let d := db txn in
  let oid := ID (ZObj (meta zset)) in
  let mk := zsetMemberKey (DataKey d oid) m in
  let sk (score : string) := zsetScoreKey (ZSetScorePrefix d oid) score m in
  fault txn = no_fault →
  0 <= Len (meta zset) < two63 - 1 →
  is_float64 s → Float64.is_finite s = true →
  is_float64 s' → Float64.is_finite s' = true →
  (∀ v, kv txn !! mk = Some v → is_Some (DecodeFloat64 v)) →
  ∃ n1 z1 txn1 v1 x1 z2 txn2 x,
    ZAdd zset [m] [s] txn = (Ok (n1, z1), txn1)
    ∧ kv txn1 !! mk = Some v1 ∧ DecodeFloat64 v1 = Some x1
    ∧ Float64.eqb s x1 = true
    ∧ ZAdd z1 [m] [s'] txn1 = (Ok (0, z2), txn2)
    ∧ Len (meta z2) = Len (meta z1)
    ∧ (Float64.eqb s' x1 = false →
       kv txn2 = <[MetaKey d (zkey zset) := encodeMeta (meta z2)]>
                   (<[sk (EncodeFloat64 s') := NilValue]>
                      (<[mk := EncodeFloat64 s']>
                         (delete (sk v1) (kv txn1))))
       ∧ x = s')
    ∧ fst (ZScore FormatFloat z2 m txn2) = Ok (Some (FormatFloat x))
    ∧ Float64.eqb s' x = true.
Proof.
  intros d oid mk sk Hf Hlen Hs Hfin Hs' Hfin' Hwf.
  destruct (ZAdd_one_stores zset m s txn Hf Hlen Hs Hfin Hwf)
    as (n1 & z1 & txn1 & v1 & x1 & Hrun1 & Hd1 & Hf1 & Hobj1 & Hkey1 & Hlen1
        & Hkv1 & Hdec1 & Heq1).
  fold d oid mk in Hkv1.
  assert (Hr : in_int64 (Len (meta z1) + 0)).
  { unfold ZAdd, bind in Hrun1.
    destruct (if 0 <? Len (meta zset) then _ else _) as [[ov|] t0];
      [|discriminate].
    destruct (get_db t0) as [[d0|] t1]; [|discriminate].
    destruct (ZAdd_loop _ _ _ _ _ _ _) as [[a|] t2]; [|discriminate].
    destruct (updateMeta _ _) as [[u|] t3]; [|discriminate].
    injection Hrun1 as _ <- _. cbn. rewrite Z.add_0_r. apply wrap64_range. }
  assert (Hmk1 : kv txn1 !! zsetMemberKey
                   (DataKey (db txn1) (ID (ZObj (meta z1)))) m = Some v1).
  { rewrite Hd1, Hobj1. exact Hkv1. }
  destruct (Float64.eqb s' x1) eqn:Heq2.
  - destruct (ZAdd_one_same z1 m s' txn1 Hf1 v1 x1 Hlen1 Hmk1 Hdec1 Heq2)
      as (txn2 & Hrun2 & Hd2 & Hf2 & Hkv2).
    exists n1, z1, txn1, v1, x1,
      (with_Len (wrap64 (Len (meta z1) + 0)) z1), txn2, x1.
    repeat split; try assumption; try congruence.
    + cbn. rewrite wrap64_id by exact Hr. lia.
    + apply (ZScore_reads_member FormatFloat _ m v1 x1 txn2 Hf2);
        [|exact Hdec1].
      cbn [with_Len meta ZObj]. rewrite Hd2, Hkv2.
      rewrite lookup_insert_ne
        by (apply not_eq_sym, memberKey_neq_MetaKey).
      exact Hmk1.
  - destruct (ZAdd_one_changed z1 m s' txn1 Hf1 v1 x1 Hlen1 Hmk1 Hdec1 Heq2)
      as (txn2 & Hrun2 & Hd2 & Hf2 & Hkv2 & _).
    exists n1, z1, txn1, v1, x1,
      (with_Len (wrap64 (Len (meta z1) + 0)) z1), txn2, s'.
    repeat split; try assumption.
    + cbn. rewrite wrap64_id by exact Hr. lia.
    + rewrite Hkv2. cbn [with_Len meta ZObj zkey]. unfold sk, mk, oid, d.
      now rewrite Hd1, Hobj1, Hkey1.
    + apply (ZScore_reads_member FormatFloat _ m (EncodeFloat64 s') s' txn2
               Hf2); [|now apply DecodeFloat64_EncodeFloat64].
      cbn [with_Len meta ZObj]. rewrite Hd2, Hkv2.
      rewrite lookup_insert_ne
        by (apply not_eq_sym, memberKey_neq_MetaKey).
      rewrite lookup_insert_ne
        by (apply not_eq_sym, memberKey_neq_scoreKey).
      apply lookup_insert_eq.
    + now apply Float64_eqb_refl, finite_not_nan.
Qed.

Lemma ZAdd_ZAdd_ZScore_witness :
  ∃ z1 txn1 z2 txn2 x,
    (∃ n1, ZAdd (Sample.zset0 0 0) ["a"] [Sample.f_one]
             (new_txn Sample.db0 ∅) = (Ok (n1, z1), txn1))
    ∧ ZAdd z1 ["a"] [Sample.f_two] txn1 = (Ok (0, z2), txn2)
    ∧ Len (meta z2) = Len (meta z1)
    ∧ fst (ZScore Sample.fmt z2 "a" txn2) = Ok (Some (Sample.fmt x))
    ∧ Float64.eqb Sample.f_two x = true.
Proof.
  destruct (ZAdd_ZAdd_ZScore Sample.fmt (Sample.zset0 0 0) "a" Sample.f_one
              Sample.f_two (new_txn Sample.db0 ∅))
    as (n1 & z1 & txn1 & v1 & x1 & z2 & txn2 & x & H1 & _ & _ & _ & H2 & H3
        & _ & H4 & H5).
  - reflexivity.
  - vm_compute. split; [discriminate | reflexivity].
  - vm_compute. split; [discriminate | reflexivity].
  - vm_compute. reflexivity.
  - vm_compute. split; [discriminate | reflexivity].
  - vm_compute. reflexivity.
  - intros v Hv. cbn [kv new_txn] in Hv. rewrite lookup_empty in Hv.
    discriminate.
  - exists z1, txn1, z2, txn2, x.
    exact (conj (ex_intro _ n1 H1) (conj H2 (conj H3 (conj H4 H5)))).
Defined.

(** Scenario S2 of the specification: [ZADD z 1 a 2 b], [ZADD z 5 a],
    [ZSCORE z a] reply 2, 0 and "5". *)
Example scenario_S2 :
  ∃ z1 txn1 z2 txn2,
    ZAdd (Sample.zset0 0 0) ["a"; "b"] [Sample.f_one; Sample.f_two]
      (new_txn Sample.db0 ∅) = (Ok (2, z1), txn1)
    ∧ ZAdd z1 ["a"] [Sample.f_five] txn1 = (Ok (0, z2), txn2)
    ∧ fst (ZScore Sample.fmt z2 "a" txn2) = Ok (Some "5").
Proof.
  eexists _, _, _, _.
  split; [vm_compute; reflexivity|].
  split; [vm_compute; reflexivity|].
  vm_compute. reflexivity.
Qed.

(** The two zeros compare equal: [ZADD k +0 m] followed by [ZADD k -0 m]
    writes nothing, and the stored bits stay those of [+0]. *)
Example zeros_compare_equal :
  ∃ z1 txn1 z2 txn2,
    ZAdd (Sample.zset0 0 0) ["a"] [Sample.f_pos_zero]
      (new_txn Sample.db0 ∅) = (Ok (1, z1), txn1)
    ∧ ZAdd z1 ["a"] [Sample.f_neg_zero] txn1 = (Ok (0, z2), txn2)
    ∧ fst (ZScore Sample.fmt z2 "a" txn2) = Ok (Some "0")
    ∧ Float64.eqb Sample.f_neg_zero Sample.f_pos_zero = true.
Proof.
  eexists _, _, _, _.
  split; [vm_compute; reflexivity|].
  split; [vm_compute; reflexivity|].
  split; [vm_compute; reflexivity|].
  vm_compute. reflexivity.
Qed.

(** ** The layout of the sorted-set operations *)

Section Layout.

Variables (d : DB) (zset : ZSet).
Let oid := ID (ZObj (meta zset)).
Let P := zset_op_layout d zset (ZSetScorePrefix d oid).

Lemma layout_meta (v : string) : P (OpSet (MetaKey d (zkey zset)) v).
Proof. cbn. now left. Qed.

Lemma layout_member_set (m v : string) :
  P (OpSet (zsetMemberKey (DataKey d oid) m) v).
Proof. cbn. right; left. now exists m. Qed.

Lemma layout_member_delete (m : string) :
  P (OpDelete (zsetMemberKey (DataKey d oid) m)).
Proof. cbn. right; left. now exists m. Qed.

Lemma layout_score_set (sc m v : string) :
  P (OpSet (zsetScoreKey (ZSetScorePrefix d oid) sc m) v).
Proof. cbn. do 3 right. now exists sc, m. Qed.

Lemma layout_score_delete (sc m : string) :
  P (OpDelete (zsetScoreKey (ZSetScorePrefix d oid) sc m)).
Proof. cbn. do 3 right. now exists sc, m. Qed.

Lemma layout_batch (members : list string) :
  P (OpBatchGet (map (zsetMemberKey (DataKey d oid)) members)).
Proof.
  cbn. intros k Hk. apply list_elem_of_fmap in Hk as (m & -> & _).
  now exists m.
Qed.

Lemma performs_MGet_layout (members : list string) :
  performs d P (MGet zset members).
Proof.
  unfold MGet. apply performs_get_db. apply performs_BatchGet.
  apply layout_batch.
Qed.

Lemma performs_updateMeta_layout (z' : ZSet) :
  zkey z' = zkey zset → performs d P (updateMeta z').
Proof.
  intros Hk. unfold updateMeta. apply performs_get_db. rewrite Hk.
  apply performs_Set, layout_meta.
Qed.

Lemma performs_ZAdd_loop_layout (members : list string) :
  ∀ scores oldValues added,
    performs d P
      (ZAdd_loop (DataKey d oid) (ZSetScorePrefix d oid) members scores
         oldValues added).
Proof.
  induction members as [|m members IH]; intros scores oldValues added;
    cbn [ZAdd_loop].
  - apply performs_ret.
  - destruct scores as [|s scores]; [apply performs_fail|].
    destruct oldValues as [|[oldv|] oldValues]; [apply performs_fail| |].
    + destruct (DecodeFloat64 oldv) as [oldScore|]; [|apply performs_fail].
      destruct (Float64.eqb s oldScore); [apply IH|].
      apply performs_bind;
        [apply performs_Delete, layout_score_delete|]. intros _.
      apply performs_bind; [apply performs_Set, layout_member_set|].
      intros _.
      apply performs_bind; [apply performs_Set, layout_score_set|].
      intros _. apply IH.
    + apply performs_bind; [apply performs_Set, layout_member_set|].
      intros _.
      apply performs_bind; [apply performs_Set, layout_score_set|].
      intros _. apply IH.
Qed.

Lemma performs_ZAdd_layout (members : list string) (scores : list float64) :
  performs d P (ZAdd zset members scores).
Proof.
  unfold ZAdd. apply performs_bind.
  - destruct (0 <? Len (meta zset));
      [apply performs_MGet_layout | apply performs_ret].
  - intros oldValues. apply performs_get_db. apply performs_bind.
    + apply performs_ZAdd_loop_layout.
    + intros added. apply performs_bind.
      * now apply performs_updateMeta_layout.
      * intros _. apply performs_ret.
Qed.

Lemma performs_ZRem_loop_layout (members : list string) :
  ∀ scores deleted,
    performs d P
      (ZRem_loop (DataKey d oid) (ZSetScorePrefix d oid) members scores
         deleted).
Proof.
  induction members as [|m members IH]; intros scores deleted;
    cbn [ZRem_loop].
  - apply performs_ret.
  - destruct scores as [|[sc|] scores]; [apply performs_fail| |apply IH].
    apply performs_bind; [apply performs_Delete, layout_score_delete|].
    intros _.
    apply performs_bind; [apply performs_Delete, layout_member_delete|].
    intros _. apply IH.
Qed.

Lemma performs_ZRem_layout (members : list string) :
  performs d P (ZRem zset members).
Proof.
  unfold ZRem. apply performs_bind; [apply performs_MGet_layout|].
  intros scores. apply performs_get_db. apply performs_bind.
  - apply performs_ZRem_loop_layout.
  - intros deleted. cbn [with_Len meta Len ZObj zkey].
    destruct (wrap64 (Len (meta zset) - deleted) =? 0).
    + apply performs_bind.
      { apply performs_Delete. cbn. now left. }
      intros _. apply performs_bind; [|intros _; apply performs_ret].
      destruct (0 <? ExpireAt (ZObj (meta zset))); [|apply performs_ret].
      unfold unExpireAt.
      destruct (ExpireAt (ZObj (meta zset)) =? 0); [apply performs_ret|].
      apply performs_Delete. cbn. right; right; left. eauto.
    + apply performs_bind; [|intros _; apply performs_ret].
      now apply performs_updateMeta_layout.
Qed.

(** The scan loop only advances over keys that carry the score prefix. *)
Lemma range_loop_layout (FormatFloat : float64 → string) (start stop : Z)
    (withScore positiveOrder : bool) (fuel : nat) :
  ∀ s txn r txn',
    db txn = d →
    range_loop fuel
      (range_step FormatFloat start stop withScore positiveOrder
         (ZSetScorePrefix d oid)) s txn = Some (r, txn') →
    trace_ext P txn txn'.
Proof.
  induction fuel as [|fuel IH]; intros s txn r txn' Hd Hrun;
    [discriminate|].
  assert (Hrefl : ∀ t, trace_ext P t t).
  { intros t. exists []. split; [now rewrite app_nil_r | constructor]. }
  cbn [range_loop] in Hrun. unfold range_step in Hrun at 1.
  destruct (rs_iter s) as [|[k v] rest] eqn:Hit.
  { cbn in Hrun. injection Hrun as _ <-. apply Hrefl. }
  destruct ((rs_i s <=? stop)
            && Bytes.has_prefix k (ZSetScorePrefix d oid)) eqn:Hc;
    cbn [negb] in Hrun;
    [|cbn in Hrun; injection Hrun as _ <-; apply Hrefl].
  apply andb_true_iff in Hc as [_ Hp].
  assert (Hafter : ∀ items,
    match
      (let (r0, t0) := iter_Next ((k, v) :: rest) txn in
       match r0 with
       | Ok it => (Ok (Again {| rs_i := wrap64 (rs_i s + 1);
                                rs_iter := it; rs_items := items |}), t0)
       | Err _ => (Ok (Exit items), t0)
       end) with
    | (Ok (Again s'), t1) =>
        range_loop fuel
          (range_step FormatFloat start stop withScore positiveOrder
             (ZSetScorePrefix d oid)) s' t1
    | (Ok (Exit items'), t1) => Some (Ok items', t1)
    | (Err e, t1) => Some (Err e, t1)
    end = Some (r, txn') → trace_ext P txn txn').
  { intros items Hr. unfold iter_Next in Hr. cbn [fst] in Hr.
    destruct (fault txn (OpNext k)).
    - injection Hr as _ <-. apply Hrefl.
    - apply IH in Hr; [|exact Hd].
      destruct Hr as (ops & Ht & HP). exists (OpNext k :: ops).
      split; [rewrite Ht; cbn; now rewrite <- app_assoc|].
      constructor; [exact Hp | exact HP]. }
  destruct (start <=? rs_i s).
  - destruct (Bytes.len k <? Bytes.len (ZSetScorePrefix d oid) + 1 + 8 + 1).
    + cbn in Hrun. now apply IH in Hrun.
    + destruct withScore.
      * destruct (DecodeFloat64 _) as [f|].
        -- now apply Hafter in Hrun.
        -- cbn in Hrun. injection Hrun as _ <-. apply Hrefl.
      * now apply Hafter in Hrun.
  - now apply Hafter in Hrun.
Qed.

End Layout.

Lemma trace_ext_refl (P : KvOp → Prop) (txn : Transaction) :
  trace_ext P txn txn.
Proof. exists []. split; [now rewrite app_nil_r | constructor]. Qed.

Lemma trace_ext_trans (P : KvOp → Prop) (t1 t2 t3 : Transaction) :
  trace_ext P t1 t2 → trace_ext P t2 t3 → trace_ext P t1 t3.
Proof.
  intros (o1 & H1 & F1) (o2 & H2 & F2). exists (o1 ++ o2). split.
  - now rewrite H2, H1, app_assoc.
  - now apply Forall_app.
Qed.

Lemma performs_trace_ext {A} (d : DB) (P : KvOp → Prop) (c : M A)
    (txn : Transaction) :
  performs d P c → db txn = d → trace_ext P txn (snd (c txn)).
Proof. intros Hc Hd. now destruct (Hc txn Hd) as (_ & _ & H). Qed.

(** C2, as the code has it. Every operation that ZADD, ZREM and
    ZRANGE/ZREVRANGE perform on the store touches the meta key, a member key,
    the expire index, or a score key built from the prefix [NS:D:S:ID] of the
    object id; the scan starts at that prefix and advances only over keys
    that carry it. *)
Theorem zset_score_index_keyed_by_object_id (FormatFloat : float64 → string)
    (zset : ZSet) (txn : Transaction) :
  let P := zset_op_layout (db txn) zset
             (ZSetScorePrefix (db txn) (ID (ZObj (meta zset)))) in
  (∀ members scores, trace_ext P txn (snd (ZAdd zset members scores txn)))
  ∧ (∀ members, trace_ext P txn (snd (ZRem zset members txn)))
  ∧ (∀ fuel start stop withScore positiveOrder,
       match ZAnyOrderRange FormatFloat fuel zset start stop withScore
               positiveOrder txn with
       | Some (_, txn') => trace_ext P txn txn'
       | None => True
       end).
Proof.
  intros P. split; [|split].
  - intros members scores.
    apply (performs_trace_ext (db txn)); [apply performs_ZAdd_layout | reflexivity].
  - intros members.
    apply (performs_trace_ext (db txn)); [apply performs_ZRem_layout | reflexivity].
  - intros fuel start stop withScore positiveOrder. unfold ZAnyOrderRange.
    destruct ((stop <? 0) && _); [apply trace_ext_refl|].
    destruct ((_ <? _) || _); [apply trace_ext_refl|].
    pose proof (performs_Iter (db txn) P
                  (ZSetScorePrefix (db txn) (ID (ZObj (meta zset)))) None
                  (conj eq_refl eq_refl) txn eq_refl) as (Hd & _ & Hext).
    destruct (txn_Iter _ None txn) as [[iter|e] txn1]; cbn [snd] in *;
      [|exact Hext].
    destruct (range_loop fuel _ _ txn1) as [[[items|e] txn2]|] eqn:Hloop;
      [| |exact I];
      (eapply trace_ext_trans; [exact Hext|]);
      eapply range_loop_layout; eauto.
Qed.

(** C2, as stated. On the set bound to the user key ["k"] with object id
    [id0], [ZADD k 1 a] writes a score key that is not under the prefix
    [NS:D:S:k] of the user key. *)
Lemma zset_score_index_not_keyed_by_user_key :
  let zset := Sample.zset0 0 0 in
  let txn := new_txn Sample.db0 ∅ in
  ¬ trace_ext
      (zset_op_layout (db txn) zset (ZSetScorePrefix (db txn) (zkey zset)))
      txn (snd (ZAdd zset ["a"] [Sample.f_one] txn)).
Proof.
  intros zset txn (ops & Ht & HP).
  assert (Hops : ops = trace (snd (ZAdd zset ["a"] [Sample.f_one] txn)))
    by (rewrite Ht; reflexivity).
  assert (Htr : trace (snd (ZAdd zset ["a"] [Sample.f_one] txn))
                = [OpSet (zsetMemberKey (DataKey Sample.db0 Sample.id0) "a")
                     (EncodeFloat64 Sample.f_one);
                   OpSet (zsetScoreKey
                            (ZSetScorePrefix Sample.db0 Sample.id0)
                            (EncodeFloat64 Sample.f_one) "a") NilValue;
                   OpSet (MetaKey Sample.db0 "k")
                     (encodeMeta (meta (Sample.zset0 1 0)))])
    by (vm_compute; reflexivity).
  rewrite Htr in Hops. subst ops.
  apply Forall_cons in HP as [_ HP]. apply Forall_cons in HP as [Hsc _].
  cbn [zset_op_layout] in Hsc.
  destruct Hsc as [H | [(m & H) | [(ts & H) | (sc & m & H)]]].
  - exact (scoreKey_neq_MetaKey _ _ _ _ _ H).
  - symmetry in H. exact (memberKey_neq_scoreKey _ _ _ _ _ _ H).
  - unfold zsetScoreKey, ZSetScorePrefix, expireKey, hashExpireKeyPrefix in H.
    apply (f_equal (Bytes.take 1)) in H. discriminate H.
  - unfold zsetScoreKey, ZSetScorePrefix in H. rewrite !app_assoc' in H.
    apply String.app_inj in H. simpl in H. discriminate H.
Qed.

(** ** The reaper *)

Lemma prefix_split (a k : string) :
  String.prefix a k = true → ∃ r, k = a +:+ r.
Proof.
  revert k; induction a as [|x a IH]; intros k H.
  - exists k. reflexivity.
  - destruct k as [|y k]; [discriminate|]. simpl in H.
    destruct (ascii_dec x y) as [->|]; [|discriminate].
    destruct (IH k H) as [r ->]. now exists r.
Qed.

Lemma gc_sweep_other (p k : string) (m : gmap string string) :
  Bytes.has_prefix k p = false → gc_sweep p m !! k = m !! k.
Proof.
  intros Hp. unfold gc_sweep. rewrite map_lookup_filter.
  destruct (m !! k) as [v|]; [|reflexivity]. cbn.
  now rewrite option_guard_True.
Qed.

Lemma gc_sweep_under (p k : string) (m : gmap string string) :
  Bytes.has_prefix k p = true → gc_sweep p m !! k = None.
Proof.
  intros Hp. unfold gc_sweep. apply map_lookup_filter_None_2.
  destruct (m !! k) as [v|]; [right|now left].
  intros x _ Hx. change (Bytes.has_prefix k p = false) in Hx.
  rewrite Hp in Hx. discriminate Hx.
Qed.

Lemma length_ID_DecodeObject (b : string) (obj : Object) :
  DecodeObject b = Ok obj → String.length (ID obj) = 16%nat.
Proof.
  unfold DecodeObject.
  destruct (Z.ltb_spec (Bytes.len b) ObjectEncodingLength) as [|Hlen];
    [discriminate|].
  intros H. injection H as <-.
  change (String.length (Bytes.take 16 (Bytes.drop 26 b)) = 16%nat).
  rewrite length_take, length_drop.
  unfold Bytes.len, ObjectEncodingLength in Hlen. lia.
Qed.

(** The data key of one id is not under the data key of another id of the
    same length. *)
Lemma data_prefix_disjoint (d : DB) (id id' k : string) :
  String.length id = String.length id' → id ≠ id' →
  Bytes.has_prefix k (DataKey d id') = true →
  Bytes.has_prefix k (toTikvDataKey (Namespace d) (DB_ID d) id) = false.
Proof.
  intros Hlen Hne Hk. unfold Bytes.has_prefix in *.
  apply prefix_split in Hk as [r ->].
  unfold DataKey, toTikvDataKey. rewrite !app_assoc'.
  rewrite !prefix_app.
  destruct (String.prefix id (id' +:+ r)) eqn:Hp; [|reflexivity].
  exfalso. apply Hne. eapply prefix_same_length; eauto.
Qed.

Lemma meta_key_not_data (d : DB) (id K : string) :
  Bytes.has_prefix (MetaKey d K) (toTikvDataKey (Namespace d) (DB_ID d) id)
  = false.
Proof.
  unfold Bytes.has_prefix, MetaKey, toTikvDataKey.
  rewrite !prefix_app. reflexivity.
Qed.

(** [doExpire] on the entry of a re-created key: its result, and the
    transaction it leaves. *)
Lemma doExpire_step (txn : Transaction) (K id b : string) (obj : Object)
    (expireAt : Z) :
  let d := db txn in
  let mkey := MetaKey d K in
  let old_prefix := toTikvDataKey (Namespace d) (DB_ID d) (Bytes.take 16 id) in
  wf_DB d →
  fault txn = no_fault →
  kv txn !! mkey = Some b →
  DecodeObject b = Ok obj →
  (16 <= String.length id)%nat →
  Bytes.take 16 id ≠ ID obj →
  ∃ txn',
    doExpire mkey id expireAt txn = (Ok tt, txn')
    ∧ db txn' = d ∧ fault txn' = no_fault
    ∧ kv txn' = kv txn
    ∧ trace txn' = trace txn ++ [OpGet mkey; OpGc old_prefix].
Proof.
  intros d mkey old_prefix Hwf Hf Hkv Hdec Hlen Hne.
  pose proof (length_ID_DecodeObject b obj Hdec) as Hid.
  unfold doExpire. fold mkey. unfold mkey at 1.
  rewrite (splitMetaKey_MetaKey d K Hwf). fold mkey.
  unfold getObject, bind, txn_Get. rewrite Hf. cbn [no_fault].
  rewrite Hkv, Hdec. cbn [ret]. rewrite Hid.
  assert (Hcut : (if (16 <? String.length id)%nat
                  then Bytes.take 16 id else id) = Bytes.take 16 id).
  { destruct (Nat.ltb_spec 16 (String.length id)); [reflexivity|].
    symmetry. apply take_ge. lia. }
  rewrite Hcut.
  replace (String.eqb (ID obj) (Bytes.take 16 id)) with false
    by (symmetry; apply String.eqb_neq; congruence).
  cbn [negb]. unfold gcDataKey, gc. cbn [fault record]. rewrite Hf.
  cbn [no_fault]. eexists. split; [reflexivity|].
  cbn [db kv trace fault record].
  repeat split; try assumption; try reflexivity.
  now rewrite <- app_assoc.
Qed.

(** C1. When the meta of the user key exists and carries an id other than
    the one stored in the expire-index entry, [doExpire] succeeds, writes
    nothing to the store, and hands over to the garbage collection exactly
    the data prefix of the old id; the collection of that prefix leaves the
    meta key of the re-created object and every key under the data prefix of
    its new id as they are. *)
Theorem doExpire_recreated_key (txn : Transaction) (K id b : string)
    (obj : Object) (expireAt : Z) :
  let d := db txn in
  let mkey := MetaKey d K in
  let old_prefix := toTikvDataKey (Namespace d) (DB_ID d) (Bytes.take 16 id) in
  wf_DB d →
  fault txn = no_fault →
  kv txn !! mkey = Some b →
  DecodeObject b = Ok obj →
  (16 <= String.length id)%nat →
  Bytes.take 16 id ≠ ID obj →
  ∃ txn',
    doExpire mkey id expireAt txn = (Ok tt, txn')
    ∧ kv txn' = kv txn
    ∧ trace txn' = trace txn ++ [OpGet mkey; OpGc old_prefix]
    ∧ gc_sweep old_prefix (kv txn') !! mkey = Some b
    ∧ ∀ k, Bytes.has_prefix k (DataKey d (ID obj)) = true →
           gc_sweep old_prefix (kv txn') !! k = kv txn !! k.
Proof.
  intros d mkey old_prefix Hwf Hf Hkv Hdec Hlen Hne.
  pose proof (length_ID_DecodeObject b obj Hdec) as Hid.
  destruct (doExpire_step txn K id b obj expireAt Hwf Hf Hkv Hdec Hlen Hne)
    as (txn' & Hrun & _ & _ & Hkv' & Htr).
  exists txn'. split; [exact Hrun|]. split; [exact Hkv'|].
  split; [exact Htr|]. rewrite Hkv'. split.
  - rewrite gc_sweep_other; [exact Hkv|]. apply meta_key_not_data.
  - intros k Hk. apply gc_sweep_other.
    apply (data_prefix_disjoint d (Bytes.take 16 id) (ID obj) k);
      [|exact Hne|exact Hk].
    rewrite length_take, Hid. lia.
Qed.

Lemma doExpire_recreated_key_witness :
  let txn := Sample.recreated_txn in
  let mkey := MetaKey Sample.db0 "k" in
  let new_member := zsetMemberKey (DataKey Sample.db0 Sample.id1) "a" in
  let old_member := zsetMemberKey (DataKey Sample.db0 Sample.id0) "a" in
  ∃ txn',
    doExpire mkey Sample.id0 100 txn = (Ok tt, txn')
    ∧ kv txn' = kv txn
    ∧ gc_sweep (DataKey Sample.db0 Sample.id0) (kv txn') !! mkey
      = Some Sample.recreated_meta
    ∧ gc_sweep (DataKey Sample.db0 Sample.id0) (kv txn') !! new_member
      = Some (EncodeFloat64 Sample.f_two)
    ∧ gc_sweep (DataKey Sample.db0 Sample.id0) (kv txn') !! old_member = None.
Proof.
  intros txn mkey new_member old_member.
  destruct (doExpire_recreated_key Sample.recreated_txn "k" Sample.id0
              Sample.recreated_meta Sample.recreated_obj 100)
    as (txn' & Hrun & Hkv & _ & Hmeta & Hdata).
  - split; [reflexivity | split; [discriminate | reflexivity]].
  - reflexivity.
  - vm_compute. reflexivity.
  - vm_compute. reflexivity.
  - vm_compute. lia.
  - vm_compute. discriminate.
  - exists txn'. split; [exact Hrun|]. split; [exact Hkv|].
    split; [exact Hmeta|]. split.
    + etransitivity; [apply (Hdata new_member); vm_compute; reflexivity|].
      vm_compute. reflexivity.
    + apply gc_sweep_under. vm_compute. reflexivity.
Defined.

(** An entry whose id matches and whose timestamp is the expiry of the object
    is expired: the meta key is deleted (a string has no data to collect). *)
Example doExpire_expires_string :
  ∃ txn', doExpire (MetaKey Sample.db0 "s") Sample.id0 100 Sample.expiring_txn
          = (Ok tt, txn')
          ∧ kv txn' !! MetaKey Sample.db0 "s" = None.
Proof.
  eexists. split; [vm_compute; reflexivity|]. vm_compute. reflexivity.
Qed.

(** ** The weight of the rate limiter *)

Section BalanceFacts.

Import Limiter.
Local Open Scope Q_scope.

Lemma ltb_false_le (a b : Q) : ltb a b = false → b <= a.
Proof.
  unfold ltb. intros H. apply negb_false_iff in H.
  now apply Qle_bool_iff.
Qed.

Lemma ltb_true_lt (a b : Q) : ltb a b = true → a < b.
Proof.
  unfold ltb. intros H. apply negb_true_iff in H.
  apply Qnot_le_lt. intros Hle. apply Qle_bool_iff in Hle. congruence.
Qed.

Lemma div_le_self (w f : Q) : 0 <= w → 1 < f → w / f <= w.
Proof.
  intros Hw Hf. apply Qle_shift_div_r; [lra|]. nra.
Qed.

Lemma mul_ge_self (w f : Q) : 0 <= w → 1 < f → w <= w * f.
Proof. intros Hw Hf. nra. Qed.

Lemma divide_weight_ok (w f : Q) :
  1 < f → weight_ok w → weight_ok (divide_weight w f).
Proof.
  unfold weight_ok, divide_weight, MINIMUM_WEIGHT, MAXIMUM_WEIGHT.
  intros Hf [Hlo Hhi]. destruct (ltb (w / f) (1 # 10)) eqn:Hc.
  - split; lra.
  - apply ltb_false_le in Hc. split; [exact Hc|].
    pose proof (div_le_self w f ltac:(lra) Hf). lra.
Qed.

Lemma divide_weight_le (w f : Q) :
  1 < f → weight_ok w → divide_weight w f <= w.
Proof.
  unfold weight_ok, divide_weight, MINIMUM_WEIGHT, MAXIMUM_WEIGHT.
  intros Hf [Hlo Hhi]. destruct (ltb (w / f) (1 # 10)) eqn:Hc.
  - exact Hlo.
  - apply div_le_self; [lra | exact Hf].
Qed.

Lemma multiply_weight_ok (w f : Q) :
  1 < f → weight_ok w → weight_ok (multiply_weight w f).
Proof.
  unfold weight_ok, multiply_weight, MINIMUM_WEIGHT, MAXIMUM_WEIGHT.
  intros Hf [Hlo Hhi]. destruct (ltb 1 (w * f)) eqn:Hc.
  - split; lra.
  - apply ltb_false_le in Hc. split; [|exact Hc].
    pose proof (mul_ge_self w f ltac:(lra) Hf). lra.
Qed.

Lemma multiply_weight_ge (w f : Q) :
  1 < f → weight_ok w → w <= multiply_weight w f.
Proof.
  unfold weight_ok, multiply_weight, MINIMUM_WEIGHT, MAXIMUM_WEIGHT.
  intros Hf [Hlo Hhi]. destruct (ltb 1 (w * f)) eqn:Hc.
  - exact Hhi.
  - apply mul_ge_self; [lra | exact Hf].
Qed.

(** What the loop over the peers computes. *)
Lemma scan_others_spec (G W d m : Q) (peers : list (Q * Q)) :
  ∀ acc,
    scan_others G W d m peers acc
    = if existsb (peer_high G W m) peers then (true, false)
      else (false, acc && forallb (peer_low G W d m) peers).
Proof.
  induction peers as [|[w q] peers IH]; intros acc; cbn [scan_others].
  - cbn. now rewrite andb_true_r.
  - cbn [existsb forallb].
    change (peer_low G W d m (w, q))
      with (negb (geb q (G * (w / W) * m))
            && negb (geb q (G * (w / W) * d))).
    change (peer_high G W m (w, q)) with (geb q (G * (w / W) * m)).
    destruct (geb q (G * (w / W) * m)) eqn:Hh; [reflexivity|].
    destruct (geb q (G * (w / W) * d)) eqn:Hd; rewrite IH;
      cbn [orb negb andb].
    + destruct (existsb _ peers); [reflexivity|]. now rewrite andb_false_r.
    + reflexivity.
Qed.

Lemma all_low_no_high_gen (G W d m : Q) (peers : list (Q * Q)) :
  forallb (peer_low G W d m) peers = true →
  existsb (peer_high G W m) peers = false.
Proof.
  induction peers as [|p ps IH]; cbn; [reflexivity|].
  intros H. apply andb_true_iff in H as [Hp Hps].
  unfold peer_low in Hp. apply andb_true_iff in Hp as [Hp _].
  apply negb_true_iff in Hp. rewrite Hp. cbn. now apply IH.
Qed.

Section OneRun.

Variables (w averageQps G d m f : Q) (peers : list (Q * Q)).

Let W := total_weight w peers.
Let self_low := ltb averageQps (G * (w / W) * d).
Let self_high := geb averageQps (G * (w / W) * m).
Let some_high := existsb (peer_high G W m) peers.
Let all_low := forallb (peer_low G W d m) peers.

(** The adjustment, case by case. *)
Lemma adjust_weight_cases :
  adjust_weight w averageQps G d m f peers
  = if self_low then
      if some_high then divide_weight w f
      else if all_low then multiply_weight w f else w
    else if self_high then multiply_weight w f else w.
Proof.
  unfold adjust_weight. fold W. fold self_low. fold self_high.
  rewrite scan_others_spec. fold some_high. fold all_low.
  destruct self_low; [|reflexivity].
  destruct some_high; reflexivity.
Qed.

Lemma all_low_no_high : all_low = true → some_high = false.
Proof. apply all_low_no_high_gen. Qed.

Lemma adjust_weight_ok :
  1 < f → weight_ok w →
  weight_ok (adjust_weight w averageQps G d m f peers).
Proof.
  intros Hf Hw. rewrite adjust_weight_cases.
  destruct self_low, some_high, all_low, self_high;
    auto using divide_weight_ok, multiply_weight_ok.
Qed.

End OneRun.

Lemma balanceLimit_weight (cl : CommandLimiter) (averageQps : Q)
    (store : StoreOutcome) (d m f : Q) :
  weight (balanceLimit cl averageQps store d m f)
  = if Qle_bool (inject_Z (globalLimit (qpsLw cl))) 0 then weight cl
    else if skipBalance cl then weight cl
    else match store with
         | Scanned peers _ =>
             adjust_weight (weight cl) averageQps
               (inject_Z (globalLimit (qpsLw cl))) d m f peers
         | _ => weight cl
         end.
Proof.
  unfold balanceLimit.
  destruct (Qle_bool _ 0); [reflexivity|].
  destruct (skipBalance cl); [reflexivity|].
  destruct store as [| |peers written]; try reflexivity.
  destruct written; reflexivity.
Qed.

Lemma balanceLimit_weight_ok (cl : CommandLimiter) (averageQps : Q)
    (store : StoreOutcome) (d m f : Q) :
  1 < f → weight_ok (weight cl) →
  weight_ok (weight (balanceLimit cl averageQps store d m f)).
Proof.
  intros Hf Hw. rewrite balanceLimit_weight.
  destruct (Qle_bool _ 0); [exact Hw|].
  destruct (skipBalance cl); [exact Hw|].
  destruct store; try exact Hw. now apply adjust_weight_ok.
Qed.

Lemma run_ticks_weight_ok (d m f : Q) (ticks : list Tick) :
  1 < f → ∀ cl, weight_ok (weight cl) →
  weight_ok (weight (run_ticks d m f ticks cl)).
Proof.
  intros Hf. unfold run_ticks.
  induction ticks as [|tk ticks IH]; intros cl Hw; cbn [fold_left].
  - exact Hw.
  - apply IH. now apply balanceLimit_weight_ok.
Qed.

Lemma NewCommandLimiter_weight (qpsLimit qpsBurst rateLimit rateBurst : Z)
    (initialPercent : Q) (cl : CommandLimiter) :
  NewCommandLimiter qpsLimit qpsBurst rateLimit rateBurst initialPercent
  = Some cl →
  weight cl = MAXIMUM_WEIGHT.
Proof.
  unfold NewCommandLimiter.
  destruct (_ && _)%bool; [discriminate|].
  destruct (Qle_bool initialPercent 0); [discriminate|].
  now intros [= <-].
Qed.

End BalanceFacts.

Section BalanceClaim.

Import Limiter.
Local Open Scope Q_scope.

(** C8, as the code has it. Starting from the weight 1.0 that
    [NewCommandLimiter] sets, every run of [balanceLimit] keeps the weight
    within [[0.1, 1.0]]. In a run that reaches the adjustment, the weight
    decreases only when self qps is under its divide threshold and some
    peer is at or above its multiply threshold, and it is then the clamped
    quotient; it is the clamped product when self qps is not under its
    divide threshold and is at or above its multiply threshold, and when
    self qps is under its divide threshold and every peer is below its
    thresholds. In every other case the weight is left as it is: when self
    qps is under its divide threshold, no peer is high and not every peer
    is low; when self qps is between its two thresholds; and in a run that
    does not reach the adjustment (no qps limit, a run skipped after a
    change of the limit, a transaction or a scan that failed). *)
Theorem balance_weight_range_and_rules
    (qpsLimit qpsBurst rateLimit rateBurst : Z) (initialPercent d m f : Q)
    (cl0 : CommandLimiter) (ticks : list Tick) :
  1 < f →
  NewCommandLimiter qpsLimit qpsBurst rateLimit rateBurst initialPercent
  = Some cl0 →
  let cl := run_ticks d m f ticks cl0 in
  weight_ok (weight cl)
  ∧ (∀ averageQps peers written,
      Qle_bool (inject_Z (globalLimit (qpsLw cl))) 0 = false →
      skipBalance cl = false →
      let v := run_view cl averageQps peers written d m f in
      (rv_after v < rv_before v →
       rv_self_low v = true ∧ rv_some_high v = true)
      ∧ (rv_self_low v = true → rv_some_high v = true →
         rv_after v = divide_weight (rv_before v) f)
      ∧ (rv_self_low v = false → rv_self_high v = true →
         rv_after v = multiply_weight (rv_before v) f)
      ∧ (rv_self_low v = true → rv_all_low v = true →
         rv_after v = multiply_weight (rv_before v) f)
      ∧ (rv_self_low v = true → rv_some_high v = false →
         rv_all_low v = false → rv_after v = rv_before v)
      ∧ (rv_self_low v = false → rv_self_high v = false →
         rv_after v = rv_before v))
  ∧ ∀ averageQps store,
      Qle_bool (inject_Z (globalLimit (qpsLw cl))) 0 = true
      ∨ skipBalance cl = true ∨ store = BeginFailed ∨ store = ScanFailed →
      weight (balanceLimit cl averageQps store d m f) = weight cl.
Proof.
  intros Hf Hnew cl.
  assert (Hok : weight_ok (weight cl)).
  { apply run_ticks_weight_ok; [exact Hf|].
    rewrite (NewCommandLimiter_weight _ _ _ _ _ _ Hnew).
    unfold weight_ok, MINIMUM_WEIGHT, MAXIMUM_WEIGHT. split; lra. }
  split; [exact Hok|]. split.
  2:{ intros averageQps store H. rewrite balanceLimit_weight.
      destruct (Qle_bool _ 0); [reflexivity|].
      destruct (skipBalance cl); [reflexivity|].
      destruct H as [H|[H|[->| ->]]]; try discriminate H; reflexivity. }
  intros averageQps peers written HG Hskip v.
  assert (Hafter : rv_after v
                   = if rv_self_low v then
                       if rv_some_high v then divide_weight (weight cl) f
                       else if rv_all_low v then multiply_weight (weight cl) f
                            else weight cl
                     else if rv_self_high v then multiply_weight (weight cl) f
                          else weight cl).
  { unfold v, run_view. cbn [rv_after rv_self_low rv_self_high rv_some_high
                               rv_all_low].
    rewrite balanceLimit_weight, HG, Hskip. apply adjust_weight_cases. }
  pose proof (all_low_no_high_gen
                (inject_Z (globalLimit (qpsLw cl)))
                (total_weight (weight cl) peers) d m peers) as Hal.
  change (rv_all_low v = true → rv_some_high v = false) in Hal.
  change (rv_before v) with (weight cl).
  pose proof (multiply_weight_ge (weight cl) f Hf Hok) as Hge.
  rewrite Hafter.
  destruct (rv_self_low v), (rv_some_high v), (rv_all_low v),
    (rv_self_high v);
    repeat split; intros; try reflexivity; try congruence;
    try (specialize (Hal eq_refl); congruence);
    try (exfalso; lra).
Qed.

Lemma balance_weight_range_and_rules_witness :
  ∃ cl0,
    sample0 = Some cl0
    ∧ weight_ok (weight (run_ticks usage_to_divide usage_to_multiply
                           weight_change_factor sample_ticks cl0))
    ∧ weight (run_ticks usage_to_divide usage_to_multiply
                weight_change_factor sample_ticks cl0) == 2 # 3.
Proof.
  eexists. split; [vm_compute; reflexivity|]. split.
  - refine (proj1 (balance_weight_range_and_rules 100 10 0 0 (33 # 100)
                     usage_to_divide usage_to_multiply weight_change_factor
                     _ sample_ticks _ _)); reflexivity.
  - reflexivity.
Defined.

(** C8, as stated. A limiter whose weight went down to 2/3 runs with a qps
    of 30 between its divide threshold 24 and its multiply threshold 36,
    while its one peer is idle: every peer is below its divide threshold,
    and the weight is left at 2/3, it is not multiplied. *)
Lemma balance_middle_band_not_multiplied :
  ∃ cl,
    sample1 = Some cl
    ∧ let v := run_view cl 30 [(1, 0)] true usage_to_divide
                 usage_to_multiply weight_change_factor in
      rv_all_low v = true
      ∧ rv_after v == 2 # 3
      ∧ multiply_weight (rv_before v) weight_change_factor == 1
      ∧ ¬ rv_after v == multiply_weight (rv_before v) weight_change_factor.
Proof.
  eexists. split; [vm_compute; reflexivity|].
  split; [vm_compute; reflexivity|].
  split; [vm_compute; reflexivity|].
  split; [vm_compute; reflexivity|].
  vm_compute. discriminate.
Qed.

End BalanceClaim.

(** ** One entry of a reaper tick *)

Lemma DecodeInt64_EncodeInt64 (ts : Z) :
  in_int64 ts → DecodeInt64 (EncodeInt64 ts) = ts.
Proof.
  intros H. unfold DecodeInt64, EncodeInt64.
  rewrite take_be_bytes, be_value_be_bytes.
  change (256 ^ Z.of_nat 8) with two64.
  unfold to_uint64. rewrite Z.mod_mod by (unfold two64; lia).
  now apply to_int64_to_uint64.
Qed.

Lemma len_EncodeInt64 (ts : Z) : Bytes.len (EncodeInt64 ts) = 8.
Proof. unfold Bytes.len, EncodeInt64. now rewrite length_be_bytes. Qed.

(** The entry of the expire index of a re-created key, as a reaper tick meets
    it at the head of its iterator: the loop hands the data prefix of the old
    id over to the garbage collection, deletes the entry itself, advances the
    iterator and goes on with the rest; no other key of the store changes. *)
Lemma runExpire_loop_recreated_key (txn : Transaction) (pfx K id b : string)
    (obj : Object) (ts now : Z) (rest : Iterator) (st : ExpireLoop) :
  let d := db txn in
  let mkey := MetaKey d K in
  let rawKey := pfx +:+ EncodeInt64 ts +:+ ":" +:+ mkey in
  let old_prefix := toTikvDataKey (Namespace d) (DB_ID d) (Bytes.take 16 id) in
  wf_DB d →
  fault txn = no_fault →
  kv txn !! mkey = Some b →
  DecodeObject b = Ok obj →
  (16 <= String.length id)%nat →
  Bytes.take 16 id ≠ ID obj →
  in_int64 ts → ts <= now → 0 < el_limit st →
  ∃ txn',
    runExpire_loop pfx (Bytes.len pfx) (Bytes.len pfx + 9) now
      ((rawKey, id) :: rest) st txn
    = runExpire_loop pfx (Bytes.len pfx) (Bytes.len pfx + 9) now rest
        {| el_limit := wrap64 (el_limit st - 1); el_thisExpireEndTs := ts;
           el_ts := ts |} txn'
    ∧ db txn' = d ∧ fault txn' = no_fault
    ∧ kv txn' = delete rawKey (kv txn)
    ∧ trace txn' = trace txn ++ [OpGet mkey; OpGc old_prefix;
                                 OpDelete rawKey; OpNext rawKey].
Proof.
  intros d mkey rawKey old_prefix Hwf Hf Hkv Hdec Hlen Hne Hts Hnow Hlim.
  destruct (doExpire_step txn K id b obj ts Hwf Hf Hkv Hdec Hlen Hne)
    as (txn1 & Hrun & Hd1 & Hf1 & Hkv1 & Htr1).
  fold d mkey old_prefix in Hrun, Htr1.
  cbn [runExpire_loop].
  replace (Bytes.has_prefix rawKey pfx) with true
    by (symmetry; apply prefix_app_r).
  replace (0 <? el_limit st) with true by (symmetry; now apply Z.ltb_lt).
  cbn [andb negb].
  pose proof (slice_middle pfx (EncodeInt64 ts) (":" +:+ mkey)) as Hs1.
  rewrite len_EncodeInt64 in Hs1. fold rawKey in Hs1. rewrite Hs1.
  rewrite (DecodeInt64_EncodeInt64 ts Hts).
  replace (now <? ts) with false by (symmetry; apply Z.ltb_ge; lia).
  pose proof (slice_from_app (pfx +:+ EncodeInt64 ts +:+ ":") mkey) as Hs2.
  rewrite !len_app, len_EncodeInt64 in Hs2. rewrite !app_assoc' in Hs2.
  change (Bytes.len ":") with 1 in Hs2.
  replace (Bytes.len pfx + (8 + 1)) with (Bytes.len pfx + 9) in Hs2 by lia.
  fold rawKey in Hs2. rewrite Hs2.
  unfold bind at 1. rewrite Hrun.
  unfold bind at 1, txn_Delete at 1. rewrite Hf1. cbn [no_fault].
  unfold bind at 1, iter_Next at 1. cbn [fault record fst]. rewrite Hf1.
  cbn [no_fault].
  eexists. split; [reflexivity|].
  cbn [db kv trace fault record].
  repeat split; try assumption.
  - now rewrite Hkv1.
  - rewrite Htr1, <- !app_assoc. reflexivity.
Qed.

(** A whole tick over the bucket of a stale entry: the entry is consumed, the
    data prefix of the old id is handed over, and the re-created set keeps its
    meta and its member. *)
Example runExpire_recreated_key :
  ∃ txn',
    runExpire 10 Sample.stale_bucket 0 150 Sample.tick_txn = (Ok 100, txn')
    ∧ kv txn' = kv Sample.recreated_txn
    ∧ OpGc (DataKey Sample.db0 Sample.id0) ∈ trace txn'
    ∧ gc_sweep (DataKey Sample.db0 Sample.id0) (kv txn')
        !! MetaKey Sample.db0 "k" = Some Sample.recreated_meta
    ∧ gc_sweep (DataKey Sample.db0 Sample.id0) (kv txn')
        !! zsetMemberKey (DataKey Sample.db0 Sample.id1) "a"
      = Some (EncodeFloat64 Sample.f_two).
Proof.
  eexists. split; [vm_compute; reflexivity|].
  split; [vm_compute; reflexivity|].
  split; [vm_compute; do 2 right; left|].
  split; vm_compute; reflexivity.
Qed.

(** ** SET with an expiry *)

Lemma EncodeInt64_inj (a b : Z) :
  in_int64 a → in_int64 b → EncodeInt64 a = EncodeInt64 b → a = b.
Proof.
  intros Ha Hb H. apply (f_equal DecodeInt64) in H.
  now rewrite !DecodeInt64_EncodeInt64 in H.
Qed.

Lemma expireKey_inj (mkey : string) (a b : Z) :
  in_int64 a → in_int64 b → expireKey mkey a = expireKey mkey b → a = b.
Proof.
  intros Ha Hb H. unfold expireKey in H.
  do 3 apply String.app_inj in H.
  apply (f_equal (Bytes.take 8)) in H.
  pose proof (take_app_length (EncodeInt64 a) (":" +:+ mkey)) as Ta.
  pose proof (take_app_length (EncodeInt64 b) (":" +:+ mkey)) as Tb.
  assert (L : ∀ z, String.length (EncodeInt64 z) = 8%nat)
    by (intros z; apply length_be_bytes).
  rewrite L in Ta, Tb. rewrite Ta, Tb in H. now apply EncodeInt64_inj.
Qed.

(** [Set] with an expiry rewrites the expire index in the transaction: the
    entry of the new expiry maps to the id of the object, and the entry of an
    old, different expiry is gone. *)
Lemma Set_rewrites_expire_entry (s : String_) (val : option string)
    (e0 : Z) (more : list Z) (timestamp : Z) (txn : Transaction) :
  let mkey := MetaKey (db txn) (key s) in
  let old := ExpireAt (Obj (Meta s)) in
  let new := wrap64 (timestamp + e0) in
  fault txn = no_fault →
  0 < e0 → 0 < new →
  ∃ s' txn',
    Set_ s val (e0 :: more) timestamp txn = (Ok s', txn')
    ∧ ExpireAt (Obj (Meta s')) = new
    ∧ kv txn' !! expireKey mkey new = Some (ID (Obj (Meta s)))
    ∧ (0 < old → in_int64 old → old ≠ new →
       kv txn' !! expireKey mkey old = None).
Proof.
  intros mkey old new Hf He Hnew.
  unfold Set_, bind at 1, get_db at 1. fold mkey.
  replace (0 <? e0) with true by (symmetry; now apply Z.ltb_lt).
  cbn [set_Obj with_ExpireAt Meta Obj ExpireAt ID Type_]. fold old new.
  unfold expireAt.
  replace (0 <? new) with true by (symmetry; now apply Z.ltb_lt).
  destruct (Z.ltb_spec 0 old) as [Hold|Hold].
  - run_txn Hf. eexists _, _. split; [reflexivity|].
    split; [reflexivity|]. cbn [kv record]. split.
    + rewrite lookup_insert_ne by (apply not_eq_sym, expireKey_neq_mkey).
      apply lookup_insert_eq.
    + intros _ Hin Hne.
      rewrite lookup_insert_ne by (apply not_eq_sym, expireKey_neq_mkey).
      rewrite lookup_insert_ne.
      * apply lookup_delete_eq.
      * intros Heq. apply Hne. symmetry.
        apply (expireKey_inj mkey new old); [apply wrap64_range|exact Hin|].
        exact Heq.
  - run_txn Hf. eexists _, _. split; [reflexivity|].
    split; [reflexivity|]. cbn [kv record]. split.
    + rewrite lookup_insert_ne by (apply not_eq_sym, expireKey_neq_mkey).
      apply lookup_insert_eq.
    + intros Hpos. lia.
Qed.

(** * Properties of the further parts *)

Local Arguments String.append : simpl nomatch.
Local Arguments EncodeObject : simpl never.
Local Arguments DecodeObject : simpl never.
Local Arguments EncodeInt64 : simpl never.
Local Arguments EncodeFloat64 : simpl never.
Local Arguments DecodeFloat64 : simpl never.
Local Arguments encode : simpl never.
Local Arguments encodeMeta : simpl never.
Local Arguments MetaKey : simpl never.
Local Arguments DataKey : simpl never.
Local Arguments toTikvDataKey : simpl never.
Local Arguments ZSetScorePrefix : simpl never.
Local Arguments zsetMemberKey : simpl never.
Local Arguments zsetScoreKey : simpl never.
Local Arguments expireKey : simpl never.
Local Arguments wrap64 : simpl never.
Local Arguments Float64.eqb : simpl never.
Local Arguments FormatInt : simpl never.
Local Arguments ParseInt : simpl never.

(** ** The object header read back *)

Lemma take_app_n (n : nat) (a b : string) :
  String.length a = n → Bytes.take n (a +:+ b) = a.
Proof. intros <-. apply take_app_length. Qed.

Lemma drop_app_n (n : nat) (a b : string) :
  String.length a = n → Bytes.drop n (a +:+ b) = b.
Proof. intros <-. apply drop_app_length. Qed.

Lemma drop_drop (n m : nat) (s : string) :
  Bytes.drop (n + m) s = Bytes.drop m (Bytes.drop n s).
Proof.
  revert s; induction n as [|n IH]; intros s; [reflexivity|].
  destruct s as [|c s]; simpl; [now destruct m | apply IH].
Qed.

Lemma length_zeros (n : nat) : String.length (Bytes.zeros n) = n.
Proof. induction n; simpl; congruence. Qed.

Lemma length_EncodeObject (o : Object) :
  String.length (EncodeObject o) = 42%nat.
Proof.
  unfold EncodeObject. rewrite !length_app, !length_be_bytes, length_take.
  rewrite length_app, length_zeros. lia.
Qed.

Lemma len_EncodeObject (o : Object) : Bytes.len (EncodeObject o) = 42.
Proof. unfold Bytes.len. now rewrite length_EncodeObject. Qed.

(** Decoding reads back every field of a header that fits the layout,
    whatever follows the header. *)
Lemma DecodeObject_EncodeObject (o : Object) (rest : string) :
  wf_Object o → DecodeObject (EncodeObject o +:+ rest) = Ok o.
Proof.
  intros (Hid & Ht & He & Hc & Hu & Hx).
  unfold DecodeObject.
  replace (Bytes.len (EncodeObject o +:+ rest) <? ObjectEncodingLength)
    with false.
  2:{ symmetry. apply Z.ltb_ge. rewrite len_app, len_EncodeObject.
      pose proof (len_nonneg rest). unfold ObjectEncodingLength. lia. }
  unfold EncodeObject. rewrite !app_assoc'.
  set (T := Bytes.be_bytes 1 (Type_ o)).
  set (E := Bytes.be_bytes 1 (Encoding o)).
  set (C := Bytes.be_bytes 8 (to_uint64 (CreatedAt o))).
  set (U := Bytes.be_bytes 8 (to_uint64 (UpdatedAt o))).
  set (X := Bytes.be_bytes 8 (to_uint64 (ExpireAt o))).
  set (I := Bytes.take 16 (ID o +:+ Bytes.zeros 16)).
  assert (LT : String.length T = 1%nat) by apply length_be_bytes.
  assert (LE : String.length E = 1%nat) by apply length_be_bytes.
  assert (LC : String.length C = 8%nat) by apply length_be_bytes.
  assert (LU : String.length U = 8%nat) by apply length_be_bytes.
  assert (LX : String.length X = 8%nat) by apply length_be_bytes.
  assert (HI : I = ID o).
  { unfold I. now apply take_app_n. }
  assert (D1 : Bytes.drop 1 (T +:+ E +:+ C +:+ U +:+ X +:+ I +:+ rest)
               = E +:+ C +:+ U +:+ X +:+ I +:+ rest)
    by now apply drop_app_n.
  assert (D2 : Bytes.drop 2 (T +:+ E +:+ C +:+ U +:+ X +:+ I +:+ rest)
               = C +:+ U +:+ X +:+ I +:+ rest).
  { change 2%nat with (1 + 1)%nat. rewrite drop_drop, D1.
    now apply drop_app_n. }
  assert (D10 : Bytes.drop 10 (T +:+ E +:+ C +:+ U +:+ X +:+ I +:+ rest)
                = U +:+ X +:+ I +:+ rest).
  { change 10%nat with (2 + 8)%nat. rewrite drop_drop, D2.
    now apply drop_app_n. }
  assert (D18 : Bytes.drop 18 (T +:+ E +:+ C +:+ U +:+ X +:+ I +:+ rest)
                = X +:+ I +:+ rest).
  { change 18%nat with (10 + 8)%nat. rewrite drop_drop, D10.
    now apply drop_app_n. }
  assert (D26 : Bytes.drop 26 (T +:+ E +:+ C +:+ U +:+ X +:+ I +:+ rest)
                = I +:+ rest).
  { change 26%nat with (18 + 8)%nat. rewrite drop_drop, D18.
    now apply drop_app_n. }
  rewrite D1, D2, D10, D18, D26.
  rewrite (take_app_n 1 T), (take_app_n 1 E), (take_app_n 8 C),
    (take_app_n 8 U), (take_app_n 8 X) by assumption.
  rewrite (take_app_n 16 I) by (rewrite HI; exact Hid).
  unfold T, E, C, U, X. rewrite !be_value_be_bytes.
  rewrite !(Z.mod_small _ (256 ^ Z.of_nat 1)) by (simpl; lia).
  change (256 ^ Z.of_nat 8) with two64.
  fold (to_uint64 (to_uint64 (CreatedAt o))).
  fold (to_uint64 (to_uint64 (UpdatedAt o))).
  fold (to_uint64 (to_uint64 (ExpireAt o))).
  assert (Huu : ∀ z, to_uint64 (to_uint64 z) = to_uint64 z).
  { intros z. unfold to_uint64. apply Z.mod_mod. unfold two64. lia. }
  rewrite !Huu, !to_int64_to_uint64 by assumption.
  rewrite HI. now destruct o.
Qed.

(** ** Strings: what is written is what is read *)

Lemma len_nonempty (v : string) : v ≠ "" → 0 < Bytes.len v.
Proof. destruct v; [congruence|]. unfold Bytes.len. simpl. lia. Qed.

(** [GetString] on a stored string that has not expired: the header comes
    back with [UpdatedAt] set to the clock, the value is the bytes after the
    header, and an empty remainder reads as no value. *)
Lemma GetString_reads_back (txn : Transaction) (K : string) (o : Object)
    (v : string) (now t' : Z) :
  fault txn = no_fault →
  kv txn !! MetaKey (db txn) K = Some (EncodeObject o +:+ v) →
  wf_Object o → Type_ o = ObjectString → Encoding o = ObjectEncodingRaw →
  ExpireAt o = 0 ∨ t' <= ExpireAt o →
  GetString K now t' txn
  = (Ok {| Meta := {| Obj := with_UpdatedAt now o;
                      Value := if String.eqb v "" then None else Some v |};
           key := K |},
     record (OpGet (MetaKey (db txn) K)) (kv txn) txn).
Proof.
  intros Hf Hkv Hwf Ht He Hlive.
  unfold GetString, bind, get_db, txn_Get. rewrite Hf. cbn [no_fault].
  rewrite Hkv. unfold decode. rewrite (DecodeObject_EncodeObject o v Hwf).
  replace (negb (ExpireAt o =? 0) && (ExpireAt o <? t')) with false.
  2:{ symmetry. destruct Hlive as [->|Hl]; [reflexivity|].
      apply andb_false_iff. right. apply Z.ltb_ge. exact Hl. }
  rewrite len_app, len_EncodeObject. unfold ObjectEncodingLength.
  change (Z.to_nat 42) with 42%nat.
  rewrite (drop_app_n 42) by apply length_EncodeObject.
  destruct (String.eqb_spec v "") as [->|Hv].
  - change (42 <? 42 + Bytes.len "") with false. cbv iota.
    cbn [set_Obj Meta Obj Type_ Encoding].
    rewrite Ht, He. reflexivity.
  - replace (42 <? 42 + Bytes.len v) with true
      by (symmetry; apply Z.ltb_lt; pose proof (len_nonempty v Hv); lia).
    cbn [set_Obj set_Value Meta Obj Type_ Encoding].
    rewrite Ht, He. reflexivity.
Qed.

(** The object and the meta entry a call of [Set] leaves on a store that
    raises no error. *)
Lemma Set_stores (s : String_) (val : option string) (expire : list Z)
    (timestamp : Z) (txn : Transaction) :
  fault txn = no_fault →
  let s' := set_Value val
              (set_Obj (with_ExpireAt (Set_expiry expire timestamp)) s) in
  ∃ txn',
    Set_ s val expire timestamp txn = (Ok s', txn')
    ∧ db txn' = db txn ∧ fault txn' = no_fault
    ∧ kv txn' !! MetaKey (db txn) (key s) = Some (encode s').
Proof.
  intros Hf s'. subst s'. unfold Set_, Set_expiry.
  destruct expire as [|e0 more].
  - unfold ignore_error, unExpireAt.
    destruct (ExpireAt (Obj (Meta s)) =? 0); run_txn Hf;
      (eexists; split; [reflexivity|]; cbn [db fault kv record];
       repeat split; try assumption; apply lookup_insert_eq).
  - destruct (0 <? e0).
    + unfold expireAt. cbn [set_Obj with_ExpireAt Meta Obj ExpireAt].
      destruct (0 <? ExpireAt (Obj (Meta s)));
        destruct (0 <? wrap64 (timestamp + e0)); run_txn Hf;
        (eexists; split; [reflexivity|]; cbn [db fault kv record];
         repeat split; try assumption; apply lookup_insert_eq).
    + unfold ignore_error, unExpireAt.
      destruct (ExpireAt (Obj (Meta s)) =? 0); run_txn Hf;
        (eexists; split; [reflexivity|]; cbn [db fault kv record];
         repeat split; try assumption; apply lookup_insert_eq).
Qed.

(** ** Decimal integers *)

Lemma parse_digits_of_uint_acc (u : Decimal.uint) (p : positive) :
  parse_digits (Z.pos p) (DecimalString.NilEmpty.string_of_uint u)
  = Some (Z.pos (Pos.of_uint_acc u p)).
Proof.
  revert p; induction u; intros p; cbn [DecimalString.NilEmpty.string_of_uint
    parse_digits Pos.of_uint_acc]; [reflexivity|..];
    (match goal with
     | |- context [digit_value ?c] =>
         let v := eval vm_compute in (digit_value c) in
         change (digit_value c) with v
     end; cbv iota; rewrite <- IHu; f_equal; lia).
Qed.

Lemma parse_digits_of_uint (u : Decimal.uint) :
  parse_digits 0 (DecimalString.NilEmpty.string_of_uint u)
  = Some (Z.of_N (Pos.of_uint u)).
Proof.
  induction u; cbn [DecimalString.NilEmpty.string_of_uint parse_digits
    Pos.of_uint]; [reflexivity|..];
    (match goal with
     | |- context [digit_value ?c] =>
         let v := eval vm_compute in (digit_value c) in
         change (digit_value c) with v
     end; cbv iota; cbn [Z.mul Z.add Z.of_N];
     first [exact IHu | apply parse_digits_of_uint_acc]).
Qed.

(** The decimal digits of a positive number start with a digit and read
    back as the number. *)
Lemma ParseUint_to_uint (p : positive) :
  ∃ c rest,
    DecimalString.NilEmpty.string_of_uint (Pos.to_uint p) = String c rest
    ∧ Ascii.eqb c "+" = false ∧ Ascii.eqb c "-" = false
    ∧ ParseUint (String c rest) = Some (Z.pos p).
Proof.
  pose proof (parse_digits_of_uint (Pos.to_uint p)) as H.
  rewrite DecimalPos.Unsigned.of_to in H.
  pose proof (DecimalPos.Unsigned.to_uint_nonnil p) as Hn.
  destruct (Pos.to_uint p) eqn:E; [congruence|..];
    cbn [DecimalString.NilEmpty.string_of_uint] in *;
    eexists _, _; (split; [reflexivity|]);
    (split; [reflexivity|]); (split; [reflexivity|]); exact H.
Qed.

(** [ParseInt] reads back what [FormatInt] prints, over all of [int64]. *)
Lemma ParseInt_FormatInt (n : Z) : in_int64 n → ParseInt (FormatInt n) = Some n.
Proof.
  intros [Hlo Hhi]. unfold FormatInt. destruct n as [|p|p].
  - reflexivity.
  - cbn [Z.to_int DecimalString.NilEmpty.string_of_int].
    destruct (ParseUint_to_uint p) as (c & rest & -> & Hp & Hm & Hparse).
    unfold ParseInt. rewrite Hp, Hm. cbn [orb negb andb]. rewrite Hparse.
    replace (two63 <=? Z.pos p) with false
      by (symmetry; apply Z.leb_gt; exact Hhi).
    reflexivity.
  - cbn [Z.to_int DecimalString.NilEmpty.string_of_int].
    destruct (ParseUint_to_uint p) as (c & rest & -> & Hp & Hm & Hparse).
    unfold ParseInt.
    change (Ascii.eqb "-" "-") with true. change (Ascii.eqb "-" "+") with false.
    cbn [orb negb andb]. rewrite Hparse.
    replace (two63 <? Z.pos p) with false
      by (symmetry; apply Z.ltb_ge; lia).
    reflexivity.
Qed.

(** ** Strings: set, append and increment *)

Lemma wf_with_ExpireAt (o : Object) (e : Z) :
  wf_Object o → in_int64 e → wf_Object (with_ExpireAt e o).
Proof.
  intros (Hid & Ht & He & Hc & Hu & _) Hx. repeat split; try assumption;
    try apply Ht; try apply He; try apply Hc; try apply Hu; apply Hx.
Qed.

(** A header of a concrete object fits the layout. *)
Ltac wf_closed :=
  unfold wf_Object, in_int64; repeat split; vm_compute;
  first [reflexivity | discriminate | (intro; discriminate)].

Lemma in_int64_0 : in_int64 0.
Proof. unfold in_int64, two63. lia. Qed.

Lemma in_int64_Set_expiry (expire : list Z) (timestamp : Z) :
  in_int64 (Set_expiry expire timestamp).
Proof.
  unfold Set_expiry. destruct expire as [|e0 ?]; [apply in_int64_0|].
  destruct (0 <? e0); [apply wrap64_range | apply in_int64_0].
Qed.

(** X1 ([db/string.go], [Set], [encode], [GetString], [decode], [Get]).
    A value stored by [Set] is what [GetString] reads back in the same
    transaction while the expiry that [Set] wrote has not passed: the header
    comes back with the new expiry and with [UpdatedAt] set to the clock, and
    [Get] returns the value. The empty value is the exception: it is stored
    as a bare header, which [decode] reads as no value, so [Get] reports the
    key as not found. *)
Theorem Set_then_GetString (s : String_) (v : string) (expire : list Z)
    (timestamp now t' : Z) (txn : Transaction) :
  fault txn = no_fault →
  wf_Object (Obj (Meta s)) →
  Type_ (Obj (Meta s)) = ObjectString →
  Encoding (Obj (Meta s)) = ObjectEncodingRaw →
  Set_expiry expire timestamp = 0 ∨ t' <= Set_expiry expire timestamp →
  ∃ s1 txn1 s2 txn2,
    Set_ s (Some v) expire timestamp txn = (Ok s1, txn1)
    ∧ GetString (key s) now t' txn1 = (Ok s2, txn2)
    ∧ Obj (Meta s2)
      = with_UpdatedAt now
          (with_ExpireAt (Set_expiry expire timestamp) (Obj (Meta s)))
    ∧ Get s2 = (if String.eqb v "" then Err ErrKeyNotFound else Ok (Some v))
    ∧ kv txn2 = kv txn1.
Proof.
  intros Hf Hwf Ht He Hlive.
  destruct (Set_stores s (Some v) expire timestamp txn Hf)
    as (txn1 & HS & Hdb & Hf1 & Hkv).
  cbv zeta in HS, Hkv. rewrite <- Hdb in Hkv.
  set (o1 := with_ExpireAt (Set_expiry expire timestamp) (Obj (Meta s))) in *.
  assert (Hwf1 : wf_Object o1)
    by (apply wf_with_ExpireAt; [exact Hwf | apply in_int64_Set_expiry]).
  pose proof (GetString_reads_back txn1 (key s) o1 v now t' Hf1 Hkv Hwf1 Ht He
                Hlive) as HG.
  eexists _, _, _, _. split; [exact HS|]. split; [exact HG|].
  split; [reflexivity|]. split; [|reflexivity].
  unfold Get, Exist. cbn [Meta Value]. now destruct (String.eqb v "").
Qed.

Lemma Set_then_GetString_witness :
  ∃ s1 txn1 s2 txn2,
    Set_ (NewString "s" 50 Sample.id0) (Some "v") [50] 50
      (new_txn Sample.db0 ∅) = (Ok s1, txn1)
    ∧ GetString "s" 60 70 txn1 = (Ok s2, txn2)
    ∧ Obj (Meta s2)
      = with_UpdatedAt 60
          (with_ExpireAt (Set_expiry [50] 50)
             (Obj (Meta (NewString "s" 50 Sample.id0))))
    ∧ Get s2 = Ok (Some "v")
    ∧ kv txn2 = kv txn1.
Proof.
  apply (Set_then_GetString (NewString "s" 50 Sample.id0) "v" [50] 50 60 70
           (new_txn Sample.db0 ∅)).
  - reflexivity.
  - wf_closed.
  - reflexivity.
  - reflexivity.
  - right. vm_compute. discriminate.
Defined.

(** X2 ([db/string.go], [Append], [encode], [GetString], [decode]).
    [Append] returns the length of the old value plus the length of the
    appended bytes, and the value [GetString] then reads in the same
    transaction is the old value followed by the appended bytes, with no
    expiry in the header. *)
Theorem Append_then_GetString (s : String_) (value : string) (now t' : Z)
    (txn : Transaction) :
  fault txn = no_fault →
  wf_Object (Obj (Meta s)) →
  Type_ (Obj (Meta s)) = ObjectString →
  Encoding (Obj (Meta s)) = ObjectEncodingRaw →
  ∃ s1 n txn1 s2 txn2,
    Append s value txn = (Ok (s1, n), txn1)
    ∧ n = Len_ s + Bytes.len value
    ∧ GetString (key s) now t' txn1 = (Ok s2, txn2)
    ∧ bytes_of (Value (Meta s2)) = bytes_of (Value (Meta s)) +:+ value
    ∧ ExpireAt (Obj (Meta s2)) = 0.
Proof.
  intros Hf Hwf Ht He.
  destruct (Append_only_sets_meta s value txn Hf) as (s1 & n & HA & _).
  pose proof HA as HA'. unfold Append, bind, get_db, txn_Set, ret in HA'.
  rewrite Hf in HA'. cbn [no_fault] in HA'.
  injection HA' as Hs1 Hn.
  assert (Hbytes : bytes_of (go_append (Value (Meta s)) value)
                   = bytes_of (Value (Meta s)) +:+ value).
  { unfold go_append. destruct (Value (Meta s)) as [b|]; [reflexivity|].
    destruct value; reflexivity. }
  set (txn1 := record _ _ txn) in HA.
  assert (Hf1 : fault txn1 = no_fault) by exact Hf.
  assert (Hkv : kv txn1 !! MetaKey (db txn1) (key s)
                = Some (EncodeObject (with_ExpireAt 0 (Obj (Meta s)))
                        +:+ (bytes_of (Value (Meta s)) +:+ value))).
  { unfold txn1. cbn [kv db record]. rewrite lookup_insert_eq.
    rewrite <- Hs1. unfold encode. cbn [set_Obj set_Value Meta Obj Value].
    now rewrite Hbytes. }
  pose proof (GetString_reads_back txn1 (key s) _ _ now t' Hf1 Hkv
                (wf_with_ExpireAt _ 0 Hwf in_int64_0) Ht He
                (or_introl eq_refl)) as HG.
  eexists _, _, _, _, _. split; [exact HA|].
  split.
  { rewrite <- Hn. cbn [set_Obj set_Value Meta Obj Value]. rewrite Hbytes.
    unfold Len_. apply len_app. }
  split; [exact HG|]. cbn [Meta Obj Value with_UpdatedAt ExpireAt].
  split; [|reflexivity].
  destruct (String.eqb_spec (bytes_of (Value (Meta s)) +:+ value) "") as [E|E];
    cbn [bytes_of default]; [now rewrite E | reflexivity].
Qed.

Lemma Append_then_GetString_witness :
  let s := set_Value (Some "hello") (NewString "s" 50 Sample.id0) in
  ∃ s1 n txn1 s2 txn2,
    Append s " world" (new_txn Sample.db0 ∅) = (Ok (s1, n), txn1)
    ∧ n = Len_ s + Bytes.len " world"
    ∧ GetString (key s) 60 70 txn1 = (Ok s2, txn2)
    ∧ bytes_of (Value (Meta s2)) = bytes_of (Value (Meta s)) +:+ " world"
    ∧ ExpireAt (Obj (Meta s2)) = 0.
Proof.
  apply (Append_then_GetString
           (set_Value (Some "hello") (NewString "s" 50 Sample.id0))
           " world" 60 70 (new_txn Sample.db0 ∅)).
  - reflexivity.
  - wf_closed.
  - reflexivity.
  - reflexivity.
Defined.

(** The entry of the expire index for another timestamp than the one looked
    up is another key. *)
Lemma expireKey_ne (mkey : string) (a b : Z) :
  in_int64 a → in_int64 b → a ≠ b → expireKey mkey a ≠ expireKey mkey b.
Proof. intros Ha Hb Hne H. apply Hne. eapply expireKey_inj; eauto. Qed.

(** Deleting the entry of the old expiry leaves an index that held that
    entry alone without an entry for the meta key. *)
Lemma expire_index_delete_old (m : gmap string string) (mkey : string)
    (obj : Object) (ts : Z) :
  expire_index_ok m mkey obj → in_int64 ts →
  delete (expireKey mkey (ExpireAt obj)) m !! expireKey mkey ts = None.
Proof.
  intros Hok Hts.
  destruct (decide (expireKey mkey ts = expireKey mkey (ExpireAt obj)))
    as [->|Hne]; [apply lookup_delete_eq|].
  rewrite lookup_delete_ne by congruence. rewrite (Hok ts Hts).
  destruct (Z.eqb_spec ts (ExpireAt obj)) as [->|_]; [congruence|].
  now rewrite andb_false_r.
Qed.

Lemma expire_index_none (m : gmap string string) (mkey : string)
    (obj : Object) (ts : Z) :
  expire_index_ok m mkey obj → (0 <? ExpireAt obj) = false → in_int64 ts →
  m !! expireKey mkey ts = None.
Proof. intros Hok Hz Hts. rewrite (Hok ts Hts), Hz. reflexivity. Qed.

(** An index without an entry for the meta key, after the entry of a new
    expiry is written when that expiry is positive, and after the meta key
    itself is written. *)
Lemma expire_index_after (m : gmap string string) (mkey v : string)
    (obj : Object) :
  (∀ ts, in_int64 ts → m !! expireKey mkey ts = None) →
  in_int64 (ExpireAt obj) →
  expire_index_ok
    (<[mkey := v]>
       (if 0 <? ExpireAt obj
        then <[expireKey mkey (ExpireAt obj) := ID obj]> m else m))
    mkey obj.
Proof.
  intros Hnone Hin ts Hts.
  rewrite lookup_insert_ne by (apply not_eq_sym, expireKey_neq_mkey).
  destruct (0 <? ExpireAt obj); cbn [andb]; [|now apply Hnone].
  destruct (Z.eqb_spec ts (ExpireAt obj)) as [->|Hne].
  - apply lookup_insert_eq.
  - rewrite lookup_insert_ne by (apply expireKey_ne; auto).
    now apply Hnone.
Qed.

(** X3 ([db/string.go], [Set]; [db/expire.go], [expireAt], [unExpireAt],
    [expireKey]). [Set] keeps the expire index in step with the header: if,
    before the call, the only entry of the index for the key is the one of
    the expiry in the header, then the same holds after the call for the new
    header, whether the call sets an expiry, replaces one or clears it. *)
Theorem Set_keeps_expire_index (s : String_) (val : option string)
    (expire : list Z) (timestamp : Z) (txn : Transaction) :
  fault txn = no_fault →
  expire_index_ok (kv txn) (MetaKey (db txn) (key s)) (Obj (Meta s)) →
  ∃ s' txn',
    Set_ s val expire timestamp txn = (Ok s', txn')
    ∧ ExpireAt (Obj (Meta s')) = Set_expiry expire timestamp
    ∧ expire_index_ok (kv txn') (MetaKey (db txn) (key s)) (Obj (Meta s')).
Proof.
  intros Hf Hok.
  set (mkey := MetaKey (db txn) (key s)) in *.
  set (o := Obj (Meta s)) in *.
  assert (Hdel : ∀ ts, in_int64 ts →
            delete (expireKey mkey (ExpireAt o)) (kv txn) !! expireKey mkey ts
            = None)
    by (intros ts; now apply expire_index_delete_old).
  assert (Hkeep : (0 <? ExpireAt o) = false →
            ∀ ts, in_int64 ts → kv txn !! expireKey mkey ts = None)
    by (intros Hz ts; now apply (expire_index_none _ _ o)).
  assert (Hclear : ∀ v m,
    (∀ ts, in_int64 ts → m !! expireKey mkey ts = None) →
    expire_index_ok (<[mkey := v]> m) mkey (with_ExpireAt 0 o)).
  { intros v m Hm.
    exact (expire_index_after m mkey v (with_ExpireAt 0 o) Hm in_int64_0). }
  assert (Hunset : ∃ s' txn',
    (s0 <~ (ignore_error (unExpireAt mkey (ExpireAt o)) ;;;
            ret (set_Obj (with_ExpireAt 0) s)) ;;
     txn_Set mkey (encode (set_Value val s0)) ;;; ret (set_Value val s0)) txn
    = (Ok s', txn')
    ∧ ExpireAt (Obj (Meta s')) = 0
    ∧ expire_index_ok (kv txn') mkey (Obj (Meta s'))).
  { unfold ignore_error, unExpireAt.
    destruct (Z.eqb_spec (ExpireAt o) 0) as [Hz|Hnz]; run_txn Hf;
      (eexists _, _; split; [reflexivity|]; split; [reflexivity|]);
      cbn [kv record set_Value set_Obj Meta Obj]; apply Hclear.
    - apply Hkeep. rewrite Hz. reflexivity.
    - exact Hdel. }
  unfold Set_, Set_expiry. unfold bind at 1, get_db at 1. fold mkey.
  destruct expire as [|e0 more]; [exact Hunset|].
  destruct (Z.ltb_spec 0 e0) as [He0|He0]; [|exact Hunset].
  set (new := wrap64 (timestamp + e0)).
  cbn [set_Obj with_ExpireAt Meta Obj ExpireAt ID Type_]. fold o.
  unfold expireAt.
  assert (Hnew : in_int64 new) by apply wrap64_range.
  destruct (Z.ltb_spec 0 (ExpireAt o)) as [Hold|Hold];
    destruct (0 <? new) eqn:Hn; run_txn Hf;
    (eexists _, _; split; [reflexivity|]; split; [reflexivity|]);
    cbn [kv record set_Value set_Obj Meta Obj].
  - pose proof (expire_index_after _ mkey (encode
        (set_Value val
           {| Meta := {| Obj := with_ExpireAt new o; Value := Value (Meta s) |};
              key := key s |})) (with_ExpireAt new o) Hdel Hnew) as H.
    cbn [with_ExpireAt ExpireAt ID] in H. rewrite Hn in H. exact H.
  - pose proof (expire_index_after _ mkey (encode
        (set_Value val
           {| Meta := {| Obj := with_ExpireAt new o; Value := Value (Meta s) |};
              key := key s |})) (with_ExpireAt new o) Hdel Hnew) as H.
    cbn [with_ExpireAt ExpireAt ID] in H. rewrite Hn in H. exact H.
  - pose proof (expire_index_after _ mkey (encode
        (set_Value val
           {| Meta := {| Obj := with_ExpireAt new o; Value := Value (Meta s) |};
              key := key s |})) (with_ExpireAt new o) (Hkeep eq_refl) Hnew) as H.
    cbn [with_ExpireAt ExpireAt ID] in H. rewrite Hn in H. exact H.
  - pose proof (expire_index_after _ mkey (encode
        (set_Value val
           {| Meta := {| Obj := with_ExpireAt new o; Value := Value (Meta s) |};
              key := key s |})) (with_ExpireAt new o) (Hkeep eq_refl) Hnew) as H.
    cbn [with_ExpireAt ExpireAt ID] in H. rewrite Hn in H. exact H.
Qed.

Lemma Set_keeps_expire_index_witness :
  let s := {| Meta := {| Obj := Sample.expiring_obj; Value := Some "v" |};
              key := "s" |} in
  let txn := new_txn Sample.db0
               {[ expireKey (MetaKey Sample.db0 "s") 100 := Sample.id0 ]} in
  ∃ s' txn',
    Set_ s (Some "w") [] 60 txn = (Ok s', txn')
    ∧ ExpireAt (Obj (Meta s')) = Set_expiry [] 60
    ∧ expire_index_ok (kv txn') (MetaKey (db txn) (key s)) (Obj (Meta s')).
Proof.
  apply (Set_keeps_expire_index
           {| Meta := {| Obj := Sample.expiring_obj; Value := Some "v" |};
              key := "s" |} (Some "w") [] 60
           (new_txn Sample.db0
              {[ expireKey (MetaKey Sample.db0 "s") 100 := Sample.id0 ]})).
  - reflexivity.
  - intros ts Hts. cbn [new_txn kv db key Meta Obj].
    change (ExpireAt Sample.expiring_obj) with 100.
    change (ID Sample.expiring_obj) with Sample.id0.
    change (0 <? 100) with true. cbn [andb].
    destruct (Z.eqb_spec ts 100) as [->|Hne].
    + apply lookup_singleton_eq.
    + apply lookup_singleton_ne. apply expireKey_ne; [| exact Hts | auto].
      unfold in_int64, two63. lia.
Defined.

(** X4 ([db/string.go], [Incr], [Set]). On a string whose value is a decimal
    [int64] (an absent value counts as 0) [Incr] returns the sum of the value
    and the increment, wrapped as [int64] addition wraps; it stores the
    decimal digits of the sum, which read back as the sum, so increments
    chain; and, like [Set] without an expiry, it leaves no expiry in the
    header. *)
Theorem Incr_adds (s : String_) (n delta timestamp : Z) (txn : Transaction) :
  fault txn = no_fault →
  int_value s = Some n →
  in_int64 delta →
  ∃ s' txn',
    Incr s delta timestamp txn = (Ok (wrap64 (n + delta), s'), txn')
    ∧ Value (Meta s') = Some (FormatInt (wrap64 (n + delta)))
    ∧ int_value s' = Some (wrap64 (n + delta))
    ∧ ExpireAt (Obj (Meta s')) = 0
    ∧ kv txn' !! MetaKey (db txn) (key s) = Some (encode s').
Proof.
  intros Hf Hn Hd. unfold Incr. unfold int_value in Hn.
  set (r := wrap64 (n + delta)).
  assert (Hr : (match Value (Meta s) with
                | Some v => match ParseInt v with
                            | None => Err ErrInteger
                            | Some v0 => Ok (wrap64 (v0 + delta))
                            end
                | None => Ok delta
                end) = Ok r).
  { destruct (Value (Meta s)) as [v|].
    - now rewrite Hn.
    - injection Hn as <-. unfold r. now rewrite Z.add_0_l, wrap64_id. }
  rewrite Hr.
  destruct (Set_stores s (Some (FormatInt r)) [] timestamp txn Hf)
    as (txn' & HS & _ & _ & Hkv).
  cbv zeta in HS, Hkv. unfold bind. rewrite HS. unfold ret.
  eexists _, _. split; [reflexivity|].
  split; [reflexivity|]. split; [|split; [reflexivity | exact Hkv]].
  unfold int_value. cbn [set_Value Meta Value].
  apply ParseInt_FormatInt, wrap64_range.
Qed.

Lemma Incr_adds_witness :
  let s := set_Value (Some "9223372036854775807")
             (NewString "n" 50 Sample.id0) in
  ∃ s' txn',
    Incr s 1 60 (new_txn Sample.db0 ∅)
    = (Ok (wrap64 (9223372036854775807 + 1), s'), txn')
    ∧ Value (Meta s') = Some (FormatInt (wrap64 (9223372036854775807 + 1)))
    ∧ int_value s' = Some (wrap64 (9223372036854775807 + 1))
    ∧ ExpireAt (Obj (Meta s')) = 0
    ∧ kv txn' !! MetaKey (db (new_txn Sample.db0 ∅)) (key s)
      = Some (encode s').
Proof.
  apply (Incr_adds
           (set_Value (Some "9223372036854775807")
              (NewString "n" 50 Sample.id0))
           9223372036854775807 1 60 (new_txn Sample.db0 ∅)).
  - reflexivity.
  - vm_compute. reflexivity.
  - unfold in_int64, two63. lia.
Defined.

(** X5 ([db/string.go], [Incr]). When the value is present and is not a
    decimal [int64] (the empty value included), [Incr] fails with the
    not-an-integer error before it touches the store: the transaction is
    left exactly as it was. *)
Theorem Incr_rejects_non_integer (s : String_) (v : string)
    (delta timestamp : Z) (txn : Transaction) :
  Value (Meta s) = Some v →
  ParseInt v = None →
  Incr s delta timestamp txn = (Err ErrInteger, txn).
Proof. intros Hv Hp. unfold Incr. rewrite Hv, Hp. reflexivity. Qed.

Lemma Incr_rejects_non_integer_witness :
  Incr (set_Value (Some "") (NewString "n" 50 Sample.id0)) 1 60
    (new_txn Sample.db0 ∅)
  = (Err ErrInteger, new_txn Sample.db0 ∅)
  ∧ Incr (set_Value (Some "12a") (NewString "n" 50 Sample.id0)) 1 60
      (new_txn Sample.db0 ∅)
    = (Err ErrInteger, new_txn Sample.db0 ∅)
  ∧ Incr (set_Value (Some "9223372036854775808")
            (NewString "n" 50 Sample.id0)) 1 60 (new_txn Sample.db0 ∅)
    = (Err ErrInteger, new_txn Sample.db0 ∅).
Proof.
  split; [|split].
  - apply (Incr_rejects_non_integer
             (set_Value (Some "") (NewString "n" 50 Sample.id0)) "");
      reflexivity.
  - apply (Incr_rejects_non_integer
             (set_Value (Some "12a") (NewString "n" 50 Sample.id0)) "12a");
      reflexivity.
  - apply (Incr_rejects_non_integer
             (set_Value (Some "9223372036854775808")
                (NewString "n" 50 Sample.id0)) "9223372036854775808");
      [reflexivity | vm_compute; reflexivity].
Defined.

(** A value written by [Set] without an expiry, read back in the same
    transaction. *)
Lemma Set_read_back (s : String_) (v : string) (timestamp now t' : Z)
    (txn : Transaction) :
  fault txn = no_fault →
  wf_Object (Obj (Meta s)) →
  Type_ (Obj (Meta s)) = ObjectString →
  Encoding (Obj (Meta s)) = ObjectEncodingRaw →
  ∃ s1 txn1 s2 txn2,
    Set_ s (Some v) [] timestamp txn = (Ok s1, txn1)
    ∧ ExpireAt (Obj (Meta s1)) = 0
    ∧ GetString (key s) now t' txn1 = (Ok s2, txn2)
    ∧ Value (Meta s2) = (if String.eqb v "" then None else Some v).
Proof.
  intros Hf Hwf Ht He.
  destruct (Set_stores s (Some v) [] timestamp txn Hf)
    as (txn1 & HS & Hdb & Hf1 & Hkv).
  cbv zeta in HS, Hkv. rewrite <- Hdb in Hkv.
  pose proof (GetString_reads_back txn1 (key s)
                (with_ExpireAt 0 (Obj (Meta s))) v now t' Hf1 Hkv
                (wf_with_ExpireAt _ 0 Hwf in_int64_0) Ht He
                (or_introl eq_refl)) as HG.
  eexists _, _, _, _. split; [exact HS|]. split; [reflexivity|].
  split; [exact HG|]. reflexivity.
Qed.

(** X6 ([db/string.go], [SetRange], [Set]). [SetRange] does not use its
    offset: whatever the offset and the old value, the value read afterwards
    is the argument alone, as after [Set] without an expiry. *)
Theorem SetRange_replaces_value (s : String_) (offset : Z) (v : string)
    (timestamp now t' : Z) (txn : Transaction) :
  fault txn = no_fault →
  wf_Object (Obj (Meta s)) →
  Type_ (Obj (Meta s)) = ObjectString →
  Encoding (Obj (Meta s)) = ObjectEncodingRaw →
  ∃ s1 txn1 s2 txn2,
    SetRange s offset (Some v) timestamp txn = (Ok s1, txn1)
    ∧ GetString (key s) now t' txn1 = (Ok s2, txn2)
    ∧ Value (Meta s2) = (if String.eqb v "" then None else Some v).
Proof.
  intros Hf Hwf Ht He.
  destruct (Set_read_back s v timestamp now t' txn Hf Hwf Ht He)
    as (s1 & txn1 & s2 & txn2 & HS & _ & HG & Hv).
  exists s1, txn1, s2, txn2. unfold SetRange. auto.
Qed.

Lemma SetRange_replaces_value_witness :
  let s := set_Value (Some "hello") (NewString "s" 50 Sample.id0) in
  ∃ s1 txn1 s2 txn2,
    SetRange s 3 (Some "XY") 60 (new_txn Sample.db0 ∅) = (Ok s1, txn1)
    ∧ GetString (key s) 70 80 txn1 = (Ok s2, txn2)
    ∧ Value (Meta s2) = Some "XY".
Proof.
  apply (SetRange_replaces_value
           (set_Value (Some "hello") (NewString "s" 50 Sample.id0)) 3 "XY"
           60 70 80 (new_txn Sample.db0 ∅)).
  - reflexivity.
  - wf_closed.
  - reflexivity.
  - reflexivity.
Defined.

(** X7 ([db/string.go], [GetSet], [Set]). [GetSet] returns the value the
    object had before the call ([nil] for an absent key), stores the new
    value so that it is what is read afterwards, and leaves no expiry in the
    header. *)
Theorem GetSet_returns_old_value (s : String_) (v : string)
    (timestamp now t' : Z) (txn : Transaction) :
  fault txn = no_fault →
  wf_Object (Obj (Meta s)) →
  Type_ (Obj (Meta s)) = ObjectString →
  Encoding (Obj (Meta s)) = ObjectEncodingRaw →
  ∃ s1 txn1 s2 txn2,
    GetSet s (Some v) timestamp txn = (Ok (Value (Meta s), s1), txn1)
    ∧ ExpireAt (Obj (Meta s1)) = 0
    ∧ GetString (key s) now t' txn1 = (Ok s2, txn2)
    ∧ Value (Meta s2) = (if String.eqb v "" then None else Some v).
Proof.
  intros Hf Hwf Ht He.
  destruct (Set_read_back s v timestamp now t' txn Hf Hwf Ht He)
    as (s1 & txn1 & s2 & txn2 & HS & Hx & HG & Hv).
  exists s1, txn1, s2, txn2. unfold GetSet, bind. rewrite HS. auto.
Qed.

Lemma GetSet_returns_old_value_witness :
  let s := set_Value (Some "old") (NewString "s" 50 Sample.id0) in
  ∃ s1 txn1 s2 txn2,
    GetSet s (Some "new") 60 (new_txn Sample.db0 ∅)
    = (Ok (Value (Meta s), s1), txn1)
    ∧ ExpireAt (Obj (Meta s1)) = 0
    ∧ GetString (key s) 70 80 txn1 = (Ok s2, txn2)
    ∧ Value (Meta s2) = Some "new".
Proof.
  apply (GetSet_returns_old_value
           (set_Value (Some "old") (NewString "s" 50 Sample.id0)) "new"
           60 70 80 (new_txn Sample.db0 ∅)).
  - reflexivity.
  - wf_closed.
  - reflexivity.
  - reflexivity.
Defined.

(** ** GETRANGE from the first byte *)

(** [GetRange] and its specification resolve a negative end against the
    length before anything else. *)
Lemma GetRange_negative_end (s : String_) (spare : string) (start e : Z) :
  e < 0 → 0 <= Len_ s + e →
  GetRange s spare start e = GetRange s spare start (Len_ s + e).
Proof.
  intros Hneg Hpos. unfold GetRange, Len_ in *.
  set (vlen := Bytes.len (bytes_of (Value (Meta s)))) in *.
  assert (H1 : (e <? 0) = true) by (apply Z.ltb_lt; lia).
  assert (H2 : (vlen + e <? 0) = false) by (apply Z.ltb_ge; lia).
  cbv zeta. rewrite H1, !H2. reflexivity.
Qed.

Lemma getrange_spec_negative_end (v : string) (start e : Z) :
  e < 0 → 0 <= Bytes.len v + e →
  getrange_spec v start e = getrange_spec v start (Bytes.len v + e).
Proof.
  intros Hneg Hpos. unfold getrange_spec.
  assert (H1 : (e <? 0) = true) by (apply Z.ltb_lt; lia).
  assert (H2 : (Bytes.len v + e <? 0) = false) by (apply Z.ltb_ge; lia).
  cbv zeta. rewrite H1, !H2. reflexivity.
Qed.

(** X8 ([db/string.go], [GetRange]). From the first byte [GetRange] is
    right: with start 0 and an end that resolves to a position inside the
    value (counted from the front, or from the back when negative), the
    result is the bytes of the value up to and including that position,
    whatever the spare capacity of the slice. *)
Theorem GetRange_from_start (s : String_) (v spare : string) (e : Z) :
  Value (Meta s) = Some v →
  - Bytes.len v <= e < Bytes.len v →
  GetRange s spare 0 e = Ok (Some (getrange_spec v 0 e)).
Proof.
  intros Hv He.
  assert (Hsame : ∀ e', GetRange s spare 0 e'
            = GetRange (set_Value (Some v) (NewString "s" 0 "")) spare 0 e').
  { intros e'. unfold GetRange. now rewrite Hv. }
  destruct (Z.lt_ge_cases e 0) as [Hneg|Hpos].
  - assert (HL : Len_ s = Bytes.len v) by (unfold Len_; now rewrite Hv).
    rewrite GetRange_negative_end by (rewrite ?HL; lia). rewrite HL.
    rewrite getrange_spec_negative_end by lia.
    rewrite Hsame. apply GetRange_from_zero. lia.
  - rewrite Hsame. apply GetRange_from_zero. lia.
Qed.

Lemma GetRange_from_start_witness :
  GetRange (set_Value (Some "hello") (NewString "s" 50 Sample.id0)) "" 0 (-1)
  = Ok (Some (getrange_spec "hello" 0 (-1)))
  ∧ getrange_spec "hello" 0 (-1) = "hello".
Proof.
  split.
  - apply (GetRange_from_start
             (set_Value (Some "hello") (NewString "s" 50 Sample.id0))
             "hello" "" (-1)).
    + reflexivity.
    + vm_compute. split; [discriminate | reflexivity].
  - reflexivity.
Defined.

(** ** The keys of the expire index *)

Lemma length_sprintf_04d (n : Z) : String.length (Bytes.sprintf_04d n) = 4%nat.
Proof. reflexivity. Qed.

Lemma digit_not_colon (d : Z) : Bytes.digit d ≠ ":"%char.
Proof.
  unfold Bytes.digit. pose proof (Z.mod_pos_bound d 10 ltac:(lia)) as H.
  generalize dependent (d mod 10). intros r Hr.
  assert (Hc : r = 0 ∨ r = 1 ∨ r = 2 ∨ r = 3 ∨ r = 4 ∨ r = 5 ∨ r = 6
               ∨ r = 7 ∨ r = 8 ∨ r = 9) by lia.
  clear Hr. intros E.
  repeat (destruct Hc as [Hc|Hc]; [subst r; vm_compute in E; discriminate E|]).
  subst r. vm_compute in E. discriminate E.
Qed.

(** X9 ([db/expire.go], [expireKey], [runExpire]). The offsets [runExpire]
    uses for a hashed bucket invert [expireKey]: the key lies under the
    prefix of the bucket its meta key hashes to, the eight bytes at the
    timestamp offset decode to the timestamp, and the bytes from the meta-key
    offset on are the meta key. The key does not lie under the prefix of the
    worker without a bucket. *)
Theorem expireKey_parsed_by_runExpire (mkey : string) (ts : Z) :
  in_int64 ts →
  let h := expireHashOf mkey in
  let k := expireKey mkey ts in
  Bytes.has_prefix k (hashExpireKeyPrefix +:+ h +:+ ":") = true
  ∧ (∃ b, Bytes.slice k (expireTimestampOffset + Bytes.len h)
            (expireTimestampOffset + Bytes.len h + 8) = Some b
          ∧ DecodeInt64 b = ts)
  ∧ Bytes.slice_from k (expireMetakeyOffset + Bytes.len h) = Some mkey
  ∧ Bytes.has_prefix k expireKeyPrefix = false.
Proof.
  intros Hts h k. unfold k, expireKey. fold (expireHashOf mkey). fold h.
  assert (Lh : Bytes.len h = 4) by reflexivity.
  split; [|split; [|split]].
  - unfold Bytes.has_prefix.
    replace (hashExpireKeyPrefix +:+ h +:+ ":" +:+ EncodeInt64 ts +:+ ":" +:+ mkey)
      with ((hashExpireKeyPrefix +:+ h +:+ ":")
            +:+ EncodeInt64 ts +:+ ":" +:+ mkey)
      by (now rewrite !app_assoc').
    apply prefix_app_r.
  - exists (EncodeInt64 ts). split; [|now apply DecodeInt64_EncodeInt64].
    pose proof (slice_middle (hashExpireKeyPrefix +:+ h +:+ ":")
                  (EncodeInt64 ts) (":" +:+ mkey)) as H.
    rewrite !app_assoc' in H. rewrite !len_app, len_EncodeInt64, Lh in H.
    rewrite Lh. exact H.
  - pose proof (slice_from_app
                  (hashExpireKeyPrefix +:+ h +:+ ":" +:+ EncodeInt64 ts +:+ ":")
                  mkey) as H.
    rewrite !app_assoc' in H. rewrite !len_app, len_EncodeInt64, Lh in H.
    rewrite Lh. exact H.
  - unfold Bytes.has_prefix, h, expireHashOf, Bytes.sprintf_04d.
    set (c := Bytes.digit _).
    change expireKeyPrefix with (hashExpireKeyPrefix +:+ ":").
    rewrite prefix_app. cbn [String.append String.prefix].
    destruct (ascii_dec ":" c) as [E|_]; [|reflexivity].
    exfalso. symmetry in E. revert E. apply digit_not_colon.
Qed.

Lemma expireKey_parsed_by_runExpire_witness :
  let mkey := MetaKey Sample.db0 "k" in
  let h := expireHashOf mkey in
  let k := expireKey mkey 100 in
  Bytes.has_prefix k (hashExpireKeyPrefix +:+ h +:+ ":") = true
  ∧ (∃ b, Bytes.slice k (expireTimestampOffset + Bytes.len h)
            (expireTimestampOffset + Bytes.len h + 8) = Some b
          ∧ DecodeInt64 b = 100)
  ∧ Bytes.slice_from k (expireMetakeyOffset + Bytes.len h) = Some mkey
  ∧ Bytes.has_prefix k expireKeyPrefix = false.
Proof.
  apply (expireKey_parsed_by_runExpire (MetaKey Sample.db0 "k") 100).
  unfold in_int64, two63. lia.
Defined.

(** ** The reaper on one entry *)

(** X10 ([db/expire.go], [doExpire], [gcDataKey]). An entry of the expire
    index whose meta key is gone (the object was deleted, copied over or
    flushed) makes [doExpire] hand the data prefix of the id in the entry
    over to the garbage collection; it reads the meta key and changes
    nothing in the store. *)
Theorem doExpire_missing_meta (txn : Transaction) (K id : string)
    (expireAt : Z) :
  let d := db txn in
  let mkey := MetaKey d K in
  wf_DB d →
  fault txn = no_fault →
  kv txn !! mkey = None →
  ∃ txn',
    doExpire mkey id expireAt txn = (Ok tt, txn')
    ∧ kv txn' = kv txn
    ∧ trace txn'
      = trace txn ++ [OpGet mkey; OpGc (DataKey d id)].
Proof.
  intros d mkey Hwf Hf Hkv.
  unfold doExpire. fold mkey. unfold mkey at 1.
  rewrite (splitMetaKey_MetaKey d K Hwf). fold mkey.
  unfold getObject, bind, txn_Get. rewrite Hf. cbn [no_fault].
  rewrite Hkv. cbn [fail]. unfold gcDataKey, gc. cbn [fault record].
  rewrite Hf. cbn [no_fault]. eexists. split; [reflexivity|].
  cbn [kv trace record]. split; [reflexivity|].
  now rewrite <- app_assoc.
Qed.

Lemma doExpire_missing_meta_witness :
  ∃ txn',
    doExpire (MetaKey Sample.db0 "gone") Sample.id0 100
      (new_txn Sample.db0 ∅) = (Ok tt, txn')
    ∧ kv txn' = kv (new_txn Sample.db0 ∅)
    ∧ trace txn'
      = trace (new_txn Sample.db0 ∅)
        ++ [OpGet (MetaKey Sample.db0 "gone");
            OpGc (DataKey Sample.db0 Sample.id0)].
Proof.
  apply (doExpire_missing_meta (new_txn Sample.db0 ∅) "gone" Sample.id0 100).
  - split; [reflexivity | vm_compute; split; [discriminate | reflexivity]].
  - reflexivity.
  - reflexivity.
Defined.

(** [doExpire] up to the comparison of the expiry, on an entry that carries
    the id of the stored object. *)
Lemma doExpire_same_id (txn : Transaction) (K id b : string) (obj : Object)
    (expireAt : Z) :
  let d := db txn in
  let mkey := MetaKey d K in
  wf_DB d →
  fault txn = no_fault →
  kv txn !! mkey = Some b →
  DecodeObject b = Ok obj →
  ID obj = id →
  doExpire mkey id expireAt txn
  = (if negb (ExpireAt obj =? expireAt) then ret tt
     else txn_Delete mkey ;;;
          if Type_ obj =? ObjectString then ret tt
          else gcDataKey (Namespace d) (DB_ID d) (":" +:+ K) id)
      (record (OpGet mkey) (kv txn) txn).
Proof.
  intros d mkey Hwf Hf Hkv Hdec Hid.
  pose proof (length_ID_DecodeObject b obj Hdec) as Hlen.
  unfold doExpire. fold mkey. unfold mkey at 1.
  rewrite (splitMetaKey_MetaKey d K Hwf). fold mkey.
  unfold getObject, bind at 1, txn_Get. rewrite Hf. cbn [no_fault].
  rewrite Hkv, Hdec. cbn [ret]. rewrite Hlen.
  replace (16 <? String.length id)%nat with false
    by (symmetry; apply Nat.ltb_ge; rewrite <- Hid, Hlen; lia).
  replace (String.eqb (ID obj) id) with true
    by (symmetry; now apply String.eqb_eq).
  reflexivity.
Qed.

(** X11 ([db/expire.go], [doExpire]). An entry of the expire index that
    carries the id and the expiry of the stored object expires it:
    [doExpire] deletes the meta key; for a string, whose value lives in the
    meta entry, that is all, and for any other type the data prefix of the
    id is handed over to the garbage collection. *)
Theorem doExpire_expires_object (txn : Transaction) (K id b : string)
    (obj : Object) (expireAt : Z) :
  let d := db txn in
  let mkey := MetaKey d K in
  wf_DB d →
  fault txn = no_fault →
  kv txn !! mkey = Some b →
  DecodeObject b = Ok obj →
  ID obj = id →
  ExpireAt obj = expireAt →
  ∃ txn',
    doExpire mkey id expireAt txn = (Ok tt, txn')
    ∧ kv txn' = delete mkey (kv txn)
    ∧ trace txn'
      = trace txn ++ [OpGet mkey; OpDelete mkey]
        ++ (if Type_ obj =? ObjectString then []
            else [OpGc (DataKey d id)]).
Proof.
  intros d mkey Hwf Hf Hkv Hdec Hid Hexp.
  pose proof (doExpire_same_id txn K id b obj expireAt Hwf Hf Hkv Hdec Hid)
    as E.
  cbv zeta in E. subst d mkey. rewrite E. clear E.
  set (mkey := MetaKey (db txn) K). rewrite Hexp, Z.eqb_refl. cbn [negb].
  unfold bind, txn_Delete. cbn [fault record]. rewrite Hf. cbn [no_fault].
  destruct (Type_ obj =? ObjectString).
  - eexists. split; [reflexivity|]. cbn [kv trace record].
    split; [reflexivity|]. now rewrite <- !app_assoc.
  - unfold gcDataKey, gc. cbn [fault record]. rewrite Hf. cbn [no_fault].
    eexists. split; [reflexivity|]. cbn [kv trace record].
    split; [reflexivity|]. now rewrite <- !app_assoc.
Qed.

Lemma doExpire_expires_object_witness :
  let txn := Sample.expiring_txn in
  ∃ txn',
    doExpire (MetaKey Sample.db0 "s") Sample.id0 100 txn = (Ok tt, txn')
    ∧ kv txn' = delete (MetaKey Sample.db0 "s") (kv txn)
    ∧ trace txn'
      = trace txn
        ++ [OpGet (MetaKey Sample.db0 "s"); OpDelete (MetaKey Sample.db0 "s")]
        ++ (if Type_ Sample.expiring_obj =? ObjectString then []
            else [OpGc (DataKey Sample.db0 Sample.id0)]).
Proof.
  apply (doExpire_expires_object Sample.expiring_txn "s" Sample.id0
           Sample.expiring_meta Sample.expiring_obj 100).
  - split; [reflexivity | vm_compute; split; [discriminate | reflexivity]].
  - reflexivity.
  - vm_compute. reflexivity.
  - vm_compute. reflexivity.
  - reflexivity.
  - reflexivity.
Defined.

(** X12 ([db/expire.go], [doExpire]). An entry of the expire index whose
    timestamp is not the expiry in the header of the object it names leaves
    the object alone: [doExpire] reads the meta key and does nothing else.
    This is what keeps a key alive when an entry of an earlier expiry was
    left behind in the index. *)
Theorem doExpire_skips_other_expiry (txn : Transaction) (K id b : string)
    (obj : Object) (expireAt : Z) :
  let d := db txn in
  let mkey := MetaKey d K in
  wf_DB d →
  fault txn = no_fault →
  kv txn !! mkey = Some b →
  DecodeObject b = Ok obj →
  ID obj = id →
  ExpireAt obj ≠ expireAt →
  doExpire mkey id expireAt txn
  = (Ok tt, record (OpGet mkey) (kv txn) txn).
Proof.
  intros d mkey Hwf Hf Hkv Hdec Hid Hexp.
  pose proof (doExpire_same_id txn K id b obj expireAt Hwf Hf Hkv Hdec Hid)
    as E.
  cbv zeta in E. subst d mkey. rewrite E. clear E.
  replace (ExpireAt obj =? expireAt) with false
    by (symmetry; now apply Z.eqb_neq).
  reflexivity.
Qed.

Lemma doExpire_skips_other_expiry_witness :
  doExpire (MetaKey Sample.db0 "s") Sample.id0 99 Sample.expiring_txn
  = (Ok tt,
     record (OpGet (MetaKey Sample.db0 "s")) (kv Sample.expiring_txn)
       Sample.expiring_txn).
Proof.
  apply (doExpire_skips_other_expiry Sample.expiring_txn "s" Sample.id0
           Sample.expiring_meta Sample.expiring_obj 99).
  - split; [reflexivity | vm_compute; split; [discriminate | reflexivity]].
  - reflexivity.
  - vm_compute. reflexivity.
  - vm_compute. reflexivity.
  - reflexivity.
  - vm_compute. discriminate.
Defined.

(** ** What the reaper never does *)

Section Keeps.

Context (R : Transaction → Transaction → Prop).
Hypothesis Rrefl : ∀ t, R t t.
Hypothesis Rtrans : ∀ a b c, R a b → R b c → R a c.

Lemma keeps_ret {A} (a : A) : keeps R (ret a).
Proof. intros txn. apply Rrefl. Qed.

Lemma keeps_fail {A} (e : error) : keeps R (@fail A e).
Proof. intros txn. apply Rrefl. Qed.

Lemma keeps_bind {A B} (c : M A) (k : A → M B) :
  keeps R c → (∀ a, keeps R (k a)) → keeps R (bind c k).
Proof.
  intros Hc Hk txn. unfold bind. specialize (Hc txn).
  destruct (c txn) as [[a|e] txn1]; cbn [snd] in *; [|exact Hc].
  eapply Rtrans; [exact Hc | apply Hk].
Qed.

Hypothesis HGet : ∀ k, keeps R (txn_Get k).
Hypothesis HDelete : ∀ k, keeps R (txn_Delete k).
Hypothesis HGc : ∀ p, keeps R (gc p).
Hypothesis HIter : ∀ a b, keeps R (txn_Iter a b).
Hypothesis HNext : ∀ it, keeps R (iter_Next it).

Lemma keeps_getObject (mkey : string) : keeps R (getObject mkey).
Proof.
  unfold getObject. apply keeps_bind; [apply HGet|]. intros [b|].
  - destruct (DecodeObject b); [apply keeps_ret | apply keeps_fail].
  - apply keeps_fail.
Qed.

Lemma keeps_doExpire (mkey id : string) (expireAt : Z) :
  keeps R (doExpire mkey id expireAt).
Proof.
  unfold doExpire.
  destruct (splitMetaKey mkey) as [[[ns dbid] K]|]; [|apply keeps_fail].
  intros txn. pose proof (keeps_getObject mkey txn) as H1.
  destruct (getObject mkey txn) as [[obj|e] txn1]; cbn [snd] in H1.
  - eapply Rtrans; [exact H1|].
    destruct (negb (String.eqb (ID obj) _)); [apply HGc|].
    destruct (negb (ExpireAt obj =? expireAt)); [apply keeps_ret|].
    apply keeps_bind; [apply HDelete|]. intros _.
    destruct (Type_ obj =? ObjectString); [apply keeps_ret | apply HGc].
  - destruct e; try exact H1.
    eapply Rtrans; [exact H1 | apply HGc].
Qed.

Lemma keeps_runExpire_loop (pfx : string) (toff moff now : Z)
    (iter : Iterator) :
  ∀ st, keeps R (runExpire_loop pfx toff moff now iter st).
Proof.
  induction iter as [|[rawKey value] rest IH]; intros st; cbn [runExpire_loop].
  - apply keeps_ret.
  - destruct (negb _); [apply keeps_ret|].
    destruct (Bytes.slice rawKey toff (toff + 8)); [|apply keeps_fail].
    destruct (now <? _); [apply keeps_ret|].
    destruct (Bytes.slice_from rawKey moff); [|apply keeps_fail].
    apply keeps_bind; [apply keeps_doExpire|]. intros _.
    apply keeps_bind; [apply HDelete|]. intros _.
    apply keeps_bind; [apply HNext|]. intros _.
    apply IH.
Qed.

Lemma keeps_runExpire (batchLimit : Z) (expireHash : string)
    (lastExpireEndTs now : Z) :
  keeps R (runExpire batchLimit expireHash lastExpireEndTs now).
Proof.
  unfold runExpire. apply keeps_bind; [apply HIter|]. intros iter.
  apply keeps_bind; [apply keeps_runExpire_loop|]. intros st.
  apply keeps_ret.
Qed.

End Keeps.

(** The operations of the store other than [Set] add no entry. *)
Lemma no_new_entry_refl (t : Transaction) : no_new_entry t t.
Proof. unfold no_new_entry. reflexivity. Qed.

Lemma no_new_entry_trans (a b c : Transaction) :
  no_new_entry a b → no_new_entry b c → no_new_entry a c.
Proof. unfold no_new_entry. intros H1 H2. etransitivity; eauto. Qed.

(** The operations of the store whose kind satisfies [P] extend the trace by
    operations that satisfy [P]. *)
Lemma keeps_trace_Get (P : KvOp → Prop) (k : string) :
  P (OpGet k) → keeps (trace_ext P) (txn_Get k).
Proof.
  intros HP txn. unfold txn_Get. destruct (fault txn _); cbn [snd].
  - apply trace_ext_refl.
  - exists [OpGet k]. split; [reflexivity | now constructor].
Qed.

Lemma keeps_trace_Delete (P : KvOp → Prop) (k : string) :
  P (OpDelete k) → keeps (trace_ext P) (txn_Delete k).
Proof.
  intros HP txn. unfold txn_Delete. destruct (fault txn _); cbn [snd].
  - apply trace_ext_refl.
  - exists [OpDelete k]. split; [reflexivity | now constructor].
Qed.

Lemma keeps_trace_gc (P : KvOp → Prop) (p : string) :
  P (OpGc p) → keeps (trace_ext P) (gc p).
Proof.
  intros HP txn. unfold gc. destruct (fault txn _); cbn [snd].
  - apply trace_ext_refl.
  - exists [OpGc p]. split; [reflexivity | now constructor].
Qed.

Lemma keeps_trace_Iter (P : KvOp → Prop) (a : string) (b : option string) :
  P (OpIter a b) → keeps (trace_ext P) (txn_Iter a b).
Proof.
  intros HP txn. unfold txn_Iter. destruct (fault txn _); cbn [snd].
  - apply trace_ext_refl.
  - exists [OpIter a b]. split; [reflexivity | now constructor].
Qed.

Lemma keeps_trace_Next (P : KvOp → Prop) (it : Iterator) :
  (∀ k, P (OpNext k)) → keeps (trace_ext P) (iter_Next it).
Proof.
  intros HP txn. destruct it as [|e rest]; [apply trace_ext_refl|].
  unfold iter_Next. destruct (fault txn _); cbn [snd].
  - apply trace_ext_refl.
  - exists [OpNext e.1]. split; [reflexivity | now constructor].
Qed.

(** X13 ([db/expire.go], [runExpire], [doExpire], [gcDataKey]). A run of the
    reaper never writes a value: whatever the store holds and whichever
    operations fail, every entry in the view of the transaction after
    [runExpire] was there before with the same value, and the trace of the
    run contains no [Set]. *)
Theorem runExpire_never_writes (batchLimit : Z) (expireHash : string)
    (lastExpireEndTs now : Z) (txn : Transaction) :
  let txn' := snd (runExpire batchLimit expireHash lastExpireEndTs now txn) in
  kv txn' ⊆ kv txn
  ∧ ∃ ops, trace txn' = trace txn ++ ops
           ∧ Forall (λ op, is_OpSet op = false) ops.
Proof.
  split.
  - apply (keeps_runExpire no_new_entry no_new_entry_refl no_new_entry_trans).
    + intros k t. unfold txn_Get, no_new_entry.
      destruct (fault t _); cbn [snd kv record]; reflexivity.
    + intros k t. unfold txn_Delete, no_new_entry.
      destruct (fault t _); cbn [snd kv record]; [reflexivity|].
      apply delete_subseteq.
    + intros p t. unfold gc, no_new_entry.
      destruct (fault t _); cbn [snd kv record]; reflexivity.
    + intros a b t. unfold txn_Iter, no_new_entry.
      destruct (fault t _); cbn [snd kv record]; reflexivity.
    + intros it t. destruct it as [|e rest]; [apply no_new_entry_refl|].
      unfold iter_Next, no_new_entry.
      destruct (fault t _); cbn [snd kv record]; reflexivity.
  - apply (keeps_runExpire (trace_ext (λ op, is_OpSet op = false))
             (trace_ext_refl _) (trace_ext_trans _)).
    + intros k. now apply keeps_trace_Get.
    + intros k. now apply keeps_trace_Delete.
    + intros p. now apply keeps_trace_gc.
    + intros a b. now apply keeps_trace_Iter.
    + intros it. now apply keeps_trace_Next.
Qed.

(** ** The batch of the reaper *)

Lemma advanced_app (a b : list KvOp) :
  advanced (a ++ b) = advanced a + advanced b.
Proof.
  induction a as [|op a IH]; [reflexivity|].
  destruct op; cbn [advanced app]; rewrite IH; lia.
Qed.

Lemma advanced_nonneg (a : list KvOp) : 0 <= advanced a.
Proof. induction a as [|op a IH]; [reflexivity|]. destruct op; cbn; lia. Qed.

Lemma advanced_none (a : list KvOp) :
  Forall (λ op, is_OpNext op = false) a → advanced a = 0.
Proof.
  induction 1 as [|op a Hop _ IH]; [reflexivity|].
  destruct op; cbn [advanced]; try exact IH. discriminate Hop.
Qed.

Lemma doExpire_no_next (mkey id : string) (expireAt : Z) :
  keeps (trace_ext (λ op, is_OpNext op = false)) (doExpire mkey id expireAt).
Proof.
  apply keeps_doExpire.
  - apply trace_ext_refl.
  - apply trace_ext_trans.
  - intros k. now apply keeps_trace_Get.
  - intros k. now apply keeps_trace_Delete.
  - intros p. now apply keeps_trace_gc.
Qed.

(** The loop of [runExpire]: the iterator is advanced once per entry
    processed, the limit drops by one each time and the loop stops at zero;
    the timestamp to resume from is that of the last entry processed, which
    was due. *)
Lemma runExpire_loop_batch (pfx : string) (toff moff now : Z)
    (iter : Iterator) :
  ∀ st txn res txn',
    el_limit st < two63 →
    runExpire_loop pfx toff moff now iter st txn = (res, txn') →
    ∃ ops,
      trace txn' = trace txn ++ ops
      ∧ advanced ops <= Z.max 0 (el_limit st)
      ∧ ∀ st', res = Ok st' →
          el_limit st' = el_limit st - advanced ops
          ∧ (advanced ops = 0 →
             el_thisExpireEndTs st' = el_thisExpireEndTs st)
          ∧ (0 < advanced ops → el_thisExpireEndTs st' <= now).
Proof.
  induction iter as [|[rawKey value] rest IH]; intros st txn res txn' Hlim H;
    cbn [runExpire_loop] in H.
  - injection H as <- <-. exists []. rewrite app_nil_r.
    split; [reflexivity|]. split; [cbn; lia|].
    intros st' E. injection E as <-. cbn. repeat split; try lia.
  - assert (Hstop : ∀ st0 : ExpireLoop,
      el_limit st0 = el_limit st →
      el_thisExpireEndTs st0 = el_thisExpireEndTs st →
      ret st0 txn = (res, txn') →
      ∃ ops, trace txn' = trace txn ++ ops
        ∧ advanced ops <= Z.max 0 (el_limit st)
        ∧ ∀ st', res = Ok st' →
            el_limit st' = el_limit st - advanced ops
            ∧ (advanced ops = 0 →
               el_thisExpireEndTs st' = el_thisExpireEndTs st)
            ∧ (0 < advanced ops → el_thisExpireEndTs st' <= now)).
    { intros st0 E1 E2 E. injection E as <- <-. exists []. rewrite app_nil_r.
      split; [reflexivity|]. split; [cbn; lia|].
      intros st' E. injection E as <-. cbn. repeat split; try lia. }
    assert (Hfail : ∀ (e : error) (t : Transaction) (ops : list KvOp),
      (Err e, t) = (res, txn') →
      trace t = trace txn ++ ops → advanced ops = 0 →
      ∃ ops, trace txn' = trace txn ++ ops
        ∧ advanced ops <= Z.max 0 (el_limit st)
        ∧ ∀ st', res = Ok st' →
            el_limit st' = el_limit st - advanced ops
            ∧ (advanced ops = 0 →
               el_thisExpireEndTs st' = el_thisExpireEndTs st)
            ∧ (0 < advanced ops → el_thisExpireEndTs st' <= now)).
    { intros e t ops E T Z0. injection E as <- <-. exists ops.
      split; [exact T|]. split; [lia|]. intros st' E. discriminate E. }
    destruct (Bytes.has_prefix rawKey pfx && (0 <? el_limit st)) eqn:Hc;
      cbn [negb] in H; [|now apply (Hstop st)].
    apply andb_true_iff in Hc as [_ Hpos]. apply Z.ltb_lt in Hpos.
    destruct (Bytes.slice rawKey toff (toff + 8)) as [b|];
      [|apply (Hfail _ _ [] H); [now rewrite app_nil_r | reflexivity]].
    destruct (Z.ltb_spec now (DecodeInt64 b)) as [Hfut|Hdue];
      [exact (Hstop {| el_limit := el_limit st;
                       el_thisExpireEndTs := el_thisExpireEndTs st;
                       el_ts := DecodeInt64 b |} eq_refl eq_refl H)|].
    destruct (Bytes.slice_from rawKey moff) as [mkey|];
      [|apply (Hfail _ _ [] H); [now rewrite app_nil_r | reflexivity]].
    unfold bind at 1 in H.
    pose proof (doExpire_no_next mkey value (DecodeInt64 b) txn)
      as (o1 & T1 & F1).
    destruct (doExpire mkey value (DecodeInt64 b) txn) as [[[]|e] t1];
      cbn [snd] in T1.
    2:{ apply (Hfail _ _ o1 H T1). now apply advanced_none. }
    unfold bind at 1, txn_Delete in H.
    destruct (fault t1 (OpDelete rawKey)).
    { apply (Hfail _ _ o1 H T1). now apply advanced_none. }
    unfold bind at 1, iter_Next in H. cbn [fst fault record] in H.
    destruct (fault t1 (OpNext rawKey)).
    { apply (Hfail _ _ (o1 ++ [OpDelete rawKey]) H).
      - cbn [trace record]. now rewrite T1, <- app_assoc.
      - rewrite advanced_app, (advanced_none o1 F1). reflexivity. }
    set (t3 := record (OpNext rawKey) _ _) in H.
    set (st1 := {| el_limit := wrap64 (el_limit st - 1);
                   el_thisExpireEndTs := DecodeInt64 b;
                   el_ts := DecodeInt64 b |}) in H.
    assert (Hw : wrap64 (el_limit st - 1) = el_limit st - 1)
      by (apply wrap64_id; unfold in_int64, two63 in *; lia).
    assert (Hlim1 : el_limit st1 < two63) by (cbn [st1 el_limit]; lia).
    destruct (IH st1 t3 res txn' Hlim1 H) as (o2 & T2 & B2 & S2).
    exists (o1 ++ [OpDelete rawKey; OpNext rawKey] ++ o2).
    split.
    { rewrite T2. unfold t3. cbn [trace record]. rewrite T1.
      now rewrite <- !app_assoc. }
    rewrite !advanced_app, (advanced_none o1 F1). cbn [advanced].
    cbn [st1 el_limit] in B2. rewrite Hw in B2.
    pose proof (advanced_nonneg o2) as N2.
    split; [lia|]. intros st' E. destruct (S2 st' E) as (L & K0 & K1).
    cbn [st1 el_limit el_thisExpireEndTs] in L, K0, K1. rewrite Hw in L.
    split; [lia|]. split; [lia|]. intros _.
    destruct (Z.eq_dec (advanced o2) 0) as [Z0|NZ].
    + rewrite (K0 Z0). exact Hdue.
    + apply K1. lia.
Qed.

(** X14 ([db/expire.go], [runExpire]). One run of the reaper processes at
    most [batchLimit] entries of the expire index, whatever the store holds
    and whichever operations fail: it advances its iterator at most that
    many times. When the run succeeds, the timestamp it returns for the next
    run to resume from is never later than the clock reading of this run,
    and it is that clock reading when no entry was processed. *)
Theorem runExpire_batch_limit (batchLimit : Z) (expireHash : string)
    (lastExpireEndTs now : Z) (txn : Transaction) :
  batchLimit < two63 →
  ∃ res txn' ops,
    runExpire batchLimit expireHash lastExpireEndTs now txn = (res, txn')
    ∧ trace txn' = trace txn ++ ops
    ∧ advanced ops <= Z.max 0 batchLimit
    ∧ ∀ r, res = Ok r → r <= now ∧ (advanced ops = 0 → r = now).
Proof.
  intros Hlim. unfold runExpire.
  set (pfx := if negb (String.eqb expireHash "") then _ else _).
  set (toff := if negb (String.eqb expireHash "") then _ else _).
  set (moff := if negb (String.eqb expireHash "") then _ else _).
  set (startPrefix := if 0 <? lastExpireEndTs then _ else _).
  set (endPrefix := pfx +:+ _).
  unfold bind at 1, txn_Iter.
  destruct (fault txn (OpIter startPrefix (Some endPrefix))).
  { eexists _, _, []. split; [reflexivity|]. rewrite app_nil_r.
    split; [reflexivity|]. split; [cbn; lia|]. intros r E. discriminate E. }
  set (it := filter _ _). set (t1 := record _ _ _).
  set (st0 := {| el_limit := batchLimit; el_thisExpireEndTs := 0;
                 el_ts := now |}).
  unfold bind.
  destruct (runExpire_loop pfx toff moff now it st0 t1) as [res0 t2] eqn:HL.
  destruct (runExpire_loop_batch pfx toff moff now it st0 t1 res0 t2 Hlim HL)
    as (ops & T & B & S).
  destruct res0 as [st'|e].
  - eexists _, _, (OpIter startPrefix (Some endPrefix) :: ops).
    split; [reflexivity|].
    split; [rewrite T; unfold t1; cbn [trace record];
            now rewrite <- app_assoc|].
    cbn [advanced]. split; [exact B|]. intros r E. injection E as <-.
    destruct (S st' eq_refl) as (L & K0 & K1). cbn [st0 el_limit] in L.
    pose proof (advanced_nonneg ops) as N.
    destruct (Z.eqb_spec (el_limit st') batchLimit) as [Eq|Ne].
    + split; [lia | reflexivity].
    + split; [apply K1; lia | intros Z0; lia].
  - eexists _, _, (OpIter startPrefix (Some endPrefix) :: ops).
    split; [reflexivity|].
    split; [rewrite T; unfold t1; cbn [trace record];
            now rewrite <- app_assoc|].
    cbn [advanced]. split; [exact B|]. intros r E. discriminate E.
Qed.

Lemma runExpire_batch_limit_witness :
  ∃ res txn' ops,
    runExpire 10 Sample.stale_bucket 0 150 Sample.tick_txn = (res, txn')
    ∧ trace txn' = trace Sample.tick_txn ++ ops
    ∧ advanced ops <= Z.max 0 10
    ∧ ∀ r, res = Ok r → r <= 150 ∧ (advanced ops = 0 → r = 150).
Proof.
  apply (runExpire_batch_limit 10 Sample.stale_bucket 0 150 Sample.tick_txn).
  reflexivity.
Defined.

(** ** Sorted sets: the meta entry read back *)

Lemma bind_Ok {A B} (c : M A) (k : A → M B) (txn : Transaction) (b : B)
    (txn' : Transaction) :
  bind c k txn = (Ok b, txn') →
  ∃ a txn1, c txn = (Ok a, txn1) ∧ k a txn1 = (Ok b, txn').
Proof.
  unfold bind. destruct (c txn) as [[a|e] txn1]; [eauto | discriminate].
Qed.

(** [decodeMeta] reads back what [encodeMeta] wrote for a sorted set. *)
Lemma decodeMeta_encodeMeta (z0 : ZSet) (o : Object) (n : Z) :
  wf_Object o → Type_ o = ObjectZSet → in_int64 n →
  decodeMeta z0 (encodeMeta {| ZObj := o; Len := n |})
  = Ok {| meta := {| ZObj := o; Len := n |}; zkey := zkey z0 |}.
Proof.
  intros Hwf Ht Hn. unfold decodeMeta, encodeMeta. cbn [ZObj Len].
  rewrite (DecodeObject_EncodeObject o _ Hwf). rewrite Ht.
  change (negb (ObjectZSet =? ObjectZSet)) with false. cbv iota.
  unfold ObjectEncodingLength. change (Z.to_nat 42) with 42%nat.
  rewrite (drop_app_n 42) by apply length_EncodeObject.
  replace (Bytes.len (Bytes.be_bytes 8 (to_uint64 n)) =? 8) with true
    by (unfold Bytes.len; now rewrite length_be_bytes).
  cbn [negb]. rewrite be_value_be_bytes.
  change (256 ^ Z.of_nat 8) with two64.
  fold (to_uint64 (to_uint64 n)).
  replace (to_uint64 (to_uint64 n)) with (to_uint64 n)
    by (unfold to_uint64; symmetry; apply Z.mod_mod; unfold two64; lia).
  now rewrite to_int64_to_uint64.
Qed.

(** What a successful [ZAdd] leaves: the object with its new length, and
    its encoding under the meta key. *)
Lemma ZAdd_Ok_meta (zset : ZSet) (members : list string)
    (scores : list float64) (txn : Transaction) (added : Z) (zset' : ZSet)
    (txn' : Transaction) :
  ZAdd zset members scores txn = (Ok (added, zset'), txn') →
  zset' = with_Len (wrap64 (Len (meta zset) + added)) zset
  ∧ db txn' = db txn ∧ fault txn' = fault txn
  ∧ kv txn' !! MetaKey (db txn) (zkey zset) = Some (encodeMeta (meta zset')).
Proof.
  intros H.
  destruct (performs_ZAdd_layout (db txn) zset members scores txn eq_refl)
    as (Hd & Hf & _).
  rewrite H in Hd, Hf. cbn [snd] in Hd, Hf.
  unfold ZAdd in H.
  apply bind_Ok in H as (old & t1 & _ & H).
  unfold bind at 1, get_db at 1 in H.
  apply bind_Ok in H as (n & t2 & _ & H).
  apply bind_Ok in H as ([] & t3 & HU & H).
  unfold ret in H. injection H as <- <- <-.
  split; [reflexivity|]. split; [exact Hd|]. split; [exact Hf|].
  unfold updateMeta, bind, get_db, txn_Set in HU.
  destruct (fault t2 _); [discriminate|]. injection HU as <-.
  cbn [kv db record zkey with_Len] in *. rewrite Hd.
  apply lookup_insert_eq.
Qed.

(** X15 ([db/zset.go], [ZAdd], [updateMeta], [encodeMeta], [GetZSet],
    [decodeMeta]). The object a successful [ZAdd] leaves is the one
    [GetZSet] loads for the key afterwards in the same transaction: header
    and length are read back from the meta entry as they were written. *)
Theorem ZAdd_then_GetZSet (zset : ZSet) (members : list string)
    (scores : list float64) (txn : Transaction) (added : Z) (zset' : ZSet)
    (txn' : Transaction) (now : Z) (uuid : string) :
  fault txn = no_fault →
  wf_Object (ZObj (meta zset)) →
  Type_ (ZObj (meta zset)) = ObjectZSet →
  ZAdd zset members scores txn = (Ok (added, zset'), txn') →
  GetZSet (zkey zset) now uuid txn'
  = (Ok zset',
     record (OpGet (MetaKey (db txn) (zkey zset))) (kv txn') txn').
Proof.
  intros Hf Hwf Ht H.
  destruct (ZAdd_Ok_meta _ _ _ _ _ _ _ H) as (-> & Hd & Hf' & Hkv).
  unfold GetZSet, bind, get_db, txn_Get. rewrite Hd, Hf', Hf.
  cbn [no_fault]. rewrite Hkv. cbn [with_Len meta ZObj Len].
  rewrite decodeMeta_encodeMeta by (auto; apply wrap64_range).
  reflexivity.
Qed.

Lemma ZAdd_then_GetZSet_witness :
  ∃ added zset' txn',
    ZAdd (Sample.zset0 0 100) ["a"] [Sample.f_one] (new_txn Sample.db0 ∅)
    = (Ok (added, zset'), txn')
    ∧ added = 1 ∧ Len (meta zset') = 1
    ∧ GetZSet "k" 7 Sample.id1 txn'
      = (Ok zset', record (OpGet (MetaKey Sample.db0 "k")) (kv txn') txn').
Proof.
  eexists _, _, _. split; [vm_compute; reflexivity|].
  split; [reflexivity|]. split; [reflexivity|].
  apply (ZAdd_then_GetZSet (Sample.zset0 0 100) ["a"] [Sample.f_one]
           (new_txn Sample.db0 ∅) 1 _ _ 7 Sample.id1).
  - reflexivity.
  - wf_closed.
  - reflexivity.
  - vm_compute. reflexivity.
Defined.

(** What a successful [ZRem] leaves: the object with its new length, and
    under the meta key its encoding, or nothing once the set is empty. *)
Lemma ZRem_Ok_meta (zset : ZSet) (members : list string) (txn : Transaction)
    (deleted : Z) (zset' : ZSet) (txn' : Transaction) :
  ZRem zset members txn = (Ok (deleted, zset'), txn') →
  zset' = with_Len (wrap64 (Len (meta zset) - deleted)) zset
  ∧ db txn' = db txn ∧ fault txn' = fault txn
  ∧ kv txn' !! MetaKey (db txn) (zkey zset)
    = if Len (meta zset') =? 0 then None
      else Some (encodeMeta (meta zset')).
Proof.
  intros H.
  destruct (performs_ZRem_layout (db txn) zset members txn eq_refl)
    as (Hd & Hf & _).
  rewrite H in Hd, Hf. cbn [snd] in Hd, Hf.
  unfold ZRem in H.
  destruct (performs_MGet (db txn) zset members txn eq_refl) as (Hd1 & _ & _).
  apply bind_Ok in H as (sc & t1 & E1 & H). rewrite E1 in Hd1.
  cbn [snd] in Hd1.
  unfold bind at 1, get_db at 1 in H. rewrite Hd1 in H.
  destruct (performs_ZRem_loop (db txn)
              (DataKey (db txn) (ID (ZObj (meta zset))))
              (ZSetScorePrefix (db txn) (ID (ZObj (meta zset))))
              members sc 0 t1 Hd1) as (Hd2 & _ & _).
  apply bind_Ok in H as (n & t2 & E2 & H). rewrite E2 in Hd2.
  cbn [snd] in Hd2. cbn [with_Len meta Len ZObj zkey] in H.
  destruct (wrap64 (Len (meta zset) - n) =? 0) eqn:Hz.
  - apply bind_Ok in H as ([] & t3 & HD & H).
    apply bind_Ok in H as ([] & t4 & HX & H).
    unfold ret in H. injection H as <- <- <-.
    cbn [with_Len meta Len]. rewrite Hz.
    split; [reflexivity|]. split; [exact Hd|]. split; [exact Hf|].
    unfold txn_Delete in HD. destruct (fault t2 _); [discriminate|].
    injection HD as <-.
    destruct (0 <? ExpireAt (ZObj (meta zset))).
    + unfold unExpireAt in HX.
      destruct (ExpireAt (ZObj (meta zset)) =? 0).
      * injection HX as <-. apply lookup_delete_eq.
      * unfold txn_Delete in HX. cbn [fault record] in HX.
        destruct (fault t2 _); [discriminate|]. injection HX as <-.
        cbn [kv record].
        rewrite lookup_delete_ne by apply expireKey_neq_mkey.
        apply lookup_delete_eq.
    + injection HX as <-. apply lookup_delete_eq.
  - apply bind_Ok in H as ([] & t3 & HU & H).
    unfold ret in H. injection H as <- <- <-.
    cbn [with_Len meta Len]. rewrite Hz.
    split; [reflexivity|]. split; [exact Hd|]. split; [exact Hf|].
    unfold updateMeta, bind, get_db, txn_Set in HU.
    destruct (fault t2 _); [discriminate|]. injection HU as <-.
    cbn [kv db record zkey] in *. rewrite Hd2.
    apply lookup_insert_eq.
Qed.

(** X16 ([db/zset.go], [ZRem], [GetZSet], [decodeMeta]). After a successful
    [ZRem], [GetZSet] on the key loads the object [ZRem] left while members
    remain; once the last member is removed the meta entry is gone, and
    [GetZSet] starts a new, empty set with a new id and creation time and no
    expiry. *)
Theorem ZRem_then_GetZSet (zset : ZSet) (members : list string)
    (txn : Transaction) (deleted : Z) (zset' : ZSet) (txn' : Transaction)
    (now : Z) (uuid : string) :
  fault txn = no_fault →
  wf_Object (ZObj (meta zset)) →
  Type_ (ZObj (meta zset)) = ObjectZSet →
  ZRem zset members txn = (Ok (deleted, zset'), txn') →
  GetZSet (zkey zset) now uuid txn'
  = (Ok (if Len (meta zset') =? 0
         then {| meta := {| ZObj := {| ID := uuid; Type_ := ObjectZSet;
                                       Encoding := ObjectEncodingHT;
                                       CreatedAt := now; UpdatedAt := now;
                                       ExpireAt := 0 |};
                            Len := 0 |};
                 zkey := zkey zset |}
         else zset'),
     record (OpGet (MetaKey (db txn) (zkey zset))) (kv txn') txn').
Proof.
  intros Hf Hwf Ht H.
  destruct (ZRem_Ok_meta _ _ _ _ _ _ H) as (E & Hd & Hf' & Hkv).
  unfold GetZSet, bind, get_db, txn_Get. rewrite Hd, Hf', Hf.
  cbn [no_fault]. rewrite Hkv.
  destruct (Len (meta zset') =? 0); [reflexivity|].
  rewrite E. cbn [with_Len meta ZObj Len].
  rewrite decodeMeta_encodeMeta by (auto; apply wrap64_range).
  reflexivity.
Qed.

Lemma ZRem_then_GetZSet_witness :
  let txn' := snd (ZRem Sample.zset1 ["a"] Sample.zset1_txn) in
  ZRem Sample.zset1 ["a"] Sample.zset1_txn
  = (Ok (1, Sample.zset0 0 100), txn')
  ∧ GetZSet "k" 200 Sample.id1 txn'
    = (Ok {| meta := {| ZObj := {| ID := Sample.id1; Type_ := ObjectZSet;
                                   Encoding := ObjectEncodingHT;
                                   CreatedAt := 200; UpdatedAt := 200;
                                   ExpireAt := 0 |};
                        Len := 0 |};
             zkey := "k" |},
       record (OpGet (MetaKey Sample.db0 "k")) (kv txn') txn').
Proof.
  split; [vm_compute; reflexivity|].
  apply (ZRem_then_GetZSet Sample.zset1 ["a"] Sample.zset1_txn 1
           (Sample.zset0 0 100)
           (snd (ZRem Sample.zset1 ["a"] Sample.zset1_txn)) 200 Sample.id1).
  - reflexivity.
  - wf_closed.
  - reflexivity.
  - vm_compute. reflexivity.
Defined.

(** ** A key holds one type *)

(** X17 ([db/zset.go], [GetZSet], [decodeMeta]). [GetZSet] on a key whose
    meta entry carries the header of an object of another type fails with
    the type-mismatch error, whether or not that object has an expiry in the
    past; it reads the meta key and writes nothing. *)
Theorem GetZSet_on_other_type (txn : Transaction) (K : string) (o : Object)
    (rest : string) (now : Z) (uuid : string) :
  fault txn = no_fault →
  kv txn !! MetaKey (db txn) K = Some (EncodeObject o +:+ rest) →
  wf_Object o →
  Type_ o ≠ ObjectZSet →
  GetZSet K now uuid txn
  = (Err ErrTypeMismatch, record (OpGet (MetaKey (db txn) K)) (kv txn) txn).
Proof.
  intros Hf Hkv Hwf Ht.
  unfold GetZSet, bind, get_db, txn_Get. rewrite Hf. cbn [no_fault].
  rewrite Hkv. unfold decodeMeta.
  rewrite (DecodeObject_EncodeObject o rest Hwf).
  replace (Type_ o =? ObjectZSet) with false
    by (symmetry; now apply Z.eqb_neq).
  reflexivity.
Qed.

Lemma GetZSet_on_other_type_witness :
  GetZSet "s" 300 Sample.id1 Sample.expiring_txn
  = (Err ErrTypeMismatch,
     record (OpGet (MetaKey Sample.db0 "s")) (kv Sample.expiring_txn)
       Sample.expiring_txn).
Proof.
  apply (GetZSet_on_other_type Sample.expiring_txn "s" Sample.expiring_obj
           "v" 300 Sample.id1).
  - reflexivity.
  - vm_compute. reflexivity.
  - wf_closed.
  - vm_compute. discriminate.
Defined.

(** X18 ([db/string.go], [GetString], [decode]). [GetString] on a key whose
    meta entry carries the header of a live object that is not a raw string
    fails with the type-mismatch error; it reads the meta key and writes
    nothing. *)
Theorem GetString_on_other_type (txn : Transaction) (K : string) (o : Object)
    (rest : string) (now t' : Z) :
  fault txn = no_fault →
  kv txn !! MetaKey (db txn) K = Some (EncodeObject o +:+ rest) →
  wf_Object o →
  ExpireAt o = 0 ∨ t' <= ExpireAt o →
  Type_ o ≠ ObjectString ∨ Encoding o ≠ ObjectEncodingRaw →
  GetString K now t' txn
  = (Err ErrTypeMismatch, record (OpGet (MetaKey (db txn) K)) (kv txn) txn).
Proof.
  intros Hf Hkv Hwf Hlive Hty.
  unfold GetString, bind, get_db, txn_Get. rewrite Hf. cbn [no_fault].
  rewrite Hkv. unfold decode. rewrite (DecodeObject_EncodeObject o rest Hwf).
  replace (negb (ExpireAt o =? 0) && (ExpireAt o <? t')) with false.
  2:{ symmetry. destruct Hlive as [->|Hl]; [reflexivity|].
      apply andb_false_iff. right. apply Z.ltb_ge. exact Hl. }
  assert (Hchk : ∀ str : String_, Obj (Meta str) = o →
    (if negb (Type_ (Obj (Meta str)) =? ObjectString)
     then fail ErrTypeMismatch
     else if negb (Encoding (Obj (Meta str)) =? ObjectEncodingRaw)
          then fail ErrTypeMismatch
          else ret (set_Obj (with_UpdatedAt now) str))
      (record (OpGet (MetaKey (db txn) K)) (kv txn) txn)
    = (Err ErrTypeMismatch,
       record (OpGet (MetaKey (db txn) K)) (kv txn) txn)).
  { intros str ->. destruct (Z.eqb_spec (Type_ o) ObjectString) as [E1|N1];
      cbn [negb]; [|reflexivity].
    destruct (Z.eqb_spec (Encoding o) ObjectEncodingRaw) as [E2|N2];
      cbn [negb]; [|reflexivity].
    destruct Hty; contradiction. }
  destruct (ObjectEncodingLength <? _); apply Hchk; reflexivity.
Qed.

Lemma GetString_on_other_type_witness :
  GetString "k" 300 300 Sample.recreated_txn
  = (Err ErrTypeMismatch,
     record (OpGet (MetaKey Sample.db0 "k")) (kv Sample.recreated_txn)
       Sample.recreated_txn).
Proof.
  apply (GetString_on_other_type Sample.recreated_txn "k"
           Sample.recreated_obj (Bytes.be_bytes 8 (to_uint64 1)) 300 300).
  - reflexivity.
  - vm_compute. reflexivity.
  - wf_closed.
  - left. reflexivity.
  - left. vm_compute. discriminate.
Defined.

(** ** ZRANGE and ZREVRANGE return the ranks asked for *)

Lemma swap_last_two_app (l : list string) (a b : string) :
  swap_last_two ((l ++ [a]) ++ [b]) = l ++ [b; a].
Proof.
  unfold swap_last_two. rewrite !rev_app_distr. cbn [rev app].
  now rewrite rev_involutive.
Qed.

Lemma DecodeFloat64_long (b : string) :
  8 <= Bytes.len b → ∃ f, DecodeFloat64 b = Some f.
Proof.
  intros H. unfold DecodeFloat64.
  replace (Bytes.len b <? 8) with false by (symmetry; apply Z.ltb_ge; lia).
  eauto.
Qed.

Lemma len_score_key_score (p k : string) :
  Bytes.len p + 1 + 8 + 1 <= Bytes.len k →
  8 <= Bytes.len (score_key_score p k).
Proof.
  intros H. unfold score_key_score, Bytes.len in *.
  rewrite length_take, length_drop.
  pose proof (len_nonneg p). unfold Bytes.len in *. lia.
Qed.

Lemma scan_items_plain (F : float64 → string) (po : bool) (p k v : string) :
  scan_items F false po p (k, v) = [score_key_member p k].
Proof. now destruct po. Qed.

Lemma scan_items_scores (F : float64 → string) (po : bool) (p k v : string)
    (f : float64) :
  DecodeFloat64 (score_key_score p k) = Some f →
  scan_items F true po p (k, v)
  = if po then [score_key_member p k; F f] else [F f; score_key_member p k].
Proof.
  intros Hd. unfold scan_items, entry_items. cbn [fst]. rewrite Hd.
  now destruct po.
Qed.

(** The scan loop of [ZAnyOrderRange] on a score index whose keys all hold
    a score and a member: from position [i] on it appends the items of the
    entries at the positions [start] to [stop], and leaves the store as it
    is. *)
Lemma range_loop_window (FormatFloat : float64 → string) (start stop : Z)
    (withScore positiveOrder : bool) (scorePrefix : string) (it : Iterator) :
  stop < two63 - 1 →
  (∀ e, e ∈ it → Bytes.has_prefix e.1 scorePrefix = true →
        Bytes.len scorePrefix + 1 + 8 + 1 <= Bytes.len e.1) →
  ∀ i items txn,
    0 <= i →
    fault txn = no_fault →
    ∃ txn',
      range_loop (S (length it))
        (range_step FormatFloat start stop withScore positiveOrder
           scorePrefix)
        {| rs_i := i; rs_iter := it; rs_items := items |} txn
      = Some (Ok (items
                  ++ flat_map
                       (scan_items FormatFloat withScore positiveOrder
                          scorePrefix)
                       (take (Z.to_nat (stop + 1 - Z.max start i))
                          (drop (Z.to_nat (start - i))
                             (under_prefix scorePrefix it)))),
              txn')
      ∧ kv txn' = kv txn ∧ fault txn' = no_fault.
Proof.
  intros Hstop. induction it as [|[k v] rest IH]; intros Hlong i items txn Hi Hf.
  - cbn [length range_loop range_step rs_iter rs_items under_prefix].
    exists txn. rewrite drop_nil, take_nil. cbn [flat_map].
    rewrite app_nil_r. auto.
  - assert (Hrest : ∀ e, e ∈ rest → Bytes.has_prefix e.1 scorePrefix = true →
                         Bytes.len scorePrefix + 1 + 8 + 1 <= Bytes.len e.1).
    { intros e He. apply Hlong. now right. }
    specialize (IH Hrest).
    cbn [length range_loop]. unfold range_step at 1.
    cbn [rs_iter rs_i rs_items under_prefix fst].
    destruct (Z.leb_spec i stop) as [Hle|Hgt]; cbn [andb negb].
    2:{ exists txn. unfold ret.
        replace (Z.to_nat (stop + 1 - Z.max start i)) with 0%nat by lia.
        cbn [take flat_map]. rewrite app_nil_r. auto. }
    destruct (Bytes.has_prefix k scorePrefix) eqn:Hp; cbn [negb].
    2:{ exists txn. unfold ret. rewrite drop_nil, take_nil. cbn [flat_map].
        rewrite app_nil_r. auto. }
    pose proof (Hlong (k, v) ltac:(left) Hp) as Hk. cbn [fst] in Hk.
    assert (Hw : wrap64 (i + 1) = i + 1)
      by (apply wrap64_id; unfold in_int64, two63 in *; lia).
    set (txn1 := record (OpNext k) (kv txn) txn).
    assert (Hf1 : fault txn1 = no_fault) by exact Hf.
    cbv zeta.
    destruct (Z.leb_spec start i) as [Hin|Hout].
    + replace (Bytes.len k <? Bytes.len scorePrefix + 1 + 8 + 1) with false
        by (symmetry; apply Z.ltb_ge; lia).
      replace (Z.to_nat (start - i)) with 0%nat by lia.
      replace (Z.to_nat (stop + 1 - Z.max start i))
        with (S (Z.to_nat (stop + 1 - Z.max start (i + 1)))) by lia.
      cbn [drop take flat_map].
      fold (score_key_score scorePrefix k).
      fold (score_key_member scorePrefix k).
      assert (Hnext : ∀ its,
        ∃ txn',
          range_loop (S (length rest))
            (range_step FormatFloat start stop withScore positiveOrder
               scorePrefix)
            {| rs_i := i + 1; rs_iter := rest; rs_items := its |} txn1
          = Some (Ok (its
                      ++ flat_map
                           (scan_items FormatFloat withScore positiveOrder
                              scorePrefix)
                           (take (Z.to_nat (stop + 1 - Z.max start (i + 1)))
                              (under_prefix scorePrefix rest))),
                  txn')
          ∧ kv txn' = kv txn ∧ fault txn' = no_fault).
      { intros its.
        destruct (IH (i + 1) its txn1 ltac:(lia) Hf1) as (txn' & E & K & F).
        replace (Z.to_nat (start - (i + 1))) with 0%nat in E by lia.
        cbn [drop] in E. exists txn'. auto. }
      destruct withScore.
      * destruct (DecodeFloat64_long (score_key_score scorePrefix k)
                    (len_score_key_score _ _ Hk)) as (f & Hd).
        rewrite Hd.
        destruct positiveOrder; cbn [negb]; cbv beta;
          unfold iter_Next; cbn [fst]; rewrite Hf; cbn [no_fault];
          rewrite Hw; fold txn1.
        -- destruct (Hnext ((items ++ [score_key_member scorePrefix k])
                              ++ [FormatFloat f])) as (txn' & E & K & F).
           exists txn'. split; [|auto]. refine (eq_trans E _).
           apply (f_equal (λ l, Some (Ok l, txn'))).
           rewrite (scan_items_scores _ _ _ _ _ _ Hd).
           now rewrite <- !app_assoc.
        -- rewrite swap_last_two_app.
           destruct (Hnext (items ++ [FormatFloat f;
                                       score_key_member scorePrefix k]))
             as (txn' & E & K & F).
           exists txn'. split; [|auto]. refine (eq_trans E _).
           apply (f_equal (λ l, Some (Ok l, txn'))).
           rewrite (scan_items_scores _ _ _ _ _ _ Hd).
           now rewrite <- !app_assoc.
      * cbv beta. unfold iter_Next. cbn [fst]. rewrite Hf. cbn [no_fault].
        rewrite Hw. fold txn1.
        destruct (Hnext (items ++ [score_key_member scorePrefix k]))
          as (txn' & E & K & F).
        exists txn'. split; [|auto]. refine (eq_trans E _).
           apply (f_equal (λ l, Some (Ok l, txn'))).
        rewrite scan_items_plain. now rewrite <- !app_assoc.
    + cbv beta. unfold iter_Next. cbn [fst]. rewrite Hf. cbn [no_fault].
      rewrite Hw. fold txn1.
      destruct (IH (i + 1) items txn1 ltac:(lia) Hf1) as (txn' & E & K & F).
      exists txn'. split; [|auto]. refine (eq_trans E _).
           apply (f_equal (λ l, Some (Ok l, txn'))).
      replace (Z.max start (i + 1)) with (Z.max start i) by lia.
      replace (Z.to_nat (start - i)) with (S (Z.to_nat (start - (i + 1))))
        by lia.
      reflexivity.
Qed.

Lemma rev_flat_map {A B} (g : A → list B) (l : list A) :
  rev (flat_map g l) = flat_map (λ x, rev (g x)) (rev l).
Proof.
  induction l as [|x l IH]; [reflexivity|]. cbn [flat_map rev].
  rewrite rev_app_distr, IH, flat_map_app. cbn [flat_map].
  now rewrite app_nil_r.
Qed.

Lemma elem_of_txn_Iter (m : gmap string string) (start : string)
    (upper : option string) (e : string * string) :
  e ∈ filter (λ e, in_range start upper e.1 = true) (sorted_entries m) →
  m !! e.1 = Some e.2.
Proof.
  intros He. apply list_elem_of_filter in He as [_ He].
  unfold sorted_entries in He. rewrite merge_sort_Permutation in He.
  destruct e as [k v]. now apply elem_of_map_to_list in He.
Qed.

(** X19 ([db/zset.go], [ZAnyOrderRange]). On a sorted set whose score index
    holds a score and a member under every key, and with [0 <= start <=
    stop] and [start] below the length, the scan ends and ZRANGE returns the
    members of the entries at the positions [start] to [stop] (clamped to
    the length) of the score index in key order, each followed by its
    formatted score under WITHSCORES; ZREVRANGE returns the entries at the
    same positions counted from the end, last first. The store is left as
    it is. *)
Theorem ZAnyOrderRange_returns_ranks (FormatFloat : float64 → string)
    (zset : ZSet) (start stop : Z) (withScore positiveOrder : bool)
    (txn : Transaction) :
  let len := Len (meta zset) in
  let scorePrefix := ZSetScorePrefix (db txn) (ID (ZObj (meta zset))) in
  let index :=
    under_prefix scorePrefix
      (filter (λ e, in_range scorePrefix None e.1 = true)
         (sorted_entries (kv txn))) in
  let last := Z.min stop (len - 1) in
  fault txn = no_fault →
  0 <= start <= stop → start < len < two63 →
  (∀ k v, kv txn !! k = Some v → Bytes.has_prefix k scorePrefix = true →
          Bytes.len scorePrefix + 1 + 8 + 1 <= Bytes.len k) →
  ∃ fuel txn',
    ZAnyOrderRange FormatFloat fuel zset start stop withScore positiveOrder txn
    = Some (Ok (flat_map (entry_items FormatFloat withScore scorePrefix)
                  (if positiveOrder then ranks start last index
                   else rev (ranks (len - 1 - last) (len - 1 - start) index))),
            txn')
    ∧ kv txn' = kv txn.
Proof.
  intros len scorePrefix index last Hf [Hs0 Hss] [Hsl Hl63] Hlong.
  set (it := filter (λ e, in_range scorePrefix None e.1 = true)
               (sorted_entries (kv txn))) in *.
  assert (Hlong' : ∀ e, e ∈ it → Bytes.has_prefix e.1 scorePrefix = true →
                        Bytes.len scorePrefix + 1 + 8 + 1 <= Bytes.len e.1).
  { intros e He. apply (Hlong e.1 e.2). now apply elem_of_txn_Iter in He. }
  assert (Hw1 : wrap64 (len - 1) = len - 1)
    by (apply wrap64_id; unfold in_int64, two63 in *; lia).
  set (txn1 := record (OpIter scorePrefix None) (kv txn) txn).
  assert (Hf1 : fault txn1 = no_fault) by exact Hf.
  set (lo := if positiveOrder then start else len - 1 - last).
  set (hi := if positiveOrder then last else len - 1 - start).
  assert (Hlo : 0 <= lo <= hi ∧ hi < two63 - 1)
    by (unfold lo, hi, last, two63 in *; destruct positiveOrder; lia).
  destruct (range_loop_window FormatFloat lo hi withScore positiveOrder
              scorePrefix it ltac:(lia) Hlong' 0 [] txn1 ltac:(lia) Hf1)
    as (txn' & E & K & _).
  exists (S (length it)), txn'. split; [|exact K].
  unfold ZAnyOrderRange. fold len.
  replace (stop <? 0) with false by (symmetry; apply Z.ltb_ge; lia).
  cbn [andb]. cbv iota.
  replace (start <? 0) with false by (symmetry; apply Z.ltb_ge; lia).
  assert (Hlast : (if len <=? stop then wrap64 (len - 1) else stop) = last).
  { unfold last. destruct (Z.leb_spec len stop); [rewrite Hw1|]; lia. }
  rewrite Hlast.
  replace ((last <? start) || (len <=? start)) with false.
  2:{ symmetry. apply orb_false_iff. split;
        [apply Z.ltb_ge | apply Z.leb_gt]; unfold last; lia. }
  fold scorePrefix. unfold txn_Iter. rewrite Hf. cbn [no_fault].
  fold it. fold txn1. rewrite Hw1.
  assert (Hlo' : (if positiveOrder then start
                  else wrap64 (len - 1 - last)) = lo).
  { unfold lo. destruct positiveOrder; [reflexivity|].
    apply wrap64_id. unfold in_int64, last, two63 in *. lia. }
  assert (Hhi' : (if positiveOrder then last
                  else wrap64 (len - 1 - start)) = hi).
  { unfold hi. destruct positiveOrder; [reflexivity|].
    apply wrap64_id. unfold in_int64, last, two63 in *. lia. }
  rewrite Hlo', Hhi', E. cbn [app].
  replace (Z.max lo 0) with lo by lia.
  replace (lo - 0) with lo by lia.
  replace (hi + 1 - lo) with (hi - lo + 1) by lia.
  fold index. fold (ranks lo hi index).
  do 3 f_equal. unfold lo, hi. destruct positiveOrder; [reflexivity|].
  rewrite rev_flat_map. apply flat_map_ext. intros e.
  unfold scan_items. apply rev_involutive.
Qed.

(** A check of the keys of a concrete store under a prefix. *)
Lemma long_keys_check (m : gmap string string) (p : string) :
  forallb (λ e : string * string,
             negb (Bytes.has_prefix e.1 p)
             || (Bytes.len p + 1 + 8 + 1 <=? Bytes.len e.1))
    (map_to_list m) = true →
  ∀ k v, m !! k = Some v → Bytes.has_prefix k p = true →
         Bytes.len p + 1 + 8 + 1 <= Bytes.len k.
Proof.
  intros H k v Hkv Hp. rewrite forallb_forall in H.
  apply elem_of_map_to_list, list_elem_of_In in Hkv.
  specialize (H (k, v) Hkv). cbn [fst] in H. rewrite Hp in H.
  now apply Z.leb_le in H.
Qed.

Lemma ZAnyOrderRange_returns_ranks_witness :
  let scorePrefix := ZSetScorePrefix Sample.db0 Sample.id0 in
  let index :=
    under_prefix scorePrefix
      (filter (λ e, in_range scorePrefix None e.1 = true)
         (sorted_entries (kv Sample.zset1_txn))) in
  (∃ fuel txn',
     ZAnyOrderRange Sample.fmt fuel Sample.zset1 0 5 true false
       Sample.zset1_txn
     = Some (Ok (flat_map (entry_items Sample.fmt true scorePrefix)
                   (rev (ranks (1 - 1 - Z.min 5 (1 - 1)) (1 - 1 - 0) index))),
             txn')
     ∧ kv txn' = kv Sample.zset1_txn)
  ∧ flat_map (entry_items Sample.fmt true scorePrefix)
      (rev (ranks (1 - 1 - Z.min 5 (1 - 1)) (1 - 1 - 0) index))
    = ["a"; "1"].
Proof.
  split.
  - apply (ZAnyOrderRange_returns_ranks Sample.fmt Sample.zset1 0 5 true
             false Sample.zset1_txn).
    + reflexivity.
    + lia.
    + split; reflexivity.
    + apply long_keys_check. vm_compute. reflexivity.
  - vm_compute. reflexivity.
Defined.

(** X20 ([db/zset.go], [ZAnyOrderRange]). On an empty set, and on any set
    when [start] is not negative and not below the length, ZRANGE and
    ZREVRANGE return the empty reply without opening an iterator: the
    transaction is left untouched, whatever [stop] is. *)
Theorem ZAnyOrderRange_out_of_range (FormatFloat : float64 → string)
    (fuel : nat) (zset : ZSet) (start stop : Z)
    (withScore positiveOrder : bool) (txn : Transaction) :
  Len (meta zset) <= 0 ∨ (0 <= start ∧ Len (meta zset) <= start) →
  ZAnyOrderRange FormatFloat fuel zset start stop withScore positiveOrder txn
  = Some (Ok [], txn).
Proof.
  intros H. unfold ZAnyOrderRange. set (len := Len (meta zset)) in *.
  destruct ((stop <? 0) && _); [reflexivity|].
  set (start1 := if start <? 0 then _ else start).
  assert (Hs : len <= start1).
  { unfold start1. destruct (Z.ltb_spec start 0) as [Hn|Hp].
    - destruct (Z.ltb_spec (wrap64 (len + start)) 0); lia.
    - lia. }
  replace (len <=? start1) with true by (symmetry; now apply Z.leb_le).
  now rewrite orb_true_r.
Qed.

Lemma ZAnyOrderRange_out_of_range_witness :
  ZAnyOrderRange Sample.fmt 0 (Sample.zset0 0 0) (-3) (-1) true true
    (new_txn Sample.db0 ∅)
  = Some (Ok [], new_txn Sample.db0 ∅)
  ∧ ZAnyOrderRange Sample.fmt 0 Sample.zset1 1 5 false false Sample.zset1_txn
    = Some (Ok [], Sample.zset1_txn).
Proof.
  split.
  - apply (ZAnyOrderRange_out_of_range Sample.fmt 0 (Sample.zset0 0 0)
             (-3) (-1) true true (new_txn Sample.db0 ∅)).
    left. reflexivity.
  - apply (ZAnyOrderRange_out_of_range Sample.fmt 0 Sample.zset1 1 5 false
             false Sample.zset1_txn).
    right. split; [lia | reflexivity].
Defined.

(** ** ZADD on a new set *)

Lemma memberKey_inj (dkey m m' : string) :
  zsetMemberKey dkey m = zsetMemberKey dkey m' → m = m'.
Proof.
  unfold zsetMemberKey. intros H. do 2 apply String.app_inj in H. exact H.
Qed.

Lemma scoreKey_member_inj (p sc sc' m m' : string) :
  String.length sc = String.length sc' →
  zsetScoreKey p sc m = zsetScoreKey p sc' m' → m = m'.
Proof.
  unfold zsetScoreKey. intros Hl H. do 2 apply String.app_inj in H.
  apply (f_equal (Bytes.drop (String.length sc))) in H.
  rewrite drop_app_length in H. rewrite Hl, drop_app_length in H.
  now apply String.app_inj in H.
Qed.

(** The loop of [ZAdd] when no member is in the set yet: every member is
    counted, its score is stored under its member key and its score key, and
    no other key changes. *)
Lemma ZAdd_loop_fresh (d : DB) (id : string) (members : list string) :
  let dkey := DataKey d id in
  let sp := ZSetScorePrefix d id in
  ∀ (scores : list float64) (added : Z) (txn : Transaction),
    fault txn = no_fault →
    length scores = length members →
    0 <= added → added + Z.of_nat (length members) < two63 →
    ∃ txn',
      ZAdd_loop dkey sp members scores (map (λ _, None) members) added txn
      = (Ok (added + Z.of_nat (length members)), txn')
      ∧ fault txn' = no_fault ∧ db txn' = db txn
      ∧ (∀ k, (∀ m, m ∈ members → k ≠ zsetMemberKey dkey m)
              → (∀ m sc, m ∈ members → String.length sc = 8%nat
                         → k ≠ zsetScoreKey sp sc m)
              → kv txn' !! k = kv txn !! k)
      ∧ (NoDup members →
         ∀ i m s, members !! i = Some m → scores !! i = Some s →
           kv txn' !! zsetMemberKey dkey m = Some (EncodeFloat64 s)
           ∧ kv txn' !! zsetScoreKey sp (EncodeFloat64 s) m = Some NilValue).
Proof.
  intros dkey sp. induction members as [|m0 ms IH];
    intros scores added txn Hf Hlen Hadd Hmax.
  - exists txn. cbn [ZAdd_loop map length]. unfold ret.
    rewrite Z.add_0_r. split; [reflexivity|]. split; [exact Hf|].
    split; [reflexivity|]. split; [reflexivity|].
    intros _ i m s Hm. now rewrite lookup_nil in Hm.
  - destruct scores as [|s0 ss]; [discriminate Hlen|].
    cbn [length] in Hlen, Hmax. injection Hlen as Hlen.
    cbn [ZAdd_loop map]. unfold bind at 1, txn_Set at 1. rewrite Hf.
    cbn [no_fault]. unfold bind at 1, txn_Set at 1. cbn [fault record].
    rewrite Hf. cbn [no_fault].
    set (mk0 := zsetMemberKey dkey m0).
    set (sk0 := zsetScoreKey sp (EncodeFloat64 s0) m0).
    set (txn1 := record (OpSet sk0 NilValue) _ _).
    assert (Hw : wrap64 (added + 1) = added + 1)
      by (apply wrap64_id; unfold in_int64, two63 in *; lia).
    rewrite Hw.
    destruct (IH ss (added + 1) txn1 Hf Hlen ltac:(lia) ltac:(lia))
      as (txn' & E & F & D & Hsame & Hlook).
    exists txn'. rewrite E.
    replace (added + Z.of_nat (length (m0 :: ms)))
      with (added + 1 + Z.of_nat (length ms)) by (cbn [length]; lia).
    split; [reflexivity|]. split; [exact F|]. split; [exact D|].
    assert (Hkv1 : ∀ k, k ≠ mk0 → k ≠ sk0 → kv txn1 !! k = kv txn !! k).
    { intros k N1 N2. unfold txn1. cbn [kv record].
      now rewrite !lookup_insert_ne by congruence. }
    split.
    + intros k Hm Hs. rewrite Hsame.
      * apply Hkv1; [apply Hm; now left|].
        apply Hs; [now left | apply length_EncodeFloat64].
      * intros m Hin. apply Hm. now right.
      * intros m sc Hin. apply Hs. now right.
    + intros Hnd i m s Hm Hs. apply NoDup_cons in Hnd as [Hnotin Hnd].
      destruct i as [|i]; cbn in Hm, Hs.
      * injection Hm as <-. injection Hs as <-. fold mk0 sk0. split.
        -- rewrite Hsame.
           ++ unfold txn1. cbn [kv record].
              rewrite lookup_insert_ne
                by (apply not_eq_sym, memberKey_neq_scoreKey).
              apply lookup_insert_eq.
           ++ intros m Hin E0. apply memberKey_inj in E0. congruence.
           ++ intros m sc _ _. apply memberKey_neq_scoreKey.
        -- rewrite Hsame.
           ++ unfold txn1. cbn [kv record]. apply lookup_insert_eq.
           ++ intros m _. apply not_eq_sym, memberKey_neq_scoreKey.
           ++ intros m sc Hin Hl E0. apply scoreKey_member_inj in E0;
                [congruence | now rewrite length_EncodeFloat64].
      * now apply (Hlook Hnd i).
Qed.

(** X21 ([db/zset.go], [ZAdd], [updateMeta], [zsetMemberKey],
    [zsetScoreKey]). [ZAdd] on an empty set with as many scores as members
    returns the number of members given and records it as the length of
    the set; when the members are distinct, each member's key holds its
    encoded score and its score key exists, so each member can be looked up
    and is found by the scan of the score index. *)
Theorem ZAdd_new_set (zset : ZSet) (members : list string)
    (scores : list float64) (txn : Transaction) :
  let d := db txn in
  let dkey := DataKey d (ID (ZObj (meta zset))) in
  let sp := ZSetScorePrefix d (ID (ZObj (meta zset))) in
  let n := Z.of_nat (length members) in
  fault txn = no_fault →
  Len (meta zset) = 0 →
  length scores = length members →
  n < two63 →
  ∃ zset' txn',
    ZAdd zset members scores txn = (Ok (n, zset'), txn')
    ∧ Len (meta zset') = n
    ∧ kv txn' !! MetaKey d (zkey zset) = Some (encodeMeta (meta zset'))
    ∧ (NoDup members →
       ∀ i m s, members !! i = Some m → scores !! i = Some s →
         kv txn' !! zsetMemberKey dkey m = Some (EncodeFloat64 s)
         ∧ kv txn' !! zsetScoreKey sp (EncodeFloat64 s) m = Some NilValue).
Proof.
  intros d dkey sp n Hf Hlen Hsc Hn.
  destruct (ZAdd_loop_fresh d (ID (ZObj (meta zset))) members scores 0 txn
              Hf Hsc ltac:(lia) ltac:(fold n; lia))
    as (txn1 & E & F & D & _ & Hlook).
  fold dkey sp in E, Hlook. rewrite Z.add_0_l in E. fold n in E.
  unfold ZAdd. rewrite Hlen. change (0 <? 0) with false. cbv iota.
  unfold bind at 1, ret at 1. unfold bind at 1, get_db at 1.
  fold d dkey sp. unfold bind at 1. rewrite E.
  assert (Hw : wrap64 (0 + n) = n)
    by (apply wrap64_id; unfold in_int64, two63 in *; lia).
  rewrite Hw. unfold updateMeta, bind, get_db, txn_Set. rewrite F.
  cbn [no_fault ret with_Len zkey meta Len]. rewrite D. fold d.
  eexists _, _. split; [reflexivity|]. split; [reflexivity|].
  cbn [kv record]. split; [apply lookup_insert_eq|].
  intros Hnd i m s Hm Hs. destruct (Hlook Hnd i m s Hm Hs) as [H1 H2].
  split.
  - rewrite lookup_insert_ne by (apply not_eq_sym, memberKey_neq_MetaKey).
    exact H1.
  - rewrite lookup_insert_ne by (apply not_eq_sym, scoreKey_neq_MetaKey).
    exact H2.
Qed.

Lemma ZAdd_new_set_witness :
  let d := Sample.db0 in
  let dkey := DataKey d Sample.id0 in
  let sp := ZSetScorePrefix d Sample.id0 in
  ∃ zset' txn',
    ZAdd (Sample.zset0 0 0) ["a"; "b"] [Sample.f_two; Sample.f_one]
      (new_txn Sample.db0 ∅) = (Ok (2, zset'), txn')
    ∧ Len (meta zset') = 2
    ∧ kv txn' !! MetaKey d "k" = Some (encodeMeta (meta zset'))
    ∧ (NoDup ["a"; "b"] →
       ∀ i m s, ["a"; "b"] !! i = Some m →
         [Sample.f_two; Sample.f_one] !! i = Some s →
         kv txn' !! zsetMemberKey dkey m = Some (EncodeFloat64 s)
         ∧ kv txn' !! zsetScoreKey sp (EncodeFloat64 s) m = Some NilValue).
Proof.
  apply (ZAdd_new_set (Sample.zset0 0 0) ["a"; "b"]
           [Sample.f_two; Sample.f_one] (new_txn Sample.db0 ∅)).
  - reflexivity.
  - reflexivity.
  - reflexivity.
  - reflexivity.
Defined.

(** ** The life of a command limiter *)

Section LimiterLifeFacts.

Import Limiter LimiterLife.
Local Open Scope Q_scope.

Lemma split_on_no_token (tok : ascii) (s : string) :
  ¬ In tok (list_ascii_of_string s) → split_on tok s = [s].
Proof.
  induction s as [|c s IH]; cbn [split_on list_ascii_of_string In];
    intros H; [reflexivity|].
  destruct (Ascii.eqb_spec c tok) as [->|_]; [exfalso; apply H; now left|].
  rewrite IH by (intros H'; apply H; now right). reflexivity.
Qed.

Lemma split_on_token (tok : ascii) (s rest : string) :
  ¬ In tok (list_ascii_of_string s) →
  split_on tok (s +:+ String tok rest) = s :: split_on tok rest.
Proof.
  induction s as [|c s IH]; cbn [String.append split_on list_ascii_of_string In];
    intros H.
  - now rewrite Ascii.eqb_refl.
  - destruct (Ascii.eqb_spec c tok) as [->|_]; [exfalso; apply H; now left|].
    rewrite IH by (intros H'; apply H; now right). reflexivity.
Qed.

(** X22 ([db/limitersMgr.go], [CheckLimit], [getNamespaceAndCmd],
    [getAllmatchLimiterName]). The name [CheckLimit] gives a limiter is
    taken apart again: when neither the namespace nor the command holds the
    token, [getNamespaceAndCmd] returns the namespace and the command, and
    [getAllmatchLimiterName] is the name of the limiter of the same command
    for all namespaces. *)
Theorem limiterName_taken_apart (namespace cmdName : string) :
  ¬ In NAMESPACE_COMMAND_TOKEN (list_ascii_of_string namespace) →
  ¬ In NAMESPACE_COMMAND_TOKEN (list_ascii_of_string cmdName) →
  getNamespaceAndCmd (limiterName namespace cmdName)
  = Some [namespace; cmdName]
  ∧ getAllmatchLimiterName (limiterName namespace cmdName)
    = limiterName ALL_NAMESPACE cmdName.
Proof.
  intros Hn Hc. unfold getNamespaceAndCmd, getAllmatchLimiterName, limiterName.
  rewrite (split_on_token _ _ _ Hn), (split_on_no_token _ _ Hc).
  split; reflexivity.
Qed.

Lemma limiterName_taken_apart_witness :
  getNamespaceAndCmd (limiterName "ns" "zadd") = Some ["ns"; "zadd"]
  ∧ getAllmatchLimiterName (limiterName "ns" "zadd") = "*@zadd"%string.
Proof.
  apply (limiterName_taken_apart "ns" "zadd");
    cbn; intros H; repeat destruct H as [H|H]; try discriminate H; exact H.
Defined.

Lemma Qle_bool_inject_Z_0 (z : Z) :
  Qle_bool (inject_Z z) 0 = negb (0 <? z)%Z.
Proof.
  unfold Qle_bool, inject_Z. cbn [Qnum Qden].
  rewrite Z.mul_1_r. change (0 * 1)%Z with 0%Z.
  now rewrite Z.ltb_antisym, negb_involutive.
Qed.

Lemma ltb_0_lt (p : Q) : ltb 0 p = true → 0 < p.
Proof.
  unfold ltb. intros H. apply negb_true_iff in H.
  destruct (Qlt_le_dec 0 p) as [Hlt|Hle]; [exact Hlt|].
  apply Qle_bool_iff in Hle. congruence.
Qed.

Lemma lw_updateLimit_ok (lw : LimiterWrapper) (newLimit newBurst : Z) :
  lw_ok lw → lw_ok (lw_updateLimit lw newLimit newBurst).1.
Proof.
  intros [Hp Hl]. unfold lw_updateLimit, lw_ok.
  cbn [fst limiter globalLimit localPercent].
  split; [exact Hp|].
  destruct (0 <? newLimit)%Z eqn:Hnl; cbn [andb]; [|exact I].
  destruct (0 <? newBurst)%Z eqn:Hnb; [|exact I].
  apply Z.ltb_lt in Hnl, Hnb.
  destruct (limiter lw) as [l|]; cbn [rl_limit rl_burst].
  - destruct (Z.eqb_spec (rl_burst l) newBurst) as [Hb|Hb]; cbn [negb].
    + destruct (Z.eqb_spec (globalLimit lw) newLimit) as [Hg|Hg]; cbn [negb];
        cbn [rl_limit rl_burst].
      * destruct Hl as (Hl & _ & _). rewrite Hl, Hg. repeat split; lia.
      * repeat split; lia.
    + cbn [rl_limit rl_burst]. repeat split; lia.
  - repeat split; lia.
Qed.

Lemma lw_updateLimit_limits (lw : LimiterWrapper) (newLimit newBurst : Z) :
  is_Some (limiter (lw_updateLimit lw newLimit newBurst).1)
  ↔ positive (newLimit, newBurst) = true.
Proof.
  unfold lw_updateLimit, positive. cbn [fst snd limiter].
  destruct ((0 <? newLimit)%Z && (0 <? newBurst)%Z)%bool.
  - split; [reflexivity|]. intros _.
    destruct (limiter lw) as [l|]; [|eexists; reflexivity].
    destruct (negb _); [eexists; reflexivity|].
    destruct (negb _); eexists; reflexivity.
  - split; [|discriminate]. intros [x Hx]. discriminate Hx.
Qed.

Lemma lw_updatePercent_ok (lw : LimiterWrapper) (newPercent : Q) :
  lw_ok lw → lw_ok (lw_updatePercent lw newPercent).
Proof.
  intros [Hp Hl]. unfold lw_updatePercent.
  destruct (negb _ && ltb 0 (localPercent lw))%bool; cbn [andb];
    [|split; assumption].
  destruct (ltb 0 newPercent) eqn:Hn; [|split; assumption].
  unfold lw_ok. cbn [limiter globalLimit localPercent].
  split; [now apply ltb_0_lt|].
  destruct (limiter lw) as [l|]; [|exact I].
  cbn [rl_limit rl_burst]. destruct Hl as (_ & Hg & Hb). repeat split; assumption.
Qed.

Lemma lw_updatePercent_limits (lw : LimiterWrapper) (newPercent : Q) :
  is_Some (limiter (lw_updatePercent lw newPercent)) ↔ is_Some (limiter lw).
Proof.
  unfold lw_updatePercent.
  destruct (_ && _)%bool; [|reflexivity].
  cbn [limiter]. destruct (limiter lw); [|reflexivity].
  split; intros _; eexists; reflexivity.
Qed.

Lemma updateLimit_fields (cl : CommandLimiter) (nq nqb nr nrb : Z) :
  let cl' := updateLimit cl nq nqb nr nrb in
  qpsLw cl' = (lw_updateLimit (qpsLw cl) nq nqb).1
  ∧ rateLw cl' = (lw_updateLimit (rateLw cl) nr nrb).1
  ∧ weight cl' = weight cl
  ∧ skipBalance cl'
    = (if (lw_updateLimit (qpsLw cl) nq nqb).2
          || (lw_updateLimit (rateLw cl) nr nrb).2
       then true else skipBalance cl).
Proof.
  unfold updateLimit.
  destruct (lw_updateLimit (qpsLw cl) nq nqb) as [qps c1].
  destruct (lw_updateLimit (rateLw cl) nr nrb) as [rate c2].
  cbn [fst snd]. destruct (c1 || c2)%bool; cbn; repeat split; reflexivity.
Qed.

Lemma NewCommandLimiter_ok (qpsLimit qpsBurst rateLimit rateBurst : Z)
    (initialPercent : Q) (cl : CommandLimiter) :
  NewCommandLimiter qpsLimit qpsBurst rateLimit rateBurst initialPercent
  = Some cl →
  cl_ok cl.
Proof.
  unfold NewCommandLimiter.
  destruct (_ && _)%bool eqn:Hpos; [discriminate|].
  destruct (Qle_bool initialPercent 0) eqn:Hip; [discriminate|].
  intros [= <-]. unfold cl_ok. cbn [qpsLw rateLw].
  assert (H0 : lw_ok {| limiter := None; globalLimit := 0;
                        localPercent := initialPercent |}).
  { split; [|exact I]. cbn [localPercent]. apply ltb_0_lt.
    unfold ltb. now rewrite Hip. }
  split; [exact (lw_updateLimit_ok _ qpsLimit qpsBurst H0)|].
  split; [exact (lw_updateLimit_ok _ rateLimit rateBurst H0)|].
  destruct ((0 <? qpsLimit)%Z && (0 <? qpsBurst)%Z)%bool eqn:Hq.
  - left. eexists. reflexivity.
  - destruct ((0 <? rateLimit)%Z && (0 <? rateBurst)%Z)%bool eqn:Hr;
      [|discriminate Hpos].
    right. eexists. reflexivity.
Qed.

Lemma updateLimit_ok (cl : CommandLimiter) (qps rate : Z * Z) :
  positive qps || positive rate = true →
  cl_ok cl → cl_ok (updateLimit cl qps.1 qps.2 rate.1 rate.2).
Proof.
  intros Hpos (Hq & Hr & _).
  destruct (updateLimit_fields cl qps.1 qps.2 rate.1 rate.2)
    as (Eq & Er & _ & _).
  unfold cl_ok. rewrite Eq, Er.
  split; [now apply lw_updateLimit_ok|].
  split; [now apply lw_updateLimit_ok|].
  rewrite !lw_updateLimit_limits.
  destruct qps as [a b], rate as [c e]. cbn [fst snd].
  apply orb_true_iff in Hpos. exact Hpos.
Qed.

Lemma balanceLimit_ok (cl : CommandLimiter) (averageQps : Q)
    (store : StoreOutcome) (d m f : Q) :
  cl_ok cl → cl_ok (balanceLimit cl averageQps store d m f).
Proof.
  intros Hcl. unfold balanceLimit.
  destruct (Qle_bool _ 0); [exact Hcl|].
  destruct (skipBalance cl); [exact Hcl|].
  destruct store as [| |peers written]; try exact Hcl.
  destruct written; [|exact Hcl].
  destruct Hcl as (Hq & Hr & Hs).
  unfold cl_ok. cbn [qpsLw rateLw with_weight].
  split; [now apply lw_updatePercent_ok|].
  split; [now apply lw_updatePercent_ok|].
  now rewrite !lw_updatePercent_limits.
Qed.

Lemma limiter_step_ok (ip d m f : Q) (entry : option CommandLimiter)
    (ev : LimiterEvent) :
  1 < f →
  (∀ cl, entry = Some cl → cl_ok cl ∧ weight_ok (weight cl)) →
  ∀ cl, limiter_step ip d m f entry ev = Some cl →
    cl_ok cl ∧ weight_ok (weight cl).
Proof.
  intros Hf Hentry cl. destruct ev as [qps rate qa ra|q store];
    cbn [limiter_step].
  - unfold syncLimiter.
    destruct (positive (resolveLimit qps qa) || positive (resolveLimit rate ra))
      eqn:Hpos; [|discriminate].
    destruct entry as [cl0|].
    + intros [= <-]. destruct (Hentry cl0 eq_refl) as [Hok Hw]. split.
      * now apply updateLimit_ok.
      * destruct (updateLimit_fields cl0 (resolveLimit qps qa).1
                    (resolveLimit qps qa).2 (resolveLimit rate ra).1
                    (resolveLimit rate ra).2) as (_ & _ & Ew & _).
        now rewrite Ew.
    + intros Hnew. split; [exact (NewCommandLimiter_ok _ _ _ _ _ _ Hnew)|].
      rewrite (NewCommandLimiter_weight _ _ _ _ _ _ Hnew).
      unfold weight_ok, MINIMUM_WEIGHT, MAXIMUM_WEIGHT. split; lra.
  - destruct entry as [cl0|]; [|discriminate].
    intros [= <-]. destruct (Hentry cl0 eq_refl) as [Hok Hw]. split.
    + now apply balanceLimit_ok.
    + now apply balanceLimit_weight_ok.
Qed.

Lemma limiter_run_ok (ip d m f : Q) (events : list LimiterEvent) :
  1 < f →
  ∀ entry,
    (∀ cl, entry = Some cl → cl_ok cl ∧ weight_ok (weight cl)) →
    ∀ cl, limiter_run ip d m f events entry = Some cl →
      cl_ok cl ∧ weight_ok (weight cl).
Proof.
  intros Hf. unfold limiter_run.
  induction events as [|ev events IH]; intros entry Hentry; cbn [fold_left].
  - exact Hentry.
  - apply IH. now apply limiter_step_ok.
Qed.

(** X23 ([db/limitersMgr.go], [runSyncNewLimit], [runReportAndBalance],
    [NewCommandLimiter], [CommandLimiter.updateLimit], [balanceLimit],
    [LimiterWrapper.updateLimit], [updatePercent]). Whatever the ticks of
    the sync loop and of the balance loop do to an entry of [limiters] that
    starts out [nil], a limiter it holds afterwards is in step with its
    limits: each local limiter that is set has a positive burst and the rate
    of the global limit, which is positive, times the local share, which is
    positive; one of the two local limiters is set; and the weight is
    within [[0.1, 1.0]]. *)
Theorem limiter_run_in_step (initialPercent d m f : Q)
    (events : list LimiterEvent) (cl : CommandLimiter) :
  1 < f →
  limiter_run initialPercent d m f events None = Some cl →
  cl_ok cl ∧ weight_ok (weight cl).
Proof.
  intros Hf Hrun.
  apply (limiter_run_ok initialPercent d m f events Hf None);
    [discriminate|exact Hrun].
Qed.

Lemma limiter_run_in_step_witness :
  ∃ cl,
    limiter_run (33 # 100) usage_to_divide usage_to_multiply
      weight_change_factor
      [Sync (0, 0)%Z (0, 0)%Z (Some (100, 10)%Z) None;
       Balance 0 (Scanned [] true);
       Balance 0 (Scanned [(1, 100)] true);
       Sync (200, 10)%Z (0, 0)%Z None None] None = Some cl
    ∧ cl_ok cl ∧ weight_ok (weight cl).
Proof.
  eexists. split; [vm_compute; reflexivity|].
  apply (limiter_run_in_step (33 # 100) usage_to_divide usage_to_multiply
           weight_change_factor
           [Sync (0, 0)%Z (0, 0)%Z (Some (100, 10)%Z) None;
            Balance 0 (Scanned [] true);
            Balance 0 (Scanned [(1, 100)] true);
            Sync (200, 10)%Z (0, 0)%Z None None]);
    reflexivity.
Defined.

(** X24 ([db/limitersMgr.go], [CommandLimiter.updateLimit], [balanceLimit]).
    After a call of [updateLimit] that changed the limit or the burst of
    one of the two limiters, the next run of [balanceLimit] adjusts
    nothing: with a positive qps limit it only clears the skip flag, and
    without one it returns at once and the flag stays set. *)
Theorem balanceLimit_after_limit_change (cl : CommandLimiter)
    (newQpsLimit newQpsBurst newRateLimit newRateBurst : Z)
    (averageQps : Q) (store : StoreOutcome) (d m f : Q) :
  (lw_updateLimit (qpsLw cl) newQpsLimit newQpsBurst).2
  || (lw_updateLimit (rateLw cl) newRateLimit newRateBurst).2 = true →
  let cl' := updateLimit cl newQpsLimit newQpsBurst newRateLimit
               newRateBurst in
  skipBalance cl' = true
  ∧ balanceLimit cl' averageQps store d m f
    = if (0 <? newQpsLimit)%Z then setSkipBalance false cl' else cl'.
Proof.
  intros Hch cl'.
  destruct (updateLimit_fields cl newQpsLimit newQpsBurst newRateLimit
              newRateBurst) as (Eq & _ & _ & Es).
  fold cl' in Eq, Es. rewrite Hch in Es.
  split; [exact Es|].
  unfold balanceLimit. rewrite Es, Eq.
  change (globalLimit (lw_updateLimit (qpsLw cl) newQpsLimit newQpsBurst).1)
    with newQpsLimit.
  rewrite Qle_bool_inject_Z_0.
  destruct (0 <? newQpsLimit)%Z; reflexivity.
Qed.

Lemma balanceLimit_after_limit_change_witness :
  ∃ cl,
    sample1 = Some cl
    ∧ let cl' := updateLimit cl 200 10 0 0 in
      skipBalance cl' = true
      ∧ balanceLimit cl' 500 (Scanned [(1, 0)] true) usage_to_divide
          usage_to_multiply weight_change_factor
        = if (0 <? 200)%Z then setSkipBalance false cl' else cl'.
Proof.
  eexists. split; [vm_compute; reflexivity|].
  apply (balanceLimit_after_limit_change _ 200 10 0 0 500
           (Scanned [(1, 0)] true) usage_to_divide usage_to_multiply
           weight_change_factor).
  reflexivity.
Defined.

End LimiterLifeFacts.

(** ** The arguments of ZADD and ZREM *)

Lemma pair_ind (P : list string → Prop) :
  P [] → (∀ x, P [x]) → (∀ x y l, P l → P (x :: y :: l)) → ∀ l, P l.
Proof.
  intros H0 H1 H2 l. enough (P l ∧ ∀ x, P (x :: l)) by tauto.
  induction l as [|y l [IH1 IH2]]; split; auto.
Qed.

Lemma first_score_other (sc m m0 : string) (ps : list (string * string)) :
  m0 ≠ m →
  Command.first_score m0 ((sc, m) :: ps) = Command.first_score m0 ps.
Proof.
  intros Hne. cbn [Command.first_score].
  destruct (decide (m = m0)) as [->|_]; [contradiction|reflexivity].
Qed.

Lemma zadd_pairs_spec (ParseFloat : string → option float64)
    (kvs : list string) :
  ∀ U ms ss members scores,
    Command.zadd_pairs ParseFloat kvs U ms ss = Some (members, scores) →
    ∃ ms' ss',
      members = ms ++ ms' ∧ scores = ss ++ ss'
      ∧ length ms' = length ss'
      ∧ NoDup ms'
      ∧ (∀ m, m ∈ ms' ↔ (m ∉ U) ∧ m ∈ (Command.pairs kvs).*2)
      ∧ ∀ i m s, ms' !! i = Some m → ss' !! i = Some s →
          ∃ sc, Command.first_score m (Command.pairs kvs) = Some sc
                ∧ ParseFloat sc = Some s ∧ Float64.is_nan s = false.
Proof.
  induction kvs as [|x|sc m kvs IH] using pair_ind;
    intros U ms ss members scores H.
  - cbn in H. injection H as <- <-. exists [], [].
    rewrite !app_nil_r. split_and!; try reflexivity; try apply NoDup_nil_2.
    + intros m. split; [intros Hm|intros [_ Hm]]; inversion Hm.
    + intros i m s Hm. discriminate Hm.
  - cbn in H. injection H as <- <-. exists [], [].
    rewrite !app_nil_r. split_and!; try reflexivity; try apply NoDup_nil_2.
    + intros m. split; [intros Hm|intros [_ Hm]]; inversion Hm.
    + intros i m s Hm. discriminate Hm.
  - cbn [Command.zadd_pairs] in H. cbn [Command.pairs fmap list_fmap snd].
    destruct (decide (m ∈ U)) as [Hin|Hnin].
    + destruct (IH U ms ss members scores H)
        as (ms' & ss' & Em & Es & Hlen & Hnd & Hel & Hsc).
      exists ms', ss'. split_and!; try assumption.
      * intros m0. split.
        -- intros Hm. split; [now apply Hel|].
           apply elem_of_cons. right. now apply Hel.
        -- intros [HU Hm]. apply Hel. split; [exact HU|].
           apply elem_of_cons in Hm as [->|Hm]; [contradiction|exact Hm].
      * intros i m0 s Hm0 Hs.
        assert (Hne : m0 ≠ m).
        { intros ->. apply (proj1 (Hel m)); [|exact Hin].
          now apply list_elem_of_lookup_2 in Hm0. }
        rewrite (first_score_other sc m m0 _ Hne). now apply (Hsc i).
    + destruct (ParseFloat sc) as [s0|] eqn:Hp; [|discriminate H].
      destruct (Float64.is_nan s0) eqn:Hnan; [discriminate H|].
      destruct (IH _ _ _ members scores H)
        as (ms' & ss' & Em & Es & Hlen & Hnd & Hel & Hsc).
      exists (m :: ms'), (s0 :: ss').
      rewrite <- !app_assoc in Em, Es. cbn [app] in Em, Es.
      assert (Hfresh : ∀ m0, m0 ∈ ms' → m0 ≠ m ∧ m0 ∉ U).
      { intros m0 Hm0. apply Hel in Hm0 as [HU _].
        split; intros ?; apply HU, elem_of_union;
          [left; now apply elem_of_singleton|now right]. }
      split_and!; try assumption.
      * cbn [length]. now rewrite Hlen.
      * apply NoDup_cons. split; [|exact Hnd].
        intros Hm. now destruct (Hfresh m Hm).
      * intros m0. split.
        -- intros Hm0. apply elem_of_cons in Hm0 as [->|Hm0].
           ++ split; [exact Hnin|]. apply elem_of_cons. now left.
           ++ split; [now destruct (Hfresh m0 Hm0)|].
              apply elem_of_cons. right. now apply Hel.
        -- intros [HU Hm]. apply elem_of_cons.
           destruct (decide (m0 = m)) as [->|Hne]; [now left|right].
           apply Hel. split.
           { intros [Hs|Hu]%elem_of_union; [|contradiction].
             now apply elem_of_singleton in Hs. }
           apply elem_of_cons in Hm as [->|Hm]; [contradiction|exact Hm].
      * intros [|i] m0 s Hm0 Hs; cbn in Hm0, Hs.
        -- injection Hm0 as <-. injection Hs as <-. exists sc.
           cbn [Command.first_score].
           destruct (decide (m = m)); [|contradiction]. auto.
        -- assert (Hne : m0 ≠ m).
           { apply list_elem_of_lookup_2 in Hm0.
             now destruct (Hfresh m0 Hm0). }
           rewrite (first_score_other sc m m0 _ Hne). now apply (Hsc i).
Qed.

(** X25 ([client.go], [ZAdd] of the commands). The loop of ZADD over its
    arguments keeps each member once, with the score of its first
    occurrence: when it ends without [ErrFloat], the members it collected
    are the members of the arguments without repetition, there are as many
    scores as members, and the score at the position of a member is the
    parsed score of the first pair with that member, which is not NaN. The
    score of a later pair of the same member is never parsed. *)
Theorem zadd_pairs_first_occurrence_wins
    (ParseFloat : string → option float64) (kvs members : list string)
    (scores : list float64) :
  Command.zadd_pairs ParseFloat kvs ∅ [] [] = Some (members, scores) →
  NoDup members
  ∧ length members = length scores
  ∧ (∀ m, m ∈ members ↔ m ∈ (Command.pairs kvs).*2)
  ∧ ∀ i m s, members !! i = Some m → scores !! i = Some s →
      ∃ sc, Command.first_score m (Command.pairs kvs) = Some sc
            ∧ ParseFloat sc = Some s ∧ Float64.is_nan s = false.
Proof.
  intros H.
  destruct (zadd_pairs_spec ParseFloat kvs ∅ [] [] members scores H)
    as (ms' & ss' & Em & Es & Hlen & Hnd & Hel & Hsc).
  cbn [app] in Em, Es. subst ms' ss'.
  split_and!; try assumption.
  intros m. split; [intros Hm; now apply Hel|].
  intros Hm. apply Hel. split; [apply not_elem_of_empty|exact Hm].
Qed.

Lemma zadd_pairs_first_occurrence_wins_witness :
  let ParseFloat := λ s : string,
    if decide (s = "1") then Some Sample.f_one
    else if decide (s = "2") then Some Sample.f_two else None in
  Command.zadd_pairs ParseFloat ["2"; "a"; "1"; "b"; "x"; "a"] ∅ [] []
  = Some (["a"; "b"], [Sample.f_two; Sample.f_one])
  ∧ NoDup ["a"; "b"]
  ∧ length ["a"; "b"] = length [Sample.f_two; Sample.f_one].
Proof.
  intros ParseFloat.
  assert (E : Command.zadd_pairs ParseFloat ["2"; "a"; "1"; "b"; "x"; "a"]
                ∅ [] []
              = Some (["a"; "b"], [Sample.f_two; Sample.f_one]))
    by (vm_compute; reflexivity).
  split; [exact E|].
  destruct (zadd_pairs_first_occurrence_wins ParseFloat _ _ _ E)
    as (Hnd & Hlen & _).
  split; [exact Hnd|exact Hlen].
Defined.

Lemma unique_members_spec (args : list string) :
  ∀ U ms,
    ∃ ms',
      Command.unique_members args U ms = ms ++ ms'
      ∧ NoDup ms'
      ∧ (∀ m, m ∈ ms' ↔ (m ∉ U) ∧ m ∈ args)
      ∧ sublist ms' args.
Proof.
  induction args as [|a args IH]; intros U ms; cbn [Command.unique_members].
  - exists []. rewrite app_nil_r. split_and!; try reflexivity;
      try apply NoDup_nil_2; try apply sublist_nil.
    intros m. split; [intros Hm|intros [_ Hm]]; inversion Hm.
  - destruct (decide (a ∈ U)) as [Hin|Hnin].
    + destruct (IH U ms) as (ms' & E & Hnd & Hel & Hsub).
      exists ms'. split_and!; try assumption.
      * intros m. split.
        -- intros Hm. split; [now apply Hel|].
           apply elem_of_cons. right. now apply Hel.
        -- intros [HU Hm]. apply Hel. split; [exact HU|].
           apply elem_of_cons in Hm as [->|Hm]; [contradiction|exact Hm].
      * now apply sublist_cons.
    + destruct (IH ({[a]} ∪ U) (ms ++ [a])) as (ms' & E & Hnd & Hel & Hsub).
      exists (a :: ms'). rewrite <- app_assoc in E. cbn [app] in E.
      assert (Hfresh : ∀ m0, m0 ∈ ms' → m0 ≠ a ∧ m0 ∉ U).
      { intros m0 Hm0. apply Hel in Hm0 as [HU _].
        split; intros ?; apply HU, elem_of_union;
          [left; now apply elem_of_singleton|now right]. }
      split_and!; try assumption.
      * apply NoDup_cons. split; [|exact Hnd].
        intros Hm. now destruct (Hfresh a Hm).
      * intros m. split.
        -- intros Hm. apply elem_of_cons in Hm as [->|Hm].
           ++ split; [exact Hnin|]. apply elem_of_cons. now left.
           ++ split; [now destruct (Hfresh m Hm)|].
              apply elem_of_cons. right. now apply Hel.
        -- intros [HU Hm]. apply elem_of_cons.
           destruct (decide (m = a)) as [->|Hne]; [now left|right].
           apply Hel. split.
           { intros [Hs|Hu]%elem_of_union; [|contradiction].
             now apply elem_of_singleton in Hs. }
           apply elem_of_cons in Hm as [->|Hm]; [contradiction|exact Hm].
      * now apply sublist_skip.
Qed.

(** X26 ([client.go], [ZRem] of the commands). The loop of ZREM over its
    arguments hands every member over once: the members it collects have no
    repetition, they are the members of the arguments, and they come in the
    order of the arguments. *)
Theorem unique_members_no_repetition (args : list string) :
  let members := Command.unique_members args ∅ [] in
  NoDup members
  ∧ (∀ m, m ∈ members ↔ m ∈ args)
  ∧ sublist members args.
Proof.
  destruct (unique_members_spec args ∅ []) as (ms' & E & Hnd & Hel & Hsub).
  cbn [app] in E. cbv zeta. rewrite E.
  split_and!; try assumption.
  intros m. split; [intros Hm; now apply Hel|].
  intros Hm. apply Hel. split; [apply not_elem_of_empty|exact Hm].
Qed.

(** ** The commands on a key that holds no sorted set *)

Lemma GetZSet_missing (txn : Transaction) (key : string) (now : Z)
    (uuid : string) :
  fault txn = no_fault →
  kv txn !! MetaKey (db txn) key = None →
  ∃ zset,
    GetZSet key now uuid txn
    = (Ok zset, record (OpGet (MetaKey (db txn) key)) (kv txn) txn)
    ∧ ZExist zset = false.
Proof.
  intros Hf Hkv. eexists. split.
  - unfold GetZSet, bind, get_db, txn_Get. rewrite Hf. cbn [no_fault].
    rewrite Hkv. reflexivity.
  - reflexivity.
Qed.

(** X27 ([client.go], [ZCard], [ZScore], [ZRem] of the commands;
    [db/zset.go], [GetZSet], [Exist]). On a key that holds nothing, ZCARD
    and ZREM reply the integer 0 and ZSCORE replies the null bulk string;
    each of them reads the meta key and does nothing else to the
    transaction. *)
Theorem zset_commands_on_missing_key (FormatFloat : float64 → string)
    (txn : Transaction) (key member : string) (args : list string) (now : Z)
    (uuid : string) :
  fault txn = no_fault →
  kv txn !! MetaKey (db txn) key = None →
  let txn' := record (OpGet (MetaKey (db txn) key)) (kv txn) txn in
  Command.ZCard key now uuid txn = (inr (Command.Integer 0), txn')
  ∧ Command.ZScore FormatFloat key member now uuid txn
    = (inr Command.NullBulkString, txn')
  ∧ Command.ZRem key args now uuid txn = (inr (Command.Integer 0), txn').
Proof.
  intros Hf Hkv txn'.
  destruct (GetZSet_missing txn key now uuid Hf Hkv) as (zset & E & Hex).
  fold txn' in E.
  unfold Command.ZCard, Command.ZScore, Command.ZRem, Command.with_ZSet,
    Command.txn_ZSet.
  rewrite E, Hex. cbn [negb]. split_and!; reflexivity.
Qed.

Lemma zset_commands_on_missing_key_witness :
  let txn' := record (OpGet (MetaKey Sample.db0 "z"))
                (kv Sample.recreated_txn) Sample.recreated_txn in
  Command.ZCard "z" 300 Sample.id0 Sample.recreated_txn
  = (inr (Command.Integer 0), txn')
  ∧ Command.ZScore Sample.fmt "z" "a" 300 Sample.id0 Sample.recreated_txn
    = (inr Command.NullBulkString, txn')
  ∧ Command.ZRem "z" ["a"; "a"] 300 Sample.id0 Sample.recreated_txn
    = (inr (Command.Integer 0), txn').
Proof.
  apply (zset_commands_on_missing_key Sample.fmt Sample.recreated_txn "z" "a"
           ["a"; "a"] 300 Sample.id0).
  - reflexivity.
  - vm_compute. reflexivity.
Defined.

(** X28 ([client.go], [ZCard] of the commands; [db/zset.go], [GetZSet],
    [decodeMeta], [Exist], [ZCard]). On a key whose meta entry is the
    encoding of a sorted set, ZCARD replies the length that entry carries;
    it reads the meta key and does nothing else to the transaction. *)
Theorem ZCard_command_replies_len (txn : Transaction) (key : string)
    (o : Object) (n now : Z) (uuid : string) :
  fault txn = no_fault →
  kv txn !! MetaKey (db txn) key = Some (encodeMeta {| ZObj := o; Len := n |}) →
  wf_Object o → Type_ o = ObjectZSet → in_int64 n →
  Command.ZCard key now uuid txn
  = (inr (Command.Integer n),
     record (OpGet (MetaKey (db txn) key)) (kv txn) txn).
Proof.
  intros Hf Hkv Hwf Ht Hn.
  unfold Command.ZCard, Command.with_ZSet, Command.txn_ZSet, GetZSet, bind,
    get_db, txn_Get.
  rewrite Hf. cbn [no_fault]. rewrite Hkv.
  rewrite (decodeMeta_encodeMeta _ o n Hwf Ht Hn).
  unfold ret, ZExist, ZCard. cbn [meta Len].
  destruct (Z.eqb_spec n 0) as [->|_]; reflexivity.
Qed.

Lemma ZCard_command_replies_len_witness :
  Command.ZCard "k" 300 Sample.id0 Sample.recreated_txn
  = (inr (Command.Integer 1),
     record (OpGet (MetaKey Sample.db0 "k")) (kv Sample.recreated_txn)
       Sample.recreated_txn).
Proof.
  apply (ZCard_command_replies_len Sample.recreated_txn "k"
           Sample.recreated_obj 1 300 Sample.id0).
  - reflexivity.
  - vm_compute. reflexivity.
  - wf_closed.
  - reflexivity.
  - unfold in_int64. vm_compute. split; [discriminate|reflexivity].
Defined.

Lemma with_ZSet_other_type (txn : Transaction) (key : string) (o : Object)
    (rest : string) (now : Z) (uuid : string) (k : ZSet → Command.Cmd) :
  fault txn = no_fault →
  kv txn !! MetaKey (db txn) key = Some (EncodeObject o +:+ rest) →
  wf_Object o →
  Type_ o ≠ ObjectZSet →
  Command.with_ZSet key now uuid k txn
  = (inl Command.ErrWrongType,
     record (OpGet (MetaKey (db txn) key)) (kv txn) txn).
Proof.
  intros Hf Hkv Hwf Ht.
  unfold Command.with_ZSet, Command.txn_ZSet, GetZSet, bind, get_db, txn_Get.
  rewrite Hf. cbn [no_fault]. rewrite Hkv. unfold decodeMeta.
  rewrite (DecodeObject_EncodeObject o rest Hwf).
  replace (Type_ o =? ObjectZSet) with false
    by (symmetry; now apply Z.eqb_neq).
  reflexivity.
Qed.

(** X29 ([client.go], [ZAdd], [ZRem], [ZCard], [ZScore] of the commands;
    [db/zset.go], [GetZSet], [decodeMeta]). On a key whose meta entry
    carries the header of an object of another type, ZCARD, ZSCORE and ZREM
    fail with the wrong-type error of the commands, and so does ZADD when
    its arguments are pairs whose scores parse; each of them reads the meta
    key and writes nothing. *)
Theorem zset_commands_on_other_type (ParseFloat : string → option float64)
    (FormatFloat : float64 → string) (txn : Transaction)
    (key member : string) (args kvs : list string) (o : Object)
    (rest : string) (now : Z) (uuid : string) :
  fault txn = no_fault →
  kv txn !! MetaKey (db txn) key = Some (EncodeObject o +:+ rest) →
  wf_Object o →
  Type_ o ≠ ObjectZSet →
  let failed := (inl Command.ErrWrongType,
                 record (OpGet (MetaKey (db txn) key)) (kv txn) txn) in
  Command.ZCard key now uuid txn = failed
  ∧ Command.ZScore FormatFloat key member now uuid txn = failed
  ∧ Command.ZRem key args now uuid txn = failed
  ∧ ((length kvs mod 2 = 0)%nat →
     is_Some (Command.zadd_pairs ParseFloat kvs ∅ [] []) →
     Command.ZAdd ParseFloat key kvs now uuid txn = failed).
Proof.
  intros Hf Hkv Hwf Ht failed.
  pose proof (with_ZSet_other_type txn key o rest now uuid) as H.
  split_and!.
  - now apply H.
  - now apply H.
  - now apply H.
  - intros Heven [[members scores] Hp]. unfold Command.ZAdd.
    rewrite Heven, Hp. cbn [Nat.eqb negb].
    now apply H.
Qed.

Lemma zset_commands_on_other_type_witness :
  let ParseFloat := λ s : string,
    if decide (s = "1") then Some Sample.f_one else None in
  let failed := (inl Command.ErrWrongType,
                 record (OpGet (MetaKey Sample.db0 "s"))
                   (kv Sample.expiring_txn) Sample.expiring_txn) in
  Command.ZCard "s" 300 Sample.id1 Sample.expiring_txn = failed
  ∧ Command.ZScore Sample.fmt "s" "a" 300 Sample.id1 Sample.expiring_txn
    = failed
  ∧ Command.ZRem "s" ["a"] 300 Sample.id1 Sample.expiring_txn = failed
  ∧ Command.ZAdd ParseFloat "s" ["1"; "a"] 300 Sample.id1
      Sample.expiring_txn = failed.
Proof.
  intros ParseFloat failed.
  destruct (zset_commands_on_other_type ParseFloat Sample.fmt
              Sample.expiring_txn "s" "a" ["a"] ["1"; "a"]
              Sample.expiring_obj "v" 300 Sample.id1)
    as (H1 & H2 & H3 & H4).
  - reflexivity.
  - vm_compute. reflexivity.
  - wf_closed.
  - vm_compute. discriminate.
  - split_and!; [exact H1|exact H2|exact H3|].
    apply H4; [reflexivity|]. vm_compute. eexists. reflexivity.
Defined.
